(** * debdiff: the diff engine of github.com/daaku/debdiff

    A shallow embedding of the Go command [debdiff]: the ignore-rule
    matcher, the three inventory builders, the set-difference pass and the
    content-divergence pass, together with the parts of the Go standard
    library they rest on ([sort.Search], [strings.HasPrefix],
    [strings.Replace], [bufio.Scanner] with [ScanLines], [filepath.Walk],
    [filepath.Join], the [os] error predicates and [pkg/errors.Wrap]).

    Go strings are byte strings and compare byte-wise; they are modelled by
    [string], whose [String.compare] is the lexicographic order on the
    codes of the characters. *)

From Stdlib Require Import String Ascii List Bool Arith PeanoNat NArith Lia.
From Stdlib Require Import Sorted Permutation RelationClasses.
From Equations Require Import Equations.
Import ListNotations.

Local Open Scope string_scope.
Local Open Scope list_scope.

(** ** Go strings *)

Module GoString.

(** [a >= x] on Go strings. *)
Definition geb (a x : string) : bool := negb (String.ltb a x).

(** [strings.HasPrefix(s, prefix)]:
    [len(s) >= len(prefix) && s[:len(prefix)] == prefix]. *)
Definition HasPrefix (s pre : string) : bool :=
  (String.length pre <=? String.length s)%nat
  && String.eqb (String.substring 0 (String.length pre) s) pre.

(** The first byte of a non-empty string; [None] is Go's index-out-of-range
    panic on [s[0]]. *)
Definition first (s : string) : option ascii := String.get 0 s.

End GoString.

(** ** The literal ignore rule *)

(** [type simpleGlob string] and its [Match] method. *)
Definition simpleGlob_Match (g path : string) : bool :=
  if String.eqb path g then true
  else GoString.HasPrefix path (g ++ "/").

(** ** Binary search: [sort.Search], [sort.SearchStrings], [contains] *)

(** The loop of [sort.Search]:
    [for i < j { h := int(uint(i+j) >> 1); if !f(h) { i = h+1 } else { j = h } }].
    Slice lengths are below 2^63, so [uint(i+j)] does not wrap and the
    indices are natural numbers. *)
Equations? Search_loop (f : nat -> bool) (i j : nat) : nat by wf (j - i) lt :=
  Search_loop f i j with lt_dec i j => {
    | left _ with f ((i + j) / 2) => {
        | false => Search_loop f ((i + j) / 2 + 1) j
        | true => Search_loop f i ((i + j) / 2) }
    | right _ => i }.
Proof.
  all: change (fst (Nat.divmod (i + j) 1 0 1)) with ((i + j) / 2).
  all: assert (Hh : i <= (i + j) / 2 < j)
    by (split; [apply Nat.div_le_lower_bound | apply Nat.Div0.div_lt_upper_bound]; lia).
  all: lia.
Qed.

(** [sort.Search(n, f)]. *)
Definition Search (n : nat) (f : nat -> bool) : nat := Search_loop f 0 n.

(** [sort.SearchStrings(a, x)]: [Search(len(a), func(i) bool { return a[i] >= x })].
    [Search] evaluates [f] only at indices below [len(a)] (lemma
    [Search_loop_ext]), so the default of [nth] is never looked at. *)
Definition SearchStrings (a : list string) (x : string) : nat :=
  Search (length a) (fun i => GoString.geb (nth i a "") x).

(** [func contains(a []string, x string) bool]. *)
Definition contains (a : list string) (x : string) : bool :=
  let i := SearchStrings a x in
  if (i =? length a)%nat then false
  else String.eqb (nth i a "") x.

(** The linear scan the binary search is compared with: the first element
    equal to [x], if any, decides. *)
Fixpoint linear_contains (a : list string) (x : string) : bool :=
  match a with
  | [] => false
  | y :: rest => if String.eqb y x then true else linear_contains rest x
  end.

(** ** Errors *)

(** The system-call error numbers the program tells apart. *)
Inductive errno := ENOENT | EACCES | EPERM | EIO | ENOTDIR | ELOOP.

(** Go [error] values that occur in the program.  [Wrapped cause msg] is
    the value built by [errors.Wrap(cause, msg)] of github.com/pkg/errors: a
    private wrapper type around [cause]. *)
Inductive error :=
| PathError (op path : string) (e : errno)   (* *os.PathError *)
| ErrTooLong                                 (* bufio.ErrTooLong *)
| ErrBadPattern                              (* filepath.ErrBadPattern *)
| ErrGlobSyntax (pattern : string)           (* an error of glob.Compile *)
| SkipDir                                    (* filepath.SkipDir *)
| Wrapped (cause : error) (msg : string).

Definition errors_Wrap (err : error) (msg : string) : error := Wrapped err msg.

(** [errors.Cause]: strips every wrapper of pkg/errors. *)
Fixpoint errors_Cause (err : error) : error :=
  match err with
  | Wrapped cause _ => errors_Cause cause
  | _ => err
  end.

(** [os.IsNotExist] and [os.IsPermission] look through [*os.PathError]
    (and [*os.LinkError], [*os.SyscallError]) only; a wrapper of pkg/errors
    is a foreign type to them and is compared as it stands. *)
Definition os_IsNotExist (err : error) : bool :=
  match err with
  | PathError _ _ ENOENT => true
  | _ => false
  end.

Definition os_IsPermission (err : error) : bool :=
  match err with
  | PathError _ _ EACCES | PathError _ _ EPERM => true
  | _ => false
  end.

Definition is_SkipDir (err : error) : bool :=
  match err with
  | SkipDir => true
  | _ => false
  end.

(** ** Strings and paths of the Go library *)

Definition newline : ascii := "010"%char.
Definition carriage_return : ascii := "013"%char.

(** [strings.Replace(s, old, new, 1)]: the first occurrence of [old] in [s]
    is replaced; an empty [old] matches at the beginning. *)
Definition strings_Replace1 (s old new : string) : string :=
  match String.index 0 old s with
  | None => s
  | Some i =>
      String.substring 0 i s ++ new
      ++ String.substring (i + String.length old)
           (String.length s - (i + String.length old)) s
  end.

(** [strings.IndexAny(s, chars) > -1]. *)
Fixpoint strings_ContainsAny (s chars : string) : bool :=
  match s with
  | EmptyString => false
  | String c rest =>
      match String.index 0 (String c EmptyString) chars with
      | Some _ => true
      | None => strings_ContainsAny rest chars
      end
  end.

(** The elements of a path between its separators. *)
Fixpoint split_sep (s cur : string) : list string :=
  match s with
  | EmptyString => [cur]
  | String c rest =>
      if Ascii.eqb c "/" then cur :: split_sep rest EmptyString
      else split_sep rest (cur ++ String c EmptyString)
  end.

(** One element of the loop of [filepath.Clean], on the elements written so
    far (last one first).  Empty and [.] elements are dropped; [..] removes
    the last real element, is kept in front of a path that is not rooted
    and is dropped at the root. *)
Definition clean_elem (rooted : bool) (out : list string) (elem : string)
  : list string :=
  if String.eqb elem "" || String.eqb elem "." then out
  else if String.eqb elem ".." then
    match out with
    | top :: below => if String.eqb top ".." then elem :: out else below
    | [] => if rooted then [] else [elem]
    end
  else elem :: out.

(** [filepath.Clean] on Unix. *)
Definition filepath_Clean (path : string) : string :=
  match path with
  | EmptyString => "."
  | String c _ =>
      let rooted := Ascii.eqb c "/" in
      let out := fold_left (clean_elem rooted) (split_sep path "") [] in
      let body := String.concat "/" (rev out) in
      if rooted then "/" ++ body
      else if String.eqb body "" then "." else body
  end.

(** [filepath.Join(a, b)]: the non-empty arguments joined by the separator
    and cleaned; the empty string when both are empty. *)
Definition filepath_Join (a b : string) : string :=
  if String.eqb a "" then
    if String.eqb b "" then "" else filepath_Clean b
  else filepath_Clean (a ++ "/" ++ b).

(** ** Reading lines: [bufio.Scanner] with the default [ScanLines] *)

Definition MaxScanTokenSize : nat := 64 * 1024.

(** [dropCR]: a trailing carriage return is not part of the line. *)
Fixpoint dropCR (line : string) : string :=
  match line with
  | EmptyString => EmptyString
  | String c EmptyString =>
      if Ascii.eqb c carriage_return then EmptyString else line
  | String c rest => String c (dropCR rest)
  end.

(** The tokens [Scan] delivers for the bytes [data], [cur] being the bytes
    of the current line read so far, and the error [Err] reports: a line
    that does not fit the buffer of [MaxScanTokenSize] bytes together with
    its newline stops the scanner with [ErrTooLong].  The last line is
    delivered without a newline when it is not empty. *)
Fixpoint scan_lines (data cur : string) : list string * option error :=
  match data with
  | EmptyString =>
      if String.eqb cur "" then ([], None)
      else if (MaxScanTokenSize <=? String.length cur)%nat
           then ([], Some ErrTooLong)
           else ([dropCR cur], None)
  | String c rest =>
      if Ascii.eqb c newline then
        if (MaxScanTokenSize <=? String.length cur)%nat
        then ([], Some ErrTooLong)
        else let (tokens, err) := scan_lines rest "" in
             (dropCR cur :: tokens, err)
      else scan_lines rest (cur ++ String c EmptyString)
  end.

(** ** The file system *)

Inductive FileKind := Regular | Symlink | Special.

(** What [lstat] and [readdir] find at a path and below it.  The entries of
    a directory come in the order of [readDirNames], which sorts them. *)
#[warnings="-register-all"]
Inductive node :=
| File (k : FileKind)                     (* any entry that is not a directory *)
| Dir (entries : list (string * node))    (* a directory that can be read *)
| DirUnreadable (e : errno)               (* a directory whose listing fails *)
| NoStat (e : errno).                     (* lstat of the entry fails *)

(** [os.FileInfo], as far as the program looks at it. *)
Inductive FileInfo := InfoDir | InfoFile (k : FileKind).

Definition IsDir (info : FileInfo) : bool :=
  match info with
  | InfoDir => true
  | InfoFile _ => false
  end.

Definition node_IsDir (n : node) : bool :=
  match n with
  | Dir _ | DirUnreadable _ => true
  | File _ | NoStat _ => false
  end.

(** Opening a file and reading it to its end: the open fails, or the bytes
    [data] are read and then the end of the file or a read error is met. *)
Inductive open_result :=
| OpenFails (e : errno)
| Opened (data : string) (rerr : option errno).

Record FS := {
  fs_tree : string -> node;                   (* lstat and readdir below a path *)
  fs_open : string -> open_result;            (* os.Open, os.OpenFile(O_RDONLY) *)
  fs_glob : string -> option (list string);   (* filepath.Glob; None: ErrBadPattern *)
  fs_create : string -> option errno          (* os.Create; None: success *)
}.

(** [os.Lstat(root)]: the empty path names no file, the system call fails
    with ENOENT. *)
Definition os_Lstat (fs : FS) (root : string) : node :=
  if String.eqb root "" then NoStat ENOENT else fs_tree fs root.

(** A [bufio.Scanner] run to its end over an opened file: the tokens and
    [sc.Err()].  A read error ends the input like the end of the file does
    and is reported unless the scanner stopped before. *)
Definition scan_file (data : string) (rerr : option errno) (path : string)
  : list string * option error :=
  let (tokens, err) := scan_lines data "" in
  (tokens,
   match err, rerr with
   | Some e, _ => Some e
   | None, Some e => Some (PathError "read" path e)
   | None, None => None
   end).

(** ** Ignore rules *)

(** [type Glob interface { Match(name string) bool }] and its two
    implementations: [simpleGlob] and the compiled pattern of
    github.com/gobwas/glob, whose matcher is taken as it is. *)
Inductive Glob :=
| simpleGlob (g : string)
| compiledGlob (matcher : string -> bool).

Definition Match (g : Glob) (name : string) : bool :=
  match g with
  | simpleGlob s => simpleGlob_Match s name
  | compiledGlob m => m name
  end.

(** ** The program state *)

Record DebDiff := {
  Silent : bool;
  Root : string;
  Repo : string;
  IgnoreDir : string;
  CpuProfile : string;
  ignoreGlob : list Glob;
  allFile : list string;
  pkgFile : list string;
  repoFile : list string;
  unpackagedFile : list string;
  diffRepoFile : list string
}.

Definition set_ignoreGlob (v : list Glob) (ad : DebDiff) : DebDiff :=
  {| Silent := Silent ad; Root := Root ad; Repo := Repo ad;
     IgnoreDir := IgnoreDir ad; CpuProfile := CpuProfile ad;
     ignoreGlob := v; allFile := allFile ad; pkgFile := pkgFile ad;
     repoFile := repoFile ad; unpackagedFile := unpackagedFile ad;
     diffRepoFile := diffRepoFile ad |}.

Definition set_allFile (v : list string) (ad : DebDiff) : DebDiff :=
  {| Silent := Silent ad; Root := Root ad; Repo := Repo ad;
     IgnoreDir := IgnoreDir ad; CpuProfile := CpuProfile ad;
     ignoreGlob := ignoreGlob ad; allFile := v; pkgFile := pkgFile ad;
     repoFile := repoFile ad; unpackagedFile := unpackagedFile ad;
     diffRepoFile := diffRepoFile ad |}.

Definition set_pkgFile (v : list string) (ad : DebDiff) : DebDiff :=
  {| Silent := Silent ad; Root := Root ad; Repo := Repo ad;
     IgnoreDir := IgnoreDir ad; CpuProfile := CpuProfile ad;
     ignoreGlob := ignoreGlob ad; allFile := allFile ad; pkgFile := v;
     repoFile := repoFile ad; unpackagedFile := unpackagedFile ad;
     diffRepoFile := diffRepoFile ad |}.

Definition set_repoFile (v : list string) (ad : DebDiff) : DebDiff :=
  {| Silent := Silent ad; Root := Root ad; Repo := Repo ad;
     IgnoreDir := IgnoreDir ad; CpuProfile := CpuProfile ad;
     ignoreGlob := ignoreGlob ad; allFile := allFile ad; pkgFile := pkgFile ad;
     repoFile := v; unpackagedFile := unpackagedFile ad;
     diffRepoFile := diffRepoFile ad |}.

Definition set_unpackagedFile (v : list string) (ad : DebDiff) : DebDiff :=
  {| Silent := Silent ad; Root := Root ad; Repo := Repo ad;
     IgnoreDir := IgnoreDir ad; CpuProfile := CpuProfile ad;
     ignoreGlob := ignoreGlob ad; allFile := allFile ad; pkgFile := pkgFile ad;
     repoFile := repoFile ad; unpackagedFile := v;
     diffRepoFile := diffRepoFile ad |}.

Definition set_diffRepoFile (v : list string) (ad : DebDiff) : DebDiff :=
  {| Silent := Silent ad; Root := Root ad; Repo := Repo ad;
     IgnoreDir := IgnoreDir ad; CpuProfile := CpuProfile ad;
     ignoreGlob := ignoreGlob ad; allFile := allFile ad; pkgFile := pkgFile ad;
     repoFile := repoFile ad; unpackagedFile := unpackagedFile ad;
     diffRepoFile := v |}.

(** ** Methods: computations on the [DebDiff] they are called on *)

(** A method mutates its receiver and returns, or the program panics.  The
    calls of [log.Printf] write to the standard error stream only and are
    left out. *)
Inductive outcome (A : Type) :=
| Returns (a : A) (ad : DebDiff)
| Panics.
Arguments Returns {A} a ad.
Arguments Panics {A}.

Definition M (A : Type) : Type := DebDiff -> outcome A.

Definition ret {A} (a : A) : M A := fun ad => Returns a ad.

Definition bind {A B} (m : M A) (k : A -> M B) : M B :=
  fun ad =>
    match m ad with
    | Returns a ad' => k a ad'
    | Panics => Panics
    end.

Definition get : M DebDiff := fun ad => Returns ad ad.
Definition modify (f : DebDiff -> DebDiff) : M unit := fun ad => Returns tt (f ad).
Definition panic {A} : M A := fun _ => Panics.

Notation "x <- m ;; k" := (bind m (fun x => k))
  (at level 61, m at next level, right associativity).
Notation "m ;;; k" := (bind m (fun _ => k))
  (at level 61, right associativity).

(** ** [filepath.Walk] *)

(** [type WalkFunc func(path string, info os.FileInfo, err error) error];
    in a result of type [option error], [None] is Go's [nil]. *)
Definition WalkFunc : Type :=
  string -> option FileInfo -> option error -> M (option error).

(** Whether the loop over the entries of a directory returns the error of
    an entry: for an entry whose [lstat] failed,
    [err != nil && err != SkipDir]; for the others,
    [err != nil && (!fileInfo.IsDir() || err != SkipDir)]. *)
Definition stops (child : node) (err : option error) : bool :=
  match err with
  | None => false
  | Some e =>
      match child with
      | NoStat _ => negb (is_SkipDir e)
      | _ => negb (node_IsDir child) || negb (is_SkipDir e)
      end
  end.

Section Walk.

Variable walkFn : WalkFunc.

(** [walk(path, info, walkFn)], and for an entry whose [lstat] failed the
    call [walkFn(path, nil, err)] that [Walk] and the loop of [walk] make
    in its place.  A directory is listed first and the callback is called
    once, with the error of the listing if there is one; when either that
    error or the result of the callback is not [nil], the result of the
    callback is returned. *)
Fixpoint walk (path : string) (n : node) {struct n} : M (option error) :=
  match n with
  | NoStat e => walkFn path None (Some (PathError "lstat" path e))
  | File k => walkFn path (Some (InfoFile k)) None
  | DirUnreadable e =>
      walkFn path (Some InfoDir) (Some (PathError "open" path e))
  | Dir entries =>
      err1 <- walkFn path (Some InfoDir) None ;;
      match err1 with
      | Some _ => ret err1
      | None =>
          (fix range (names : list (string * node)) : M (option error) :=
             match names with
             | [] => ret None
             | (name, child) :: rest =>
                 err <- walk (filepath_Join path name) child ;;
                 if stops child err then ret err else range rest
             end) entries
      end
  end.

(** The loop [for _, name := range names] of [walk]. *)
Fixpoint walk_range (path : string) (names : list (string * node))
  : M (option error) :=
  match names with
  | [] => ret None
  | (name, child) :: rest =>
      err <- walk (filepath_Join path name) child ;;
      if stops child err then ret err else walk_range path rest
  end.

(** [filepath.Walk(root, walkFn)]. *)
Definition filepath_Walk (fs : FS) (root : string) : M (option error) :=
  err <- walk root (os_Lstat fs root) ;;
  match err with
  | Some SkipDir => ret None
  | _ => ret err
  end.

End Walk.

(** [info.IsDir()]; the method panics on a [nil] [os.FileInfo]. *)
Definition info_IsDir (info : option FileInfo) : M bool :=
  match info with
  | Some i => ret (IsDir i)
  | None => panic
  end.

(** ** [sort.Strings] *)

(** The order is total and equal strings are indistinguishable, so the
    sorted slice does not depend on the sorting algorithm (lemma
    [sorted_perm_unique]); insertion stands for the library's sort. *)
Fixpoint insert_sorted (x : string) (l : list string) : list string :=
  match l with
  | [] => [x]
  | y :: rest => if String.leb x y then x :: l else y :: insert_sorted x rest
  end.

Fixpoint sort_Strings (l : list string) : list string :=
  match l with
  | [] => []
  | x :: rest => insert_sorted x (sort_Strings rest)
  end.

(** ** The builders and the two passes *)

(** [func (ad *DebDiff) IsIgnored(path string) bool]. *)
Definition IsIgnored (ad : DebDiff) (path : string) : bool :=
  existsb (fun glob => Match glob path) (ignoreGlob ad).

Section Builders.

(** [glob.Compile] of github.com/gobwas/glob: the matcher of a pattern,
    or [None] when the pattern does not compile. *)
Variable glob_Compile : string -> option (string -> bool).

(** [fmt.Sprintf("%x", h.Sum(nil))] for the MD5 digest of the bytes
    written to [h]. *)
Variable md5hex : string -> string.

Variable fs : FS.

(** The body of [for sc.Scan()] in [buildIgnoreGlob], over the lines the
    scanner delivers. *)
Fixpoint ignore_lines (lines : list string) : M (option error) :=
  match lines with
  | [] => ret None
  | l :: rest =>
      if (String.length l =? 0)%nat then ignore_lines rest
      else
        match GoString.first l with
        | None => panic
        | Some c =>
            if Ascii.eqb c "#" then ignore_lines rest
            else if strings_ContainsAny l "*?[" then
              match glob_Compile l with
              | None =>
                  ret (Some (errors_Wrap (ErrGlobSyntax l) "invalid glob pattern"))
              | Some g =>
                  modify (fun ad =>
                    set_ignoreGlob (ignoreGlob ad ++ [compiledGlob g]) ad) ;;;
                  ignore_lines rest
              end
            else
              modify (fun ad =>
                set_ignoreGlob (ignoreGlob ad ++ [simpleGlob l]) ad) ;;;
              ignore_lines rest
        end
  end.

Definition buildIgnoreGlob_walkFn : WalkFunc :=
  fun path info err =>
    match err with
    | Some e => ret (Some (errors_Wrap e "walking ignore directory"))
    | None =>
        dir <- info_IsDir info ;;
        if dir then ret None
        else
          match fs_open fs path with
          | OpenFails e =>
              ret (Some (errors_Wrap (PathError "open" path e) "reading ignore file"))
          | Opened data rerr =>
              let (lines, scErr) := scan_file data rerr path in
              err <- ignore_lines lines ;;
              match err, scErr with
              | Some _, _ => ret err
              | None, Some e => ret (Some (errors_Wrap e "reading ignore file"))
              | None, None => ret None
              end
          end
    end.

(** [func (ad *DebDiff) buildIgnoreGlob() error]. *)
Definition buildIgnoreGlob : M (option error) :=
  ad <- get ;;
  err <- filepath_Walk buildIgnoreGlob_walkFn fs (IgnoreDir ad) ;;
  match err with
  | Some e => ret (Some (errors_Wrap e "walking ignore directory"))
  | None => ret None
  end.

Definition buildAllFile_walkFn : WalkFunc :=
  fun path info err =>
    match err with
    | Some e =>
        if os_IsPermission e then ret None
        else ret (Some (errors_Wrap e "walking all files"))
    | None =>
        ad <- get ;;
        if IsIgnored ad path then
          dir <- info_IsDir info ;;
          if dir then ret (Some SkipDir) else ret None
        else
          dir <- info_IsDir info ;;
          if dir then ret None
          else
            modify (fun ad => set_allFile (allFile ad ++ [path]) ad) ;;;
            ret None
    end.

(** [func (ad *DebDiff) buildAllFile() error]. *)
Definition buildAllFile : M (option error) :=
  ad <- get ;;
  err <- filepath_Walk buildAllFile_walkFn fs (Root ad) ;;
  match err with
  | Some e => ret (Some (errors_Wrap e "walking all files"))
  | None =>
      modify (fun ad => set_allFile (sort_Strings (allFile ad)) ad) ;;;
      ret None
  end.

Definition buildRepoFile_walkFn : WalkFunc :=
  fun path info err =>
    match err with
    | Some e => ret (Some (errors_Wrap e "walking repo files"))
    | None =>
        dir <- info_IsDir info ;;
        if dir then ret None
        else
          ad <- get ;;
          let name := strings_Replace1 path (Repo ad) "" in
          match GoString.first name with
          | None => panic
          | Some c =>
              let name := if negb (Ascii.eqb c "/") then ("/" ++ name)%string else name in
              modify (fun ad => set_repoFile (repoFile ad ++ [name]) ad) ;;;
              ret None
          end
    end.

(** [func (ad *DebDiff) buildRepoFile() error]. *)
Definition buildRepoFile : M (option error) :=
  ad <- get ;;
  err <- filepath_Walk buildRepoFile_walkFn fs (Repo ad) ;;
  match err with
  | Some e => ret (Some (errors_Wrap e "walking repo files"))
  | None =>
      modify (fun ad => set_repoFile (sort_Strings (repoFile ad)) ad) ;;;
      ret None
  end.

(** The loop [for _, list := range lists] of [buildPkgFile]. *)
Fixpoint buildPkgFile_range (lists : list string) : M (option error) :=
  match lists with
  | [] => ret None
  | list :: rest =>
      match fs_open fs list with
      | OpenFails e =>
          ret (Some (errors_Wrap (PathError "open" list e) "reading dpkg info file"))
      | Opened data rerr =>
          let (lines, scErr) := scan_file data rerr list in
          modify (fun ad => set_pkgFile (pkgFile ad ++ lines) ad) ;;;
          match scErr with
          | Some e => ret (Some (errors_Wrap e "reading dpkg info file"))
          | None => buildPkgFile_range rest
          end
      end
  end.

(** [func (ad *DebDiff) buildPkgFile() error]. *)
Definition buildPkgFile : M (option error) :=
  ad <- get ;;
  let info := filepath_Join (Root ad) "var/lib/dpkg/info" in
  match fs_glob fs (info ++ "/*.list")%string with
  | None => ret (Some (errors_Wrap ErrBadPattern "looking for dpkg info lists"))
  | Some lists =>
      match fs_glob fs (info ++ "/*.conffiles")%string with
      | None => ret (Some (errors_Wrap ErrBadPattern "looking for dpkg info lists"))
      | Some conffiles =>
          err <- buildPkgFile_range (lists ++ conffiles) ;;
          match err with
          | Some _ => ret err
          | None =>
              modify (fun ad => set_pkgFile (sort_Strings (pkgFile ad)) ad) ;;;
              ret None
          end
      end
  end.

(** The loop [for _, name := range ad.allFile] of [buildUnpackagedFile]. *)
Fixpoint buildUnpackagedFile_range (names : list string) : M unit :=
  match names with
  | [] => ret tt
  | name :: rest =>
      ad <- get ;;
      if contains (repoFile ad) name then buildUnpackagedFile_range rest
      else if contains (pkgFile ad) name then buildUnpackagedFile_range rest
      else
        modify (fun ad => set_unpackagedFile (unpackagedFile ad ++ [name]) ad) ;;;
        buildUnpackagedFile_range rest
  end.

(** [func (ad *DebDiff) buildUnpackagedFile() error]. *)
Definition buildUnpackagedFile : M (option error) :=
  ad <- get ;;
  buildUnpackagedFile_range (allFile ad) ;;;
  ret None.

(** [func filehash(path string) (string, error)]. *)
Definition filehash (path : string) : string * option error :=
  match fs_open fs path with
  | OpenFails e =>
      ("", Some (errors_Wrap (PathError "open" path e) "filehash open error"))
  | Opened _ (Some e) =>
      ("", Some (errors_Wrap (PathError "read" path e) "filehash copy error"))
  | Opened data None => (md5hex data, None)
  end.

(** [err != nil && !os.IsNotExist(...)], the guard of both error checks
    of [buildDiffRepoFile]; [seen] is what the check makes of the error
    before it asks the [os] predicates. *)
Definition is_failure (seen : error -> error) (err : option error) : bool :=
  match err with
  | Some e => negb (os_IsNotExist (seen e))
  | None => false
  end.

(** The loop [for _, file := range ad.repoFile] of [buildDiffRepoFile].
    The check of the root side asks [errors.Cause(err)], the check of the
    overlay side asks [err] itself. *)
Fixpoint buildDiffRepoFile_range (files : list string) : M (option error) :=
  match files with
  | [] => ret None
  | file :: rest =>
      ad <- get ;;
      let realpath := filepath_Join (Root ad) file in
      let repopath := filepath_Join (Repo ad) file in
      let (realhash, err) := filehash realpath in
      if is_failure errors_Cause err then
        match err with
        | Some e =>
            if os_IsPermission (errors_Cause e) then buildDiffRepoFile_range rest
            else ret err
        | None => ret err
        end
      else
        let (repohash, err) := filehash repopath in
        if is_failure (fun e => e) err then
          match err with
          | Some e =>
              if os_IsPermission e then buildDiffRepoFile_range rest
              else ret err
          | None => ret err
          end
        else if negb (String.eqb realhash repohash) then
          modify (fun ad => set_diffRepoFile (diffRepoFile ad ++ [file]) ad) ;;;
          buildDiffRepoFile_range rest
        else buildDiffRepoFile_range rest
  end.

(** [func (ad *DebDiff) buildDiffRepoFile() error]. *)
Definition buildDiffRepoFile : M (option error) :=
  ad <- get ;;
  buildDiffRepoFile_range (repoFile ad).

(** The loop [for _, step := range steps] of [Main]. *)
Fixpoint run_steps (steps : list (M (option error))) : M (option error) :=
  match steps with
  | [] => ret None
  | step :: rest =>
      err <- step ;;
      match err with
      | Some _ => ret err
      | None => run_steps rest
      end
  end.

(** [func Main() error], started on the [DebDiff] the flags were parsed
    into.  The result is the lines printed to the standard output and
    the error returned. *)
Definition Main : M (list string * option error) :=
  ad <- get ;;
  match (if String.eqb (CpuProfile ad) "" then None
         else fs_create fs (CpuProfile ad)) with
  | Some e =>
      ret ([], Some (errors_Wrap (PathError "open" (CpuProfile ad) e)
                       "error creating cpu profile"))
  | None =>
      err <- run_steps [buildIgnoreGlob; buildAllFile; buildRepoFile;
                        buildPkgFile; buildUnpackagedFile] ;;
      match err with
      | Some _ => ret ([], err)
      | None => ad <- get ;; ret (unpackagedFile ad, None)
      end
  end.

End Builders.

(** The [DebDiff] of [Main] after [flag.Parse()]. *)
Definition flags (silent : bool) (root repo ignore cpuprofile : string) : DebDiff :=
  {| Silent := silent; Root := root; Repo := repo; IgnoreDir := ignore;
     CpuProfile := cpuprofile; ignoreGlob := []; allFile := []; pkgFile := [];
     repoFile := []; unpackagedFile := []; diffRepoFile := [] |}.

(** The default values of the flags. *)
Definition default_flags : DebDiff := flags false "/" "/usr/share/debdiff" "" "".

(** ** Vocabulary of the statements *)

(** The order of Go strings. *)
Definition str_le (a b : string) : Prop := String.leb a b = true.

(** A slice in the order [sort.Strings] leaves it in. *)
Definition sorted (l : list string) : Prop := Sorted str_le l.

(** Sorted without repetition. *)
Definition sorted_dedup (l : list string) : Prop :=
  Sorted (fun a b => String.ltb a b = true) l.

(** Membership as a linear test, the reference for [contains]. *)
Definition inb (x : string) (l : list string) : bool :=
  existsb (String.eqb x) l.

(** The paths the pass keeps. *)
Definition unpackaged (repo pkg : list string) (name : string) : bool :=
  negb (inb name repo) && negb (inb name pkg).

(** The entries a walk of the filesystem inventory reaches: it starts at
    [path] on the node [n] and does not enter a directory whose path
    [ignored] holds of.  [live_file] are the entries that are not
    directories and not ignored themselves, with their kind;
    [live_error] are the errors [lstat] and the directory listing meet. *)
Inductive live_file (ignored : string -> bool)
  : string -> node -> string -> FileKind -> Prop :=
| live_file_here path k :
    ignored path = false ->
    live_file ignored path (File k) path k
| live_file_below path entries name child p k :
    ignored path = false ->
    In (name, child) entries ->
    live_file ignored (filepath_Join path name) child p k ->
    live_file ignored path (Dir entries) p k.

Inductive live_error (ignored : string -> bool)
  : string -> node -> error -> Prop :=
| live_error_lstat path e :
    live_error ignored path (NoStat e) (PathError "lstat" path e)
| live_error_readdir path e :
    live_error ignored path (DirUnreadable e) (PathError "open" path e)
| live_error_below path entries name child err :
    ignored path = false ->
    In (name, child) entries ->
    live_error ignored (filepath_Join path name) child err ->
    live_error ignored path (Dir entries) err.

(** What a walk of the filesystem inventory that started at [path] on [n]
    returned ([r]) and recorded ([files]): it ends without error when every
    error it met was a permission error, and then has recorded the live
    files; it ends with [SkipDir] on an ignored directory; or it ends with
    the first other error, wrapped. *)
Definition allFile_walked (ignored : string -> bool) (path : string) (n : node)
  (r : option error) (files : list string) : Prop :=
  match r with
  | None =>
      (forall p, In p files <-> exists k, live_file ignored path n p k)
      /\ (forall err, live_error ignored path n err -> os_IsPermission err = true)
  | Some SkipDir =>
      files = [] /\ ignored path = true /\ exists entries, n = Dir entries
  | Some (Wrapped err msg) =>
      msg = "walking all files"
      /\ live_error ignored path n err /\ os_IsPermission err = false
  | Some _ => False
  end.

(** The same for the loop over the entries of the directory [path]. *)
Definition allFile_ranged (ignored : string -> bool) (path : string)
  (entries : list (string * node)) (r : option error) (files : list string) : Prop :=
  match r with
  | None =>
      (forall p, In p files <->
         exists name child k,
           In (name, child) entries
           /\ live_file ignored (filepath_Join path name) child p k)
      /\ (forall name child err,
            In (name, child) entries ->
            live_error ignored (filepath_Join path name) child err ->
            os_IsPermission err = true)
  | Some (Wrapped err msg) =>
      msg = "walking all files"
      /\ (exists name child,
            In (name, child) entries
            /\ live_error ignored (filepath_Join path name) child err)
      /\ os_IsPermission err = false
  | Some _ => False
  end.

(** What a walk of the overlay inventory that started at [path] on [n]
    came to: it panicked, it ended without error, and then met no error of
    [lstat] or of a directory listing, or it ended with the first such
    error, wrapped.  No directory is passed over on this walk. *)
Definition repoFile_walked (path : string) (n : node)
  (o : outcome (option error)) : Prop :=
  match o with
  | Panics => True
  | Returns None _ => forall err, ~ live_error (fun _ => false) path n err
  | Returns (Some (Wrapped err msg)) _ =>
      msg = "walking repo files" /\ live_error (fun _ => false) path n err
  | Returns (Some _) _ => False
  end.

Definition repoFile_ranged (path : string) (entries : list (string * node))
  (o : outcome (option error)) : Prop :=
  match o with
  | Panics => True
  | Returns None _ =>
      forall name child err,
        In (name, child) entries ->
        ~ live_error (fun _ => false) (filepath_Join path name) child err
  | Returns (Some (Wrapped err msg)) _ =>
      msg = "walking repo files"
      /\ exists name child,
           In (name, child) entries
           /\ live_error (fun _ => false) (filepath_Join path name) child err
  | Returns (Some _) _ => False
  end.

(** The three inventories are the same in both states. *)
Definition keeps_inventories (ad ad' : DebDiff) : Prop :=
  allFile ad' = allFile ad /\ repoFile ad' = repoFile ad
  /\ pkgFile ad' = pkgFile ad.

(** The live files of a walk in the order in which the walk meets them:
    the list to the relation [live_file] (lemma [live_files_In]).  An entry
    that cannot be examined and a directory that cannot be listed
    contribute nothing, the entries next to them are not affected. *)
Fixpoint live_files (ignored : string -> bool) (path : string) (n : node)
  {struct n} : list string :=
  match n with
  | File _ => if ignored path then [] else [path]
  | Dir entries =>
      if ignored path then []
      else
        (fix range (names : list (string * node)) : list string :=
           match names with
           | [] => []
           | (name, child) :: rest =>
               live_files ignored (filepath_Join path name) child ++ range rest
           end) entries
  | DirUnreadable _ | NoStat _ => []
  end.

(** The same for the entries of the directory [path]. *)
Fixpoint live_files_range (ignored : string -> bool) (path : string)
  (names : list (string * node)) : list string :=
  match names with
  | [] => []
  | (name, child) :: rest =>
      live_files ignored (filepath_Join path name) child
      ++ live_files_range ignored path rest
  end.

(** The name under which the overlay walk records the file at [path]:
    the path with the first occurrence of the overlay path taken out, and
    a separator put in front when it does not begin with one. *)
Definition overlay_name (repo path : string) : string :=
  let name := strings_Replace1 path repo "" in
  match GoString.first name with
  | Some c => if negb (Ascii.eqb c "/") then ("/" ++ name)%string else name
  | None => name
  end.

(** The lines the scanner delivers for a manifest. *)
Definition manifest_lines (fs : FS) (manifest : string) : list string :=
  match fs_open fs manifest with
  | OpenFails _ => []
  | Opened data rerr => fst (scan_file data rerr manifest)
  end.

(** *** Trees as a file system has them *)

(** Whether a string holds the separator. *)
Fixpoint has_sep (s : string) : bool :=
  match s with
  | EmptyString => false
  | String c rest => Ascii.eqb c "/" || has_sep rest
  end.

(** The name of a directory entry: not empty, neither [.] nor [..], and
    without a separator. *)
Definition proper_name (s : string) : bool :=
  negb (String.eqb s "") && negb (String.eqb s ".") && negb (String.eqb s "..")
  && negb (has_sep s).

(** No string occurs twice. *)
Fixpoint distinct (l : list string) : bool :=
  match l with
  | [] => true
  | x :: rest => negb (inb x rest) && distinct rest
  end.

(** A tree in which the entries of every directory bear proper names, no
    two of them the same name. *)
Fixpoint proper_tree (n : node) : bool :=
  match n with
  | Dir entries =>
      forallb proper_name (map fst entries) && distinct (map fst entries)
      && (fix all (l : list (string * node)) : bool :=
            match l with
            | [] => true
            | (_, child) :: rest => proper_tree child && all rest
            end) entries
  | _ => true
  end.

(** *** Paths by their elements *)

(** Whether a path begins with the separator. *)
Definition is_rooted (path : string) : bool :=
  match path with
  | EmptyString => false
  | String c _ => Ascii.eqb c "/"
  end.

(** The elements [filepath.Clean] keeps of a path, the last one first. *)
Definition clean_elems (path : string) : list string :=
  match path with
  | EmptyString => []
  | String c _ => fold_left (clean_elem (Ascii.eqb c "/")) (split_sep path "") []
  end.

(** The path [filepath.Clean] writes for the elements [out]. *)
Definition clean_render (rooted : bool) (out : list string) : string :=
  let body := String.concat "/" (rev out) in
  if rooted then "/" ++ body
  else if String.eqb body "" then "." else body.

(** The elements of a path in clean form: proper names, below them in a
    path that is not rooted any number of [..]. *)
Fixpoint normal (rooted : bool) (out : list string) : Prop :=
  match out with
  | [] => True
  | e :: below =>
      normal rooted below
      /\ (proper_name e = true
          \/ (e = ".." /\ rooted = false /\ Forall (eq "..") below))
  end.

(** ** A small system *)

(** An installation root with a directory nobody may list and an entry
    nobody may examine, an overlay directory, and two ignore rules. *)
Definition sample_root : node :=
  Dir [("etc", Dir [("foo", Dir [("bar", File Regular)]);
                    ("foobar", File Regular);
                    ("mtab", File Symlink)]);
       ("lost+found", DirUnreadable EACCES);
       ("proc", NoStat EPERM);
       ("var", Dir [("log", Dir [("syslog", File Regular)])])].

Definition sample_repo : node :=
  Dir [("etc", Dir [("foobar", File Regular)]);
       ("private", DirUnreadable EACCES)].

Definition sample_fs : FS :=
  {| fs_tree := fun path =>
       if String.eqb path "/" then sample_root
       else if String.eqb path "/usr/share/debdiff" then sample_repo
       else NoStat ENOENT;
     fs_open := fun _ => OpenFails ENOENT;
     fs_glob := fun _ => Some [];
     fs_create := fun _ => None |}.

Definition sample_ad : DebDiff :=
  set_ignoreGlob [simpleGlob "/etc/foo"; simpleGlob "/var/log"] default_flags.

(** The text of a file whose lines are [ls], each ended by a newline. *)
Fixpoint unlines (ls : list string) : string :=
  match ls with
  | [] => EmptyString
  | l :: rest => (l ++ String newline (unlines rest))%string
  end.

(** A line as [unlines] takes it: no newline inside, no carriage return at
    its end, short enough for the scanner.  The empty line is one. *)
Definition plain_line (l : string) : Prop :=
  ~ In newline (list_ascii_of_string l)
  /\ dropCR l = l
  /\ String.length l < MaxScanTokenSize.

(** A package with a configuration file: the file is listed in both
    manifests of the package, and the file list ends with a blank line. *)
Definition dpkg_fs : FS :=
  {| fs_tree := fun _ => NoStat ENOENT;
     fs_open := fun path =>
       if String.eqb path "/var/lib/dpkg/info/a.list"
       then Opened (unlines ["/."; "/etc"; "/etc/a.conf"; ""]) None
       else if String.eqb path "/var/lib/dpkg/info/a.conffiles"
       then Opened (unlines ["/etc/a.conf"]) None
       else OpenFails ENOENT;
     fs_glob := fun pattern =>
       if String.eqb pattern "/var/lib/dpkg/info/*.list"
       then Some ["/var/lib/dpkg/info/a.list"]
       else if String.eqb pattern "/var/lib/dpkg/info/*.conffiles"
       then Some ["/var/lib/dpkg/info/a.conffiles"]
       else Some [];
     fs_create := fun _ => None |}.

(** A system whose overlay path names a file, not a directory. *)
Definition overlay_is_file_fs : FS :=
  {| fs_tree := fun path =>
       if String.eqb path "/usr/share/debdiff" then File Regular
       else NoStat ENOENT;
     fs_open := fun _ => OpenFails ENOENT;
     fs_glob := fun _ => Some [];
     fs_create := fun _ => None |}.

(** A system with the file [/a] under the root and a copy in the overlay
    directory that the caller may not read. *)
Definition unreadable_overlay_fs : FS :=
  {| fs_tree := fun _ => NoStat ENOENT;
     fs_open := fun path =>
       if String.eqb path "/a" then Opened "content" None
       else if String.eqb path "/usr/share/debdiff/a" then OpenFails EACCES
       else OpenFails ENOENT;
     fs_glob := fun _ => Some [];
     fs_create := fun _ => None |}.

(** A system with the file [/a] in the overlay directory and none of that
    name under the root. *)
Definition missing_root_fs : FS :=
  {| fs_tree := fun _ => NoStat ENOENT;
     fs_open := fun path =>
       if String.eqb path "/usr/share/debdiff/a" then Opened "content" None
       else OpenFails ENOENT;
     fs_glob := fun _ => Some [];
     fs_create := fun _ => None |}.

(** A system with the file [/a] under the root that the caller may not
    read. *)
Definition unreadable_root_fs : FS :=
  {| fs_tree := fun _ => NoStat ENOENT;
     fs_open := fun path =>
       if String.eqb path "/a" then OpenFails EACCES
       else if String.eqb path "/usr/share/debdiff/a" then Opened "content" None
       else OpenFails ENOENT;
     fs_glob := fun _ => Some [];
     fs_create := fun _ => None |}.

(** A host: an installation root with an ignore directory, an overlay
    directory and the manifest of one package in it. *)
Definition host_root : node :=
  Dir [("etc", Dir [("foo", Dir [("bar", File Regular)]);
                    ("foobar", File Regular);
                    ("hosts", File Regular);
                    ("mtab", File Symlink)]);
       ("ign", Dir [("base", File Regular)]);
       ("unmanaged", File Regular);
       ("usr", Dir [("share", Dir [("debdiff",
                      Dir [("etc", Dir [("foobar", File Regular)])])])]);
       ("var", Dir [("lib", Dir [("dpkg", Dir [("info",
                      Dir [("a.list", File Regular)])])]);
                    ("log", Dir [("syslog", File Regular)])])].

Definition host_fs : FS :=
  {| fs_tree := fun path =>
       if String.eqb path "/" then host_root
       else if String.eqb path "/ign" then Dir [("base", File Regular)]
       else if String.eqb path "/usr/share/debdiff"
       then Dir [("etc", Dir [("foobar", File Regular)])]
       else NoStat ENOENT;
     fs_open := fun path =>
       if String.eqb path "/ign/base"
       then Opened (unlines ["# rules of the host"; ""; "/etc/foo"; "/ign";
                             "/usr"; "/var"]) None
       else if String.eqb path "/var/lib/dpkg/info/a.list"
       then Opened (unlines ["/."; "/etc"; "/etc/hosts"; "/etc/mtab"]) None
       else if String.eqb path "/etc/foobar" then Opened "local" None
       else if String.eqb path "/usr/share/debdiff/etc/foobar"
       then Opened "reference" None
       else OpenFails ENOENT;
     fs_glob := fun pattern =>
       if String.eqb pattern "/var/lib/dpkg/info/*.list"
       then Some ["/var/lib/dpkg/info/a.list"]
       else Some [];
     fs_create := fun _ => None |}.

Definition host_flags : DebDiff := flags false "/" "/usr/share/debdiff" "/ign" "".

(** A name that begins with the separator. *)
Definition rooted (name : string) : Prop := GoString.first name = Some "/"%char.

(** The host after a run of [Main]. *)
Definition host_after : DebDiff :=
  set_unpackagedFile ["/unmanaged"]
    (set_pkgFile ["/."; "/etc"; "/etc/hosts"; "/etc/mtab"]
       (set_repoFile ["/etc/foobar"]
          (set_allFile ["/etc/foobar"; "/etc/hosts"; "/etc/mtab"; "/unmanaged"]
             (set_ignoreGlob [simpleGlob "/etc/foo"; simpleGlob "/ign";
                              simpleGlob "/usr"; simpleGlob "/var"]
                host_flags)))).

(** An installation root with an entry whose [lstat] fails with an error
    that is no permission error. *)
Definition io_error_root : node :=
  Dir [("etc", Dir [("hosts", File Regular)]);
       ("mnt", NoStat EIO);
       ("var", Dir [("log", Dir [("syslog", File Regular)])])].

Definition io_error_fs : FS :=
  {| fs_tree := fun path =>
       if String.eqb path "/" then io_error_root else NoStat ENOENT;
     fs_open := fun _ => OpenFails ENOENT;
     fs_glob := fun _ => Some [];
     fs_create := fun _ => None |}.

(** The current directory as the overlay directory, with two files whose
    names differ in a dot. *)
Definition dot_overlay_fs : FS :=
  {| fs_tree := fun path =>
       if String.eqb path "."
       then Dir [("a.b", File Regular); ("ab", File Regular)]
       else NoStat ENOENT;
     fs_open := fun _ => OpenFails ENOENT;
     fs_glob := fun _ => Some [];
     fs_create := fun _ => None |}.

Definition dot_overlay_flags : DebDiff := flags false "/" "." "" "".

(** ** The package [alternatives] *)

Module alternatives.

(** A call returns, or the program panics. *)
Inductive result (A : Type) :=
| Ret (a : A)
| Panic.
Arguments Ret {A} a.
Arguments Panic {A}.

(** [map[string]string]: the keys in the order they were first set, each
    once. *)
Definition smap : Type := list (string * string).

(** [m[k] = v]. *)
Fixpoint map_set (k v : string) (m : smap) : smap :=
  match m with
  | [] => [(k, v)]
  | (k', v') :: rest =>
      if String.eqb k' k then (k, v) :: rest else (k', v') :: map_set k v rest
  end.

(** [m[k]] with its presence flag. *)
Fixpoint map_get (k : string) (m : smap) : option string :=
  match m with
  | [] => None
  | (k', v') :: rest => if String.eqb k' k then Some v' else map_get k rest
  end.

(** [type QueryResultAlternative struct]; its field [Slaves] is
    [AlternativeSlaves] here, [None] being the nil map. *)
Record QueryResultAlternative := {
  Alternative : string;
  Priority : string;
  AlternativeSlaves : option smap
}.

(** [type QueryResult struct]. *)
Record QueryResult := {
  Name : string;
  Link : string;
  Slaves : option smap;
  Status : string;
  Best : string;
  Value : string;
  Alternatives : list QueryResultAlternative
}.

(** The zero values [QueryResultAlternative{}] and [QueryResult{}]. *)
Definition zero_alternative : QueryResultAlternative :=
  {| Alternative := ""; Priority := ""; AlternativeSlaves := None |}.

Definition zero_result : QueryResult :=
  {| Name := ""; Link := ""; Slaves := None; Status := ""; Best := "";
     Value := ""; Alternatives := [] |}.

(** The errors of the package: [errors.Errorf] of the two parsers, the
    error of the command, and [errors.Wrapf] of [Query]. *)
Inductive perror :=
| ErrQueryResult (data : string)        (* "error parsing query result: %q" *)
| ErrQueryAlternative (data : string)   (* "error parsing query alternative: %q" *)
| ErrScanner (err : error)              (* sc.Err() *)
| ErrCommand                            (* the error of exec.Cmd.CombinedOutput *)
| Wrapf (cause : perror) (msg name : string).

(** [data[len(prefix):]]. *)
Definition after (pre data : string) : string :=
  String.substring (String.length pre) (String.length data - String.length pre) data.

(** [bytes.SplitN(s, []byte(" "), 2)]: [s] itself when it holds no space,
    else what stands before the first space and what stands after it. *)
Definition bytes_SplitN2 (s : string) : list string :=
  match String.index 0 " " s with
  | None => [s]
  | Some i =>
      [String.substring 0 i s;
       String.substring (i + 1) (String.length s - (i + 1)) s]
  end.

(** The loop of [parseSlaves] on the lines the scanner still holds and the
    map [slaves]: the lines left, the map, and [*pending].  [res[1]] panics
    when the line holds no second field.  At the end of the input
    [*pending] is nil, of which the callers ask its length and its
    prefixes only, as of the empty line. *)
Fixpoint parseSlaves_range (lines : list string) (slaves : smap)
  : result (list string * smap * string) :=
  match lines with
  | [] => Ret ([], slaves, "")
  | data :: rest =>
      if GoString.HasPrefix data " " then
        match bytes_SplitN2 (after " " data) with
        | [name; path] => parseSlaves_range rest (map_set name path slaves)
        | _ => Panic
        end
      else Ret (rest, slaves, data)
  end.

(** [func parseSlaves(sc, target, pending) error]: it makes the map when
    [*target] is nil and always returns nil. *)
Definition parseSlaves (lines : list string) (target : option smap)
  : result (list string * option smap * string) :=
  let slaves := match target with Some m => m | None => [] end in
  match parseSlaves_range lines slaves with
  | Ret (rest, slaves', pending) => Ret (rest, Some slaves', pending)
  | Panic => Panic
  end.

(** The head of the body of both parse loops:
    [data := sc.Bytes(); if bytes.Equal(data, exactSlaves) { parseSlaves(sc, target, &data) }]. *)
Definition scan_data (data : string) (rest : list string) (target : option smap)
  : result (list string * option smap * string) :=
  if String.eqb data "Slaves:" then parseSlaves rest target
  else Ret (rest, target, data).

Lemma parseSlaves_range_length (lines : list string) :
  forall slaves rest slaves' pending,
    parseSlaves_range lines slaves = Ret (rest, slaves', pending) ->
    length rest <= length lines.
Proof.
  induction lines as [|data lines IH]; intros slaves rest slaves' pending H.
  - injection H as <- _ _. apply le_n.
  - cbn [parseSlaves_range] in H.
    destruct (GoString.HasPrefix data " ").
    + destruct (bytes_SplitN2 (after " " data)) as [|name [|path [|]]];
        try discriminate.
      apply IH in H. simpl. lia.
    + injection H as <- _ _. simpl. lia.
Qed.

Lemma scan_data_length (data : string) (rest : list string)
  (target : option smap) (rest' : list string) (target' : option smap)
  (pending : string) :
  scan_data data rest target = Ret (rest', target', pending) ->
  length rest' <= length rest.
Proof.
  unfold scan_data, parseSlaves. destruct (String.eqb data "Slaves:").
  - destruct (parseSlaves_range rest _) as [[[r s] p]|] eqn:H; [|discriminate].
    intros Heq. injection Heq as <- _ _. eapply parseSlaves_range_length; eauto.
  - intros Heq. injection Heq as <- _ _. apply le_n.
Qed.

(** A value together with the equation that it is the value. *)
Definition inspect {A : Type} (x : A) : {y : A | x = y} := exist _ x eq_refl.

(** The switch of [parseQueryResultAlternatives]: the alternatives and the
    alternative being read after the line [data], or the error returned. *)
Definition alternative_case (data : string)
  (alts : list QueryResultAlternative) (alt : QueryResultAlternative)
  : (list QueryResultAlternative * QueryResultAlternative) + perror :=
  if (String.length data =? 0)%nat then inl (alts ++ [alt], zero_alternative)
  else if GoString.HasPrefix data "Alternative: " then
    inl (alts, {| Alternative := after "Alternative: " data;
                  Priority := Priority alt;
                  AlternativeSlaves := AlternativeSlaves alt |})
  else if GoString.HasPrefix data "Priority: " then
    inl (alts, {| Alternative := Alternative alt;
                  Priority := after "Priority: " data;
                  AlternativeSlaves := AlternativeSlaves alt |})
  else inr (ErrQueryAlternative data).

Definition set_AlternativeSlaves (slaves : option smap)
  (alt : QueryResultAlternative) : QueryResultAlternative :=
  {| Alternative := Alternative alt; Priority := Priority alt;
     AlternativeSlaves := slaves |}.

(** The loop of [parseQueryResultAlternatives], on the lines left, the
    alternatives appended so far and the alternative [alt] being read. *)
Equations? parseQueryResultAlternatives_range (lines : list string)
  (alts : list QueryResultAlternative) (alt : QueryResultAlternative)
  : result (list QueryResultAlternative * option perror)
  by wf (length lines) lt :=
parseQueryResultAlternatives_range [] alts alt := Ret (alts, None);
parseQueryResultAlternatives_range (data :: rest) alts alt
  with inspect (scan_data data rest (AlternativeSlaves alt)) := {
  | exist _ Panic _ => Panic
  | exist _ (Ret (rest', slaves, pending)) Hscan
    with alternative_case pending alts (set_AlternativeSlaves slaves alt) := {
    | inl (alts', alt') => parseQueryResultAlternatives_range rest' alts' alt'
    | inr err => Ret (alts, Some err) } }.
Proof.
  apply scan_data_length in Hscan. simpl. lia.
Qed.

Definition set_Alternatives (alts : list QueryResultAlternative)
  (qr : QueryResult) : QueryResult :=
  {| Name := Name qr; Link := Link qr; Slaves := Slaves qr; Status := Status qr;
     Best := Best qr; Value := Value qr; Alternatives := alts |}.

Definition set_Slaves (slaves : option smap) (qr : QueryResult) : QueryResult :=
  {| Name := Name qr; Link := Link qr; Slaves := slaves; Status := Status qr;
     Best := Best qr; Value := Value qr; Alternatives := Alternatives qr |}.

(** [func parseQueryResultAlternatives(sc, qr) error]. *)
Definition parseQueryResultAlternatives (lines : list string) (qr : QueryResult)
  : result (QueryResult * option perror) :=
  match parseQueryResultAlternatives_range lines (Alternatives qr) zero_alternative with
  | Ret (alts, err) => Ret (set_Alternatives alts qr, err)
  | Panic => Panic
  end.

(** What the switch of [parseQueryResult] does with the line [data]. *)
Inductive result_case :=
| Field (qr : QueryResult)     (* a field was set, the loop goes on *)
| Blank                        (* return parseQueryResultAlternatives(sc, qr) *)
| Unknown (err : perror).      (* return errors.Errorf(...) *)

Definition query_case (data : string) (qr : QueryResult) : result_case :=
  if (String.length data =? 0)%nat then Blank
  else if GoString.HasPrefix data "Name: " then
    Field {| Name := after "Name: " data; Link := Link qr; Slaves := Slaves qr;
             Status := Status qr; Best := Best qr; Value := Value qr;
             Alternatives := Alternatives qr |}
  else if GoString.HasPrefix data "Link: " then
    Field {| Name := Name qr; Link := after "Link: " data; Slaves := Slaves qr;
             Status := Status qr; Best := Best qr; Value := Value qr;
             Alternatives := Alternatives qr |}
  else if GoString.HasPrefix data "Status: " then
    Field {| Name := Name qr; Link := Link qr; Slaves := Slaves qr;
             Status := after "Status: " data; Best := Best qr; Value := Value qr;
             Alternatives := Alternatives qr |}
  else if GoString.HasPrefix data "Best: " then
    Field {| Name := Name qr; Link := Link qr; Slaves := Slaves qr;
             Status := Status qr; Best := after "Best: " data; Value := Value qr;
             Alternatives := Alternatives qr |}
  else if GoString.HasPrefix data "Value: " then
    Field {| Name := Name qr; Link := Link qr; Slaves := Slaves qr;
             Status := Status qr; Best := Best qr; Value := after "Value: " data;
             Alternatives := Alternatives qr |}
  else Unknown (ErrQueryResult data).

(** [func parseQueryResult(sc, qr) error], on the lines the scanner holds:
    the result as the parser leaves it and the error returned. *)
Equations? parseQueryResult (lines : list string) (qr : QueryResult)
  : result (QueryResult * option perror) by wf (length lines) lt :=
parseQueryResult [] qr := Ret (qr, None);
parseQueryResult (data :: rest) qr
  with inspect (scan_data data rest (Slaves qr)) := {
  | exist _ Panic _ => Panic
  | exist _ (Ret (rest', slaves, pending)) Hscan
    with query_case pending (set_Slaves slaves qr) := {
    | Field qr' => parseQueryResult rest' qr'
    | Blank => parseQueryResultAlternatives rest' (set_Slaves slaves qr)
    | Unknown err => Ret (set_Slaves slaves qr, Some err) } }.
Proof.
  apply scan_data_length in Hscan. simpl. lia.
Qed.

(** [func Query(name string) (QueryResult, error)] on what the command
    printed, or [None] when running it failed. *)
Definition Query (name : string) (output : option string)
  : result (QueryResult * option perror) :=
  match output with
  | None => Ret (zero_result, Some (Wrapf ErrCommand "error querying for %q" name))
  | Some out =>
      let (lines, scErr) := scan_lines out "" in
      match parseQueryResult lines zero_result with
      | Panic => Panic
      | Ret (qr, Some err) =>
          Ret (zero_result,
               Some (Wrapf err "error parsing query result for %q" name))
      | Ret (qr, None) =>
          match scErr with
          | Some e =>
              Ret (zero_result,
                   Some (Wrapf (ErrScanner e) "error parsing query result for %q" name))
          | None => Ret (qr, None)
          end
      end
  end.

(** [bytes.Split(s, []byte("\n"))]. *)
Fixpoint bytes_Split_newline (s cur : string) : list string :=
  match s with
  | EmptyString => [cur]
  | String c rest =>
      if Ascii.eqb c newline then cur :: bytes_Split_newline rest EmptyString
      else bytes_Split_newline rest (cur ++ String c EmptyString)
  end.

(** The loop of [GetSelections]:
    [res = append(res, string(line[:bytes.IndexRune(line, ' ')]))]; the
    slice expression panics when the line holds no space. *)
Fixpoint GetSelections_range (lines : list string) : result (list string) :=
  match lines with
  | [] => Ret []
  | line :: rest =>
      match String.index 0 " " line with
      | None => Panic
      | Some i =>
          match GetSelections_range rest with
          | Ret res => Ret (String.substring 0 i line :: res)
          | Panic => Panic
          end
      end
  end.

(** [func GetSelections() ([]string, error)] on [bytes.TrimSpace(out)],
    [out] being what the command printed. *)
Definition GetSelections (trimmed : string) : result (list string) :=
  GetSelections_range (bytes_Split_newline trimmed "").

(** *** The text of a query *)

(** The line of a slave: a space, its name, a space, its path. *)
Definition slave_line (entry : string * string) : string :=
  (" " ++ fst entry ++ " " ++ snd entry)%string.

Definition render_slaves (slaves : option smap) : list string :=
  match slaves with
  | None => []
  | Some m => "Slaves:" :: map slave_line m
  end.

(** The block of an alternative, with the blank line that ends it. *)
Definition render_alternative (alt : QueryResultAlternative) : list string :=
  [("Alternative: " ++ Alternative alt)%string;
   ("Priority: " ++ Priority alt)%string]
  ++ render_slaves (AlternativeSlaves alt) ++ [""].

(** A query text in which a blank line ends the block of every
    alternative, the last one as well. *)
Definition render (qr : QueryResult) : list string :=
  [("Name: " ++ Name qr)%string; ("Link: " ++ Link qr)%string]
  ++ render_slaves (Slaves qr)
  ++ [("Status: " ++ Status qr)%string; ("Best: " ++ Best qr)%string;
      ("Value: " ++ Value qr)%string; ""]
  ++ concat (map render_alternative (Alternatives qr)).

(** The lines of an alternative: its path, its priority and its slaves. *)
Definition alternative_block (alt : QueryResultAlternative) : list string :=
  [("Alternative: " ++ Alternative alt)%string;
   ("Priority: " ++ Priority alt)%string]
  ++ render_slaves (AlternativeSlaves alt).

(** The lines of the group itself. *)
Definition query_header (qr : QueryResult) : list string :=
  [("Name: " ++ Name qr)%string; ("Link: " ++ Link qr)%string]
  ++ render_slaves (Slaves qr)
  ++ [("Status: " ++ Status qr)%string; ("Best: " ++ Best qr)%string;
      ("Value: " ++ Value qr)%string].

(** The lines [update-alternatives --query] prints for a group: a blank
    line goes before the block of every alternative, none follows the last
    block. *)
Definition query_text (qr : QueryResult) : list string :=
  query_header qr
  ++ concat (map (fun alt => "" :: alternative_block alt) (Alternatives qr)).

(** The group [pager], which has no slaves, with two alternatives. *)
Definition pager : QueryResult :=
  {| Name := "pager";
     Link := "/usr/bin/pager";
     Slaves := None;
     Status := "auto";
     Best := "/bin/less";
     Value := "/bin/less";
     Alternatives :=
       [{| Alternative := "/bin/less"; Priority := "77";
           AlternativeSlaves := None |};
        {| Alternative := "/bin/more"; Priority := "50";
           AlternativeSlaves := None |}] |}.

(** A map as [render_slaves] can print it and the parser read it back:
    no name holds a space, no name occurs twice. *)
Definition plain_map (m : smap) : Prop :=
  Forall (fun entry => String.index 0 " " (fst entry) = None) m
  /\ NoDup (map fst m).

Definition plain_slaves (slaves : option smap) : Prop :=
  match slaves with
  | None => True
  | Some m => plain_map m
  end.

Definition plain_result (qr : QueryResult) : Prop :=
  plain_slaves (Slaves qr)
  /\ Forall (fun alt => plain_slaves (AlternativeSlaves alt)) (Alternatives qr).

(** The map after the entries have been set one after the other. *)
Definition set_all (entries : list (string * string)) (m : smap) : smap :=
  fold_left (fun m entry => map_set (fst entry) (snd entry) m) entries m.

(** The group [editor] with two alternatives. *)
Definition editor : QueryResult :=
  {| Name := "editor";
     Link := "/usr/bin/editor";
     Slaves := Some [("editor.1.gz", "/usr/share/man/man1/editor.1.gz")];
     Status := "auto";
     Best := "/bin/nano";
     Value := "/bin/nano";
     Alternatives :=
       [{| Alternative := "/bin/ed"; Priority := "-100";
           AlternativeSlaves :=
             Some [("editor.1.gz", "/usr/share/man/man1/ed.1.gz")] |};
        {| Alternative := "/bin/nano"; Priority := "40";
           AlternativeSlaves := None |}] |}.

End alternatives.

(** ** Vocabulary for the package [alternatives] *)

(** A string without a newline. *)
Definition no_newline (l : string) : Prop :=
  ~ In newline (list_ascii_of_string l).

(** Lines joined by newlines, as [bytes.TrimSpace] leaves the output of
    a command. *)
Fixpoint join_lines (ls : list string) : string :=
  match ls with
  | [] => EmptyString
  | [l] => l
  | l :: rest => (l ++ String newline (join_lines rest))%string
  end.

(** A line of [update-alternatives --get-selections]: the name of the
    group, a space, and the rest (its status and its value). *)
Definition selection_line (entry : string * string) : string :=
  (fst entry ++ " " ++ snd entry)%string.

(** * Properties *)

(** ** The order on strings *)

Lemma ascii_compare_refl (c : ascii) : Ascii.compare c c = Eq.
Proof. unfold Ascii.compare. apply N.compare_refl. Qed.

Lemma string_compare_refl (s : string) : String.compare s s = Eq.
Proof.
  induction s as [|c s IH]; simpl; [reflexivity|].
  now rewrite ascii_compare_refl.
Qed.

Lemma ascii_compare_lt_trans (a b c : ascii) :
  Ascii.compare a b = Lt -> Ascii.compare b c = Lt -> Ascii.compare a c = Lt.
Proof.
  unfold Ascii.compare. rewrite !N.compare_lt_iff. apply N.lt_trans.
Qed.

Lemma string_compare_lt_trans (a b c : string) :
  String.compare a b = Lt -> String.compare b c = Lt -> String.compare a c = Lt.
Proof.
  revert b c.
  induction a as [|x a IH]; intros [|y b] [|z c]; simpl; try congruence.
  destruct (Ascii.compare x y) eqn:Hxy; try discriminate.
  - apply Ascii.compare_eq_iff in Hxy. subst y.
    destruct (Ascii.compare x z); try congruence. apply IH.
  - destruct (Ascii.compare y z) eqn:Hyz; try discriminate.
    + apply Ascii.compare_eq_iff in Hyz. subst z. now rewrite Hxy.
    + now rewrite (ascii_compare_lt_trans _ _ _ Hxy Hyz).
Qed.

Lemma str_le_cases (a b : string) : str_le a b <-> a = b \/ String.compare a b = Lt.
Proof.
  unfold str_le, String.leb. split.
  - destruct (String.compare a b) eqn:H; try discriminate.
    + left. now apply String.compare_eq_iff.
    + now right.
  - intros [-> | ->]; [now rewrite string_compare_refl | reflexivity].
Qed.

Lemma str_le_refl (a : string) : str_le a a.
Proof. apply str_le_cases. now left. Qed.

Lemma str_le_trans (a b c : string) : str_le a b -> str_le b c -> str_le a c.
Proof.
  rewrite !str_le_cases. intros [-> | Hab] [-> | Hbc]; auto.
  right. eapply string_compare_lt_trans; eassumption.
Qed.

Lemma str_le_antisym (a b : string) : str_le a b -> str_le b a -> a = b.
Proof. apply String.leb_antisym. Qed.

Lemma str_le_total (a b : string) : str_le a b \/ str_le b a.
Proof. apply String.leb_total. Qed.

#[local] Instance str_le_Transitive : Transitive str_le.
Proof. exact str_le_trans. Qed.

Lemma geb_le (a x : string) : GoString.geb a x = true <-> str_le x a.
Proof.
  unfold GoString.geb, String.ltb, str_le, String.leb.
  rewrite (String.compare_antisym a x).
  destruct (String.compare x a); simpl; split; congruence.
Qed.

Lemma ltb_le (a b : string) : String.ltb a b = true -> str_le a b.
Proof.
  unfold String.ltb, str_le, String.leb. now destruct (String.compare a b).
Qed.

Lemma sorted_dedup_sorted (l : list string) : sorted_dedup l -> sorted l.
Proof.
  unfold sorted_dedup, sorted. induction 1 as [|a l Hs IH Hd]; constructor; auto.
  destruct Hd; constructor. now apply ltb_le.
Qed.

(** In a sorted slice the elements grow with the index. *)
Lemma sorted_nth (l : list string) :
  sorted l ->
  forall k m, k <= m -> m < length l -> str_le (nth k l "") (nth m l "").
Proof.
  intros Hs. apply Sorted_StronglySorted in Hs; [|exact str_le_Transitive].
  induction Hs as [|a l Hs IH Hall]; intros k m Hkm Hm; simpl in Hm; [lia|].
  destruct k as [|k], m as [|m]; simpl; try lia.
  - apply str_le_refl.
  - rewrite Forall_forall in Hall. apply Hall, nth_In. lia.
  - apply IH; lia.
Qed.

(** ** Binary search *)

Lemma Search_loop_body (f : nat -> bool) (i j : nat) :
  Search_loop f i j =
  if lt_dec i j then
    if f ((i + j) / 2) then Search_loop f i ((i + j) / 2)
    else Search_loop f ((i + j) / 2 + 1) j
  else i.
Proof.
  rewrite (Search_loop_equation_1 f i j).
  destruct (lt_dec i j); simpl; [|reflexivity].
  change (fst (Nat.divmod (i + j) 1 0 1)) with ((i + j) / 2).
  destruct (f ((i + j) / 2)); reflexivity.
Qed.

Lemma half_between (i j : nat) : i < j -> i <= (i + j) / 2 < j.
Proof.
  intros H. split.
  - apply Nat.div_le_lower_bound; lia.
  - apply Nat.Div0.div_lt_upper_bound; lia.
Qed.

(** The loop keeps its invariant [f(i-1) == false, f(j) == true] and ends
    with [i == j]: on a predicate that is monotone below [n] the result
    is the least index at which it holds, or [n]. *)
Lemma Search_loop_spec (f : nat -> bool) (n : nat) :
  (forall k m, k <= m -> m < n -> f k = true -> f m = true) ->
  forall d i j, j - i <= d -> i <= j -> j <= n ->
  (forall k, k < i -> f k = false) ->
  (forall k, j <= k -> k < n -> f k = true) ->
  i <= Search_loop f i j <= j
  /\ (forall k, k < Search_loop f i j -> f k = false)
  /\ (forall k, Search_loop f i j <= k -> k < n -> f k = true).
Proof.
  intros Hmono. induction d as [|d IH]; intros i j Hd Hij Hjn Hlo Hhi;
    rewrite Search_loop_body; destruct (lt_dec i j) as [Hlt|Hge];
    try (assert (i = j) by lia; subst j; repeat split; auto; lia).
  pose proof (half_between i j Hlt) as Hh.
  destruct (f ((i + j) / 2)) eqn:Hf.
  - destruct (IH i ((i + j) / 2)) as (Hr & Hfalse & Htrue); try lia; auto.
    { intros k Hk Hkn. apply (Hmono ((i + j) / 2)); auto. }
    repeat split; auto; lia.
  - destruct (IH ((i + j) / 2 + 1) j) as (Hr & Hfalse & Htrue); try lia; auto.
    { intros k Hk. destruct (f k) eqn:Hfk; [|reflexivity].
      rewrite (Hmono k ((i + j) / 2)) in Hf; [discriminate|lia|lia|exact Hfk]. }
    repeat split; auto; lia.
Qed.

(** The loop looks at [f] between [i] and [j] only. *)
Lemma Search_loop_ext (f g : nat -> bool) :
  forall d i j, j - i <= d ->
  (forall k, i <= k -> k < j -> f k = g k) ->
  Search_loop f i j = Search_loop g i j.
Proof.
  induction d as [|d IH]; intros i j Hd Hfg;
    rewrite (Search_loop_body f), (Search_loop_body g);
    destruct (lt_dec i j) as [Hlt|Hge]; try reflexivity; try lia.
  pose proof (half_between i j Hlt) as Hh.
  rewrite <- (Hfg ((i + j) / 2)) by lia.
  destruct (f ((i + j) / 2)); apply IH; try lia; intros; apply Hfg; lia.
Qed.

Lemma SearchStrings_spec (a : list string) (x : string) :
  sorted a ->
  SearchStrings a x <= length a
  /\ (forall k, k < SearchStrings a x -> GoString.geb (nth k a "") x = false)
  /\ (forall k, SearchStrings a x <= k -> k < length a ->
        GoString.geb (nth k a "") x = true).
Proof.
  intros Hs. unfold SearchStrings, Search.
  destruct (Search_loop_spec (fun i => GoString.geb (nth i a "") x) (length a))
    with (d := length a) (i := 0) (j := length a) as (Hr & Hfalse & Htrue);
    try lia.
  - intros k m Hkm Hm. rewrite !geb_le. intros Hx.
    eapply str_le_trans; [exact Hx|]. now apply sorted_nth.
  - repeat split; auto. lia.
Qed.

(** On a sorted slice [contains] is membership. *)
Lemma contains_In (a : list string) (x : string) :
  sorted a -> (contains a x = true <-> In x a).
Proof.
  intros Hs. destruct (SearchStrings_spec a x Hs) as (Hr & Hfalse & Htrue).
  unfold contains. split.
  - destruct (Nat.eqb_spec (SearchStrings a x) (length a)) as [|Hne];
      [discriminate|].
    intros H. apply String.eqb_eq in H.
    assert (Hlt : SearchStrings a x < length a) by lia.
    pose proof (nth_In a "" Hlt) as Hin. now rewrite H in Hin.
  - intros Hin. destruct (In_nth a x "" Hin) as (k & Hk & Hnth).
    assert (Hrk : SearchStrings a x <= k).
    { destruct (le_lt_dec (SearchStrings a x) k) as [|Hlt]; [assumption|].
      specialize (Hfalse k Hlt). rewrite Hnth in Hfalse.
      assert (GoString.geb x x = true) by (apply geb_le, str_le_refl).
      congruence. }
    destruct (Nat.eqb_spec (SearchStrings a x) (length a)); [lia|].
    apply String.eqb_eq. apply str_le_antisym.
    + pose proof (sorted_nth a Hs (SearchStrings a x) k Hrk Hk) as Hle.
      now rewrite Hnth in Hle.
    + apply geb_le, Htrue; lia.
Qed.

Lemma linear_contains_In (a : list string) (x : string) :
  linear_contains a x = true <-> In x a.
Proof.
  induction a as [|y a IH]; simpl; [split; [discriminate|tauto]|].
  destruct (String.eqb_spec y x); [tauto|]. rewrite IH. tauto.
Qed.

(** ** The literal rule *)

Lemma string_app_assoc (a b c : string) :
  ((a ++ b) ++ c = a ++ (b ++ c))%string.
Proof. induction a as [|x a IH]; simpl; [reflexivity|now rewrite IH]. Qed.

Lemma substring_prefix_cons (c : ascii) (n : nat) (s : string) :
  String.substring 0 (S n) (String c s) = String c (String.substring 0 n s).
Proof. reflexivity. Qed.

Lemma HasPrefix_iff (s pre : string) :
  GoString.HasPrefix s pre = true <-> exists rest, s = (pre ++ rest)%string.
Proof.
  unfold GoString.HasPrefix. revert s.
  induction pre as [|c pre IH]; intros s.
  - simpl. split; [exists s; reflexivity|intros _].
    now destruct s.
  - destruct s as [|d s].
    + simpl. split; [discriminate|intros (rest & H); discriminate].
    + cbn [String.length Nat.leb]. rewrite substring_prefix_cons.
      cbn [String.eqb]. destruct (Ascii.eqb_spec d c) as [->|Hdc].
      * rewrite IH. split; intros (rest & H); exists rest; simpl.
        -- now rewrite H.
        -- simpl in H. now injection H.
      * rewrite andb_false_r. split; [discriminate|].
        intros (rest & H). simpl in H. injection H as H1 _. contradiction.
Qed.

(** ** The set-difference pass *)

Lemma inb_In (x : string) (l : list string) : inb x l = true <-> In x l.
Proof.
  unfold inb. rewrite existsb_exists. split.
  - intros (y & Hy & Heq). apply String.eqb_eq in Heq. now subst.
  - intros H. exists x. split; [assumption|apply String.eqb_refl].
Qed.

Lemma contains_inb (a : list string) (x : string) :
  sorted a -> contains a x = inb x a.
Proof.
  intros Hs. apply eq_true_iff_eq. rewrite (contains_In a x Hs). symmetry.
  apply inb_In.
Qed.

Lemma set_unpackagedFile_same (ad : DebDiff) :
  set_unpackagedFile (unpackagedFile ad) ad = ad.
Proof. now destruct ad. Qed.

Lemma buildUnpackagedFile_range_spec (names : list string) :
  forall ad,
  sorted (repoFile ad) -> sorted (pkgFile ad) ->
  buildUnpackagedFile_range names ad =
  Returns tt
    (set_unpackagedFile
       (unpackagedFile ad
        ++ filter (unpackaged (repoFile ad) (pkgFile ad)) names) ad).
Proof.
  induction names as [|name rest IH]; intros ad Hrepo Hpkg.
  - simpl. unfold ret. rewrite app_nil_r. now rewrite set_unpackagedFile_same.
  - simpl. unfold bind at 1, get. unfold unpackaged at 1.
    rewrite (contains_inb _ name Hrepo), (contains_inb _ name Hpkg).
    destruct (inb name (repoFile ad)); simpl; [now apply IH|].
    destruct (inb name (pkgFile ad)); simpl; [now apply IH|].
    unfold bind, modify. rewrite IH by assumption. simpl.
    now rewrite <- app_assoc.
Qed.

Lemma filter_sorted (keep : string -> bool) (l : list string) :
  sorted l -> sorted (filter keep l).
Proof.
  intros Hs. apply Sorted_StronglySorted in Hs; [|exact str_le_Transitive].
  apply StronglySorted_Sorted.
  induction Hs as [|a l Hs IH Hall]; simpl; [constructor|].
  destruct (keep a); [|assumption].
  constructor; [assumption|].
  rewrite Forall_forall in *. intros y Hy. apply filter_In in Hy. now apply Hall.
Qed.

(** ** Claims on the matcher and on the set-difference pass *)

(** C2: a literal ignore rule matches a candidate path exactly when the
    candidate equals the rule string or starts with the rule string followed
    by a slash; the rule [/etc/foo] matches [/etc/foo] and [/etc/foo/bar]
    and does not match [/etc/foobar]. *)
Theorem simpleGlob_Match_literal :
  (forall g path,
     simpleGlob_Match g path = true <->
     path = g \/ exists rest, path = (g ++ "/" ++ rest)%string)
  /\ simpleGlob_Match "/etc/foo" "/etc/foo" = true
  /\ simpleGlob_Match "/etc/foo" "/etc/foo/bar" = true
  /\ simpleGlob_Match "/etc/foo" "/etc/foobar" = false.
Proof.
  split; [|repeat split; reflexivity].
  intros g path. unfold simpleGlob_Match.
  destruct (String.eqb_spec path g) as [->|Hne].
  - split; auto.
  - rewrite HasPrefix_iff. split.
    + intros (rest & H). right. exists rest. rewrite H.
      apply string_app_assoc.
    + intros [H | (rest & H)]; [contradiction|].
      exists rest. rewrite H. symmetry. apply string_app_assoc.
Qed.

(** C3: on a lexicographically sorted slice without repetition the binary
    search membership test [contains] returns what a linear scan for the
    string returns, whatever the string. *)
Theorem contains_refines_linear_scan (a : list string) (x : string) :
  sorted_dedup a -> contains a x = linear_contains a x.
Proof.
  intros Hs. apply sorted_dedup_sorted in Hs.
  apply eq_true_iff_eq. rewrite (contains_In a x Hs). symmetry.
  apply linear_contains_In.
Qed.

Lemma contains_refines_linear_scan_witness :
  sorted_dedup ["/bin/ls"; "/etc/foo"; "/etc/foo/bar"; "/usr"]
  /\ contains ["/bin/ls"; "/etc/foo"; "/etc/foo/bar"; "/usr"] "/etc/foo/bar"
     = linear_contains ["/bin/ls"; "/etc/foo"; "/etc/foo/bar"; "/usr"] "/etc/foo/bar".
Proof.
  assert (Hs : sorted_dedup ["/bin/ls"; "/etc/foo"; "/etc/foo/bar"; "/usr"])
    by (unfold sorted_dedup; repeat constructor).
  split; [exact Hs|].
  exact (contains_refines_linear_scan _ "/etc/foo/bar" Hs).
Defined.

(** C1: on sorted overlay and package inventories the set-difference pass
    appends to the output exactly the paths of the filesystem inventory
    that are in neither of the two, in the order of the filesystem
    inventory: a path of the filesystem inventory is in the output if and
    only if it is absent from both, and the output is sorted when the
    filesystem inventory is. *)
Theorem buildUnpackagedFile_difference (ad : DebDiff) :
  sorted (repoFile ad) -> sorted (pkgFile ad) ->
  exists out,
    buildUnpackagedFile ad
    = Returns None (set_unpackagedFile (unpackagedFile ad ++ out) ad)
    /\ out = filter (unpackaged (repoFile ad) (pkgFile ad)) (allFile ad)
    /\ (forall P, In P (allFile ad) ->
          (In P out <-> ~ In P (repoFile ad) /\ ~ In P (pkgFile ad)))
    /\ (sorted (allFile ad) -> sorted out).
Proof.
  intros Hrepo Hpkg.
  exists (filter (unpackaged (repoFile ad) (pkgFile ad)) (allFile ad)).
  split; [|split; [reflexivity|split]].
  - unfold buildUnpackagedFile, bind, get.
    now rewrite (buildUnpackagedFile_range_spec (allFile ad) ad Hrepo Hpkg).
  - intros P HP. rewrite filter_In. unfold unpackaged.
    rewrite andb_true_iff, !negb_true_iff, <- !not_true_iff_false, !inb_In.
    tauto.
  - apply filter_sorted.
Qed.

Lemma buildUnpackagedFile_difference_witness :
  let ad := set_pkgFile ["/a"; "/c"]
              (set_repoFile ["/b"]
                 (set_allFile ["/a"; "/b"; "/unmanaged"; "/z"]
                    (flags false "/" "/r" "" ""))) in
  sorted (repoFile ad) /\ sorted (pkgFile ad)
  /\ exists out,
       buildUnpackagedFile ad
       = Returns None (set_unpackagedFile (unpackagedFile ad ++ out) ad)
       /\ out = ["/unmanaged"; "/z"].
Proof.
  intros ad.
  assert (Hrepo : sorted (repoFile ad)) by (repeat constructor).
  assert (Hpkg : sorted (pkgFile ad)) by (repeat constructor).
  split; [exact Hrepo|split; [exact Hpkg|]].
  destruct (buildUnpackagedFile_difference ad Hrepo Hpkg)
    as (out & Hrun & Hout & _).
  exists out. split; [exact Hrun|]. rewrite Hout. reflexivity.
Defined.

(** ** Strings *)

Lemma string_app_nil_r (s : string) : (s ++ "")%string = s.
Proof. induction s as [|c s IH]; simpl; [reflexivity|now rewrite IH]. Qed.

Lemma prefix_app (r s : string) : String.prefix r (r ++ s)%string = true.
Proof.
  induction r as [|c r IH]; simpl; [now destruct s|].
  destruct (ascii_dec c c); [exact IH|contradiction].
Qed.

Lemma index_app (r s : string) : String.index 0 r (r ++ s)%string = Some 0.
Proof.
  destruct (r ++ s)%string as [|c t] eqn:Heq.
  - destruct r; [reflexivity|discriminate].
  - cbn [String.index]. rewrite <- Heq. now rewrite prefix_app.
Qed.

Lemma string_length_app (r s : string) :
  String.length (r ++ s)%string = String.length r + String.length s.
Proof. induction r as [|c r IH]; simpl; [reflexivity|now rewrite IH]. Qed.

Lemma substring_all (s : string) : String.substring 0 (String.length s) s = s.
Proof. induction s as [|c s IH]; simpl; [reflexivity|now rewrite IH]. Qed.

Lemma substring_app (r s : string) :
  String.substring (String.length r) (String.length s) (r ++ s)%string = s.
Proof. induction r as [|c r IH]; simpl; [apply substring_all|exact IH]. Qed.

(** Stripping a path of the prefix it begins with leaves the rest. *)
Lemma strings_Replace1_prefix (r s : string) :
  strings_Replace1 (r ++ s)%string r "" = s.
Proof.
  unfold strings_Replace1. rewrite index_app. cbn [Nat.add].
  rewrite string_length_app.
  replace (String.length r + String.length s - String.length r)
    with (String.length s) by lia.
  rewrite substring_app. now destruct (r ++ s)%string.
Qed.

Lemma substring_length (s : string) :
  forall n m, n + m <= String.length s ->
  String.length (String.substring n m s) = m.
Proof.
  induction s as [|c s IH]; intros n m H; cbn [String.length] in H.
  - assert (n = 0) by lia. assert (m = 0) by lia. now subst.
  - destruct n as [|n]; cbn [String.substring].
    + destruct m as [|m]; [reflexivity|]. cbn [String.length].
      rewrite IH; [reflexivity|lia].
    + apply IH. lia.
Qed.

Lemma substring_whole (s : string) :
  forall m, String.length s <= m -> String.substring 0 m s = s.
Proof.
  induction s as [|c s IH]; intros m H; cbn [String.length] in H.
  - now destruct m.
  - destruct m as [|m]; [lia|]. cbn [String.substring].
    rewrite IH; [reflexivity|lia].
Qed.

Lemma string_app_empty (a b : string) : (a ++ b)%string = "" -> a = "" /\ b = "".
Proof. destruct a; cbn [String.append]; [now intros ->|discriminate]. Qed.

(** Stripping leaves nothing of the path stripped and of the empty path
    only. *)
Lemma strings_Replace1_empty (s old : string) :
  strings_Replace1 s old "" = "" -> s = "" \/ s = old.
Proof.
  unfold strings_Replace1.
  destruct (String.index 0 old s) as [i|] eqn:Hindex; [|now left].
  intros H. apply string_app_empty in H. destruct H as (Hpre & Hpost).
  cbn [String.append] in Hpost.
  destruct s as [|c s]; [now left|right].
  destruct i as [|i]; [|discriminate]. cbn [Nat.add] in Hpost.
  apply String.index_correct1 in Hindex.
  destruct (Nat.le_gt_cases (String.length (String c s)) (String.length old))
    as [Hle|Hgt].
  - now rewrite substring_whole in Hindex.
  - apply (f_equal String.length) in Hpost.
    rewrite substring_length in Hpost by lia. cbn [String.length] in *. lia.
Qed.

Lemma first_None (s : string) : GoString.first s = None <-> s = "".
Proof. destruct s; split; intros H; try reflexivity; discriminate. Qed.

(** ** Paths in clean form *)

Lemma filepath_Clean_render (path : string) :
  filepath_Clean path = clean_render (is_rooted path) (clean_elems path).
Proof. destruct path as [|c path]; reflexivity. Qed.

Lemma has_sep_app (a b : string) : has_sep (a ++ b) = has_sep a || has_sep b.
Proof.
  induction a as [|c a IH]; cbn [String.append has_sep]; [reflexivity|].
  now rewrite IH, orb_assoc.
Qed.

Lemma split_sep_name (s : string) :
  has_sep s = false -> forall cur, split_sep s cur = [(cur ++ s)%string].
Proof.
  induction s as [|c s IH]; cbn [has_sep split_sep]; intros Hs cur.
  - now rewrite string_app_nil_r.
  - apply orb_false_iff in Hs. destruct Hs as (Hc & Hs). rewrite Hc, (IH Hs).
    now rewrite string_app_assoc.
Qed.

(** A name in front of a separator is an element of its own. *)
Lemma split_sep_name_app (a s : string) :
  has_sep a = false ->
  forall cur, split_sep (a ++ "/" ++ s) cur = (cur ++ a)%string :: split_sep s "".
Proof.
  induction a as [|c a IH]; cbn [has_sep String.append split_sep]; intros Ha cur.
  - now rewrite string_app_nil_r.
  - apply orb_false_iff in Ha. destruct Ha as (Hc & Ha). rewrite Hc, (IH Ha).
    now rewrite string_app_assoc.
Qed.

(** A name behind the last separator is the last element. *)
Lemma split_sep_app_name (b : string) :
  has_sep b = false ->
  forall a cur, split_sep (a ++ "/" ++ b) cur = split_sep a cur ++ [b].
Proof.
  intros Hb. induction a as [|c a IH]; intros cur.
  - cbn [String.append split_sep Ascii.eqb Bool.eqb app].
    now rewrite (split_sep_name b Hb).
  - cbn [String.append split_sep]. destruct (Ascii.eqb c "/").
    + now rewrite IH.
    + apply IH.
Qed.

Lemma split_sep_no_sep (s : string) :
  forall cur, has_sep cur = false ->
  Forall (fun e => has_sep e = false) (split_sep s cur).
Proof.
  induction s as [|c s IH]; cbn [split_sep]; intros cur Hcur.
  - now constructor.
  - destruct (Ascii.eqb c "/") eqn:Hc.
    + constructor; [exact Hcur|now apply IH].
    + apply IH. rewrite has_sep_app, Hcur. cbn [has_sep]. now rewrite Hc.
Qed.

Lemma proper_name_spec (s : string) :
  proper_name s = true <->
  s <> "" /\ s <> "." /\ s <> ".." /\ has_sep s = false.
Proof.
  unfold proper_name. rewrite !andb_true_iff, !negb_true_iff, !String.eqb_neq.
  tauto.
Qed.

Lemma clean_elem_proper (rooted : bool) (out : list string) (name : string) :
  proper_name name = true -> clean_elem rooted out name = name :: out.
Proof.
  intros H. apply proper_name_spec in H. destruct H as (H1 & H2 & H3 & _).
  unfold clean_elem. apply String.eqb_neq in H1, H2, H3. now rewrite H1, H2, H3.
Qed.

Lemma normal_no_sep (rooted : bool) (out : list string) :
  normal rooted out -> Forall (fun e => has_sep e = false) out.
Proof.
  induction out as [|e out IH]; cbn [normal]; [constructor|].
  intros (Hout & He). constructor; [|now apply IH].
  destruct He as [He|(-> & _)]; [|reflexivity].
  now apply proper_name_spec in He.
Qed.

Lemma normal_not_empty (rooted : bool) (out : list string) :
  normal rooted out -> Forall (fun e => e <> "") out.
Proof.
  induction out as [|e out IH]; cbn [normal]; [constructor|].
  intros (Hout & He). constructor; [|now apply IH].
  destruct He as [He|(-> & _)]; [|discriminate].
  now apply proper_name_spec in He.
Qed.

Lemma clean_elem_normal (rooted : bool) (out : list string) (elem : string) :
  has_sep elem = false -> normal rooted out ->
  normal rooted (clean_elem rooted out elem).
Proof.
  intros Hsep Hout. unfold clean_elem.
  destruct (String.eqb_spec elem "") as [|H1]; [exact Hout|].
  destruct (String.eqb_spec elem ".") as [|H2]; [exact Hout|]. cbn [orb].
  destruct (String.eqb_spec elem "..") as [->|H3].
  - destruct out as [|top below].
    + destruct rooted eqn:Hr; cbn [normal]; [exact I|].
      split; [exact I|]. right. repeat split. constructor.
    + cbn [normal] in Hout. destruct Hout as (Hbelow & Htop).
      destruct (String.eqb_spec top "..") as [->|Htop'].
      * destruct Htop as [Htop|(_ & Hr & Hall)]; [discriminate|].
        cbn [normal]. split; [split; [exact Hbelow|]|];
          right; repeat split; auto.
      * exact Hbelow.
  - cbn [normal]. split; [exact Hout|]. left. now apply proper_name_spec.
Qed.

Lemma fold_clean_elem_normal (rooted : bool) (l : list string) :
  Forall (fun e => has_sep e = false) l ->
  forall out, normal rooted out ->
  normal rooted (fold_left (clean_elem rooted) l out).
Proof.
  induction 1 as [|e l He _ IH]; intros out Hout; [exact Hout|].
  cbn [fold_left]. apply IH. now apply clean_elem_normal.
Qed.

Lemma clean_elems_normal (path : string) :
  normal (is_rooted path) (clean_elems path).
Proof.
  destruct path as [|c path]; [exact I|].
  unfold clean_elems, is_rooted.
  apply fold_clean_elem_normal; [|exact I]. now apply split_sep_no_sep.
Qed.

(** The elements written are read back as they are. *)
Lemma fold_clean_elem_rev (rooted : bool) (out : list string) :
  normal rooted out -> fold_left (clean_elem rooted) (rev out) [] = out.
Proof.
  induction out as [|e below IH]; cbn [normal rev]; [reflexivity|].
  intros (Hbelow & He). rewrite fold_left_app. cbn [fold_left].
  rewrite (IH Hbelow).
  destruct He as [He|(-> & Hr & Hall)]; [now apply clean_elem_proper|].
  unfold clean_elem. cbn [String.eqb Ascii.eqb Bool.eqb orb].
  destruct below as [|top below]; [now rewrite Hr|].
  apply Forall_inv in Hall. subst top. reflexivity.
Qed.

Lemma concat_app_name (l : list string) (b : string) :
  l <> [] -> String.concat "/" (l ++ [b]) = (String.concat "/" l ++ "/" ++ b)%string.
Proof.
  induction l as [|x l IH]; [congruence|]. intros _.
  destruct l as [|y l]; [reflexivity|].
  change (String.concat "/" ((x :: y :: l) ++ [b]))
    with (x ++ "/" ++ String.concat "/" ((y :: l) ++ [b]))%string.
  rewrite IH by discriminate.
  change (String.concat "/" (x :: y :: l))
    with (x ++ "/" ++ String.concat "/" (y :: l))%string.
  now rewrite !string_app_assoc.
Qed.

Lemma split_sep_concat (l : list string) :
  l <> [] -> Forall (fun e => has_sep e = false) l ->
  split_sep (String.concat "/" l) "" = l.
Proof.
  induction l as [|x l IH]; [congruence|]. intros _ Hl.
  apply Forall_cons_iff in Hl. destruct Hl as (Hx & Hl).
  destruct l as [|y l].
  - cbn [String.concat]. now rewrite (split_sep_name x Hx).
  - change (String.concat "/" (x :: y :: l))
      with (x ++ "/" ++ String.concat "/" (y :: l))%string.
    rewrite (split_sep_name_app x _ Hx). cbn [String.append].
    now rewrite IH.
Qed.

Lemma concat_first (l : list string) (x : string) :
  exists s, String.concat "/" (x :: l) = (x ++ s)%string.
Proof.
  destruct l as [|y l]; [exists ""; now rewrite string_app_nil_r|].
  now exists ("/" ++ String.concat "/" (y :: l))%string.
Qed.

Lemma is_rooted_app (x s : string) :
  x <> "" -> has_sep x = false -> is_rooted (x ++ s) = false.
Proof.
  destruct x as [|c x]; [congruence|]. intros _ H. cbn [has_sep] in H.
  apply orb_false_iff in H. now destruct H.
Qed.

Lemma clean_render_not_empty (rooted : bool) (out : list string) :
  clean_render rooted out <> "".
Proof.
  unfold clean_render. destruct rooted; [discriminate|].
  destruct (String.eqb_spec (String.concat "/" (rev out)) ""); [discriminate|assumption].
Qed.

(** A path in clean form is made of its elements, and of them only. *)
Lemma clean_render_elems (rooted : bool) (out : list string) :
  normal rooted out ->
  is_rooted (clean_render rooted out) = rooted
  /\ clean_elems (clean_render rooted out) = out.
Proof.
  intros Hout.
  pose proof (normal_no_sep _ _ Hout) as Hsep.
  pose proof (normal_not_empty _ _ Hout) as Hne.
  pose proof (fold_clean_elem_rev _ _ Hout) as Hfold.
  apply Forall_rev in Hsep, Hne.
  unfold clean_render.
  destruct (rev out) as [|x l] eqn:Hrev.
  - assert (out = []) as -> by (apply (f_equal (@rev string)) in Hrev;
      now rewrite rev_involutive in Hrev).
    destruct rooted; split; reflexivity.
  - destruct (concat_first l x) as (s & Hs).
    apply Forall_inv in Hne. pose proof (Forall_inv Hsep) as Hx.
    destruct rooted.
    + split; [reflexivity|].
      cbn [String.append clean_elems split_sep Ascii.eqb Bool.eqb fold_left].
      change (fold_left (clean_elem true) (split_sep (String.concat "/" (x :: l)) "")
                (clean_elem true [] "") = out).
      change (clean_elem true [] "") with (@nil string).
      rewrite split_sep_concat by (assumption || discriminate). exact Hfold.
    + assert (Hbody : String.concat "/" (x :: l) <> "")
        by (rewrite Hs; destruct x; [congruence|discriminate]).
      apply String.eqb_neq in Hbody. rewrite Hbody.
      assert (Hr : is_rooted (String.concat "/" (x :: l)) = false)
        by (rewrite Hs; now apply is_rooted_app).
      split; [exact Hr|].
      destruct (String.concat "/" (x :: l)) as [|c body] eqn:Hc;
        [discriminate|].
      cbn [is_rooted] in Hr. unfold clean_elems. rewrite Hr, <- Hc.
      rewrite split_sep_concat by (assumption || discriminate). exact Hfold.
Qed.

Lemma clean_render_inj (rooted : bool) (out out' : list string) :
  normal rooted out -> normal rooted out' ->
  clean_render rooted out = clean_render rooted out' -> out = out'.
Proof.
  intros Hout Hout' Heq.
  rewrite <- (proj2 (clean_render_elems _ _ Hout)), Heq.
  apply clean_render_elems, Hout'.
Qed.

(** [filepath.Join] of a path and a name: the name is added to the
    elements of the path. *)
Lemma filepath_Join_name (path name : string) :
  path <> "" -> proper_name name = true ->
  filepath_Join path name
  = clean_render (is_rooted path) (name :: clean_elems path).
Proof.
  intros Hpath Hname. unfold filepath_Join.
  apply String.eqb_neq in Hpath. rewrite Hpath.
  destruct path as [|c path]; [discriminate|].
  rewrite filepath_Clean_render.
  cbn [String.append is_rooted]. unfold clean_elems.
  change (String c (path ++ String "/" name))
    with (String c path ++ "/" ++ name)%string.
  rewrite split_sep_app_name by now apply proper_name_spec in Hname.
  rewrite fold_left_app. cbn [fold_left].
  now rewrite clean_elem_proper.
Qed.

Lemma filepath_Join_clean (rooted : bool) (out : list string) (name : string) :
  normal rooted out -> proper_name name = true ->
  filepath_Join (clean_render rooted out) name = clean_render rooted (name :: out).
Proof.
  intros Hout Hname.
  rewrite filepath_Join_name by (apply clean_render_not_empty || assumption).
  destruct (clean_render_elems _ _ Hout) as (-> & ->). reflexivity.
Qed.

Lemma concat_app (l1 l2 : list string) :
  l1 <> [] -> l2 <> [] ->
  String.concat "/" (l1 ++ l2)
  = (String.concat "/" l1 ++ "/" ++ String.concat "/" l2)%string.
Proof.
  intros H1 H2. induction l1 as [|x l1 IH]; [congruence|].
  destruct l1 as [|y l1].
  - destruct l2; [congruence|reflexivity].
  - change (String.concat "/" ((x :: y :: l1) ++ l2))
      with (x ++ "/" ++ String.concat "/" ((y :: l1) ++ l2))%string.
    rewrite IH by discriminate.
    change (String.concat "/" (x :: y :: l1))
      with (x ++ "/" ++ String.concat "/" (y :: l1))%string.
    now rewrite !string_app_assoc.
Qed.

Lemma normal_rooted_app (l out : list string) :
  normal true (l ++ out) -> normal true l.
Proof.
  induction l as [|e l IH]; cbn [app normal]; [trivial|].
  intros (Hl & [He|(_ & H & _)]); [|discriminate]. split; [now apply IH|now left].
Qed.

Lemma concat_first_char (l : list string) :
  l <> [] -> normal true (rev l) ->
  exists c, GoString.first (String.concat "/" l) = Some c
            /\ Ascii.eqb c "/" = false.
Proof.
  destruct l as [|x l]; [congruence|]. intros _ Hn.
  pose proof (normal_no_sep _ _ Hn) as Hsep.
  pose proof (normal_not_empty _ _ Hn) as Hne.
  apply Forall_rev in Hsep, Hne. rewrite rev_involutive in Hsep, Hne.
  apply Forall_inv in Hsep, Hne.
  destruct (concat_first l x) as (s & ->).
  destruct x as [|c x]; [congruence|]. exists c. split; [reflexivity|].
  cbn [has_sep] in Hsep. now apply orb_false_iff in Hsep.
Qed.

(** ** The walk *)

Lemma node_ind' (P : node -> Prop) :
  (forall k, P (File k)) ->
  (forall entries, Forall (fun entry => P (snd entry)) entries -> P (Dir entries)) ->
  (forall e, P (DirUnreadable e)) ->
  (forall e, P (NoStat e)) ->
  forall n, P n.
Proof.
  intros HFile HDir HUnreadable HNoStat.
  fix IH 1.
  intros [k|entries|e|e]; [apply HFile| |apply HUnreadable|apply HNoStat].
  apply HDir. induction entries as [|[name child] rest IHrest]; constructor.
  - apply IH.
  - exact IHrest.
Qed.

Lemma walk_range_cons (walkFn : WalkFunc) (path name : string) (child : node)
  (rest : list (string * node)) (ad : DebDiff) :
  walk_range walkFn path ((name, child) :: rest) ad =
  match walk walkFn (filepath_Join path name) child ad with
  | Returns err ad' =>
      if stops child err then Returns err ad' else walk_range walkFn path rest ad'
  | Panics => Panics
  end.
Proof.
  simpl. unfold bind.
  destruct (walk walkFn (filepath_Join path name) child ad); [|reflexivity].
  now destruct (stops child a).
Qed.

(** [walk] on a directory: the call for the directory, then the loop. *)
Lemma walk_Dir (walkFn : WalkFunc) (path : string) (entries : list (string * node))
  (ad : DebDiff) :
  walk walkFn path (Dir entries) ad =
  match walkFn path (Some InfoDir) None ad with
  | Returns (Some e) ad' => Returns (Some e) ad'
  | Returns None ad' => walk_range walkFn path entries ad'
  | Panics => Panics
  end.
Proof.
  simpl. unfold bind at 1.
  destruct (walkFn path (Some InfoDir) None ad) as [[e|] ad'|]; try reflexivity.
  unfold ret. revert ad'.
  induction entries as [|[name child] rest IH]; intros ad'.
  - reflexivity.
  - rewrite walk_range_cons. unfold bind at 1.
    destruct (walk walkFn (filepath_Join path name) child ad') as [err ad''|];
      [|reflexivity].
    destruct (stops child err); [reflexivity|apply IH].
Qed.

(** ** The filesystem inventory *)

Lemma set_allFile_same (ad : DebDiff) : set_allFile (allFile ad) ad = ad.
Proof. now destruct ad. Qed.

Lemma set_allFile_app (l files : list string) (ad : DebDiff) :
  set_allFile (allFile (set_allFile l ad) ++ files) (set_allFile l ad)
  = set_allFile (l ++ files) ad.
Proof. reflexivity. Qed.

Lemma IsIgnored_set_allFile (l : list string) (ad : DebDiff) (path : string) :
  IsIgnored (set_allFile l ad) path = IsIgnored ad path.
Proof. reflexivity. Qed.

(** The callback of [buildAllFile] on an entry without error. *)
Lemma buildAllFile_walkFn_entry (path : string) (info : FileInfo) (ad : DebDiff) :
  buildAllFile_walkFn path (Some info) None ad =
  if IsIgnored ad path then
    Returns (if IsDir info then Some SkipDir else None) ad
  else if IsDir info then Returns None ad
  else Returns None (set_allFile (allFile ad ++ [path]) ad).
Proof.
  unfold buildAllFile_walkFn, bind, get, info_IsDir, ret, modify.
  destruct (IsIgnored ad path), (IsDir info); reflexivity.
Qed.

(** The callback of [buildAllFile] on an error. *)
Lemma buildAllFile_walkFn_error (path : string) (info : option FileInfo)
  (e : error) (ad : DebDiff) :
  buildAllFile_walkFn path info (Some e) ad =
  Returns (if os_IsPermission e then None
           else Some (errors_Wrap e "walking all files")) ad.
Proof.
  unfold buildAllFile_walkFn, ret. now destruct (os_IsPermission e).
Qed.

(** The callback of [buildRepoFile] on an error. *)
Lemma buildRepoFile_walkFn_error (path : string) (info : option FileInfo)
  (e : error) (ad : DebDiff) :
  buildRepoFile_walkFn path info (Some e) ad =
  Returns (Some (errors_Wrap e "walking repo files")) ad.
Proof. reflexivity. Qed.

Lemma walk_range_allFile (path : string) (entries : list (string * node)) :
  Forall (fun entry =>
    forall path ad, exists r files,
      walk buildAllFile_walkFn path (snd entry) ad
      = Returns r (set_allFile (allFile ad ++ files) ad)
      /\ allFile_walked (IsIgnored ad) path (snd entry) r files) entries ->
  forall ad, exists r files,
    walk_range buildAllFile_walkFn path entries ad
    = Returns r (set_allFile (allFile ad ++ files) ad)
    /\ allFile_ranged (IsIgnored ad) path entries r files.
Proof.
  induction 1 as [|[name child] rest Hchild _ IH]; intros ad.
  - exists None, []. split.
    + simpl. unfold ret. now rewrite app_nil_r, set_allFile_same.
    + split.
      * intros p. split; [intros []|intros (? & ? & ? & [] & _)].
      * intros ? ? ? [].
  - rewrite walk_range_cons. simpl in Hchild.
    destruct (Hchild (filepath_Join path name) ad) as (r1 & files1 & Hrun1 & Hw1).
    rewrite Hrun1.
    assert (Hskip : r1 = None \/ r1 = Some SkipDir ->
      (forall p k, live_file (IsIgnored ad) (filepath_Join path name) child p k ->
                   In p files1)
      /\ (forall p, In p files1 ->
            exists k, live_file (IsIgnored ad) (filepath_Join path name) child p k)
      /\ (forall err, live_error (IsIgnored ad) (filepath_Join path name) child err ->
            os_IsPermission err = true)
      /\ stops child r1 = false).
    { intros [-> | ->]; simpl in Hw1.
      - destruct Hw1 as (Hfiles & Herr). repeat split; auto.
        + intros p k Hp. apply Hfiles. now exists k.
        + intros p Hp. now apply Hfiles.
      - destruct Hw1 as (-> & Hign & entries' & ->). repeat split.
        + intros p k Hp. inversion Hp; congruence.
        + intros p [].
        + intros err Herr. inversion Herr; congruence. }
    destruct r1 as [e1|].
    + destruct e1 as [| | | | |err msg]; simpl in Hw1; try contradiction.
      * (* SkipDir: the ignored directory is passed over *)
        destruct Hskip as (Hin & Hout & Herr & ->); [now right|].
        destruct Hw1 as (-> & _).
        destruct (IH (set_allFile (allFile ad ++ []) ad))
          as (r2 & files2 & Hrun2 & Hw2).
        exists r2, files2. split; [rewrite Hrun2; now rewrite app_nil_r|].
        change (IsIgnored (set_allFile (allFile ad ++ []) ad)) with (IsIgnored ad) in Hw2.
        destruct r2 as [e2|]; simpl in *.
        -- destruct e2; try contradiction.
           destruct Hw2 as (Hmsg & (name' & child' & Hin' & Hlive) & Hperm).
           repeat split; auto. exists name', child'. auto.
        -- destruct Hw2 as (Hfiles2 & Herr2). split.
           ++ intros p. rewrite Hfiles2. split.
              ** intros (name' & child' & k & Hin' & Hlive). exists name', child', k. auto.
              ** intros (name' & child' & k & [Heq|Hin'] & Hlive).
                 --- injection Heq as <- <-. destruct (Hin p k Hlive).
                 --- exists name', child', k. auto.
           ++ intros name' child' err [Heq|Hin'] Hlive.
              ** injection Heq as <- <-. now apply Herr.
              ** eapply Herr2; eauto.
      * (* another error ends the loop *)
        assert (Hstop : stops child (Some (Wrapped err msg)) = true)
          by (destruct child; reflexivity).
        rewrite Hstop. exists (Some (Wrapped err msg)), files1.
        split; [reflexivity|]. simpl.
        destruct Hw1 as (Hmsg & Hlive & Hperm). repeat split; auto.
        exists name, child. split; [now left|assumption].
    + destruct Hskip as (Hin & Hout & Herr & ->); [now left|].
      destruct (IH (set_allFile (allFile ad ++ files1) ad))
        as (r2 & files2 & Hrun2 & Hw2).
      exists r2, (files1 ++ files2). split.
      { rewrite Hrun2. now rewrite set_allFile_app, app_assoc. }
      change (IsIgnored (set_allFile (allFile ad ++ files1) ad)) with (IsIgnored ad) in Hw2.
      destruct r2 as [e2|]; simpl in *.
      * destruct e2; try contradiction.
        destruct Hw2 as (Hmsg & (name' & child' & Hin' & Hlive) & Hperm).
        repeat split; auto. exists name', child'. auto.
      * destruct Hw2 as (Hfiles2 & Herr2). split.
        -- intros p. rewrite in_app_iff, Hfiles2. split.
           ++ intros [Hp|(name' & child' & k & Hin' & Hlive)].
              ** destruct (Hout p Hp) as (k & Hlive). exists name, child, k. auto.
              ** exists name', child', k. auto.
           ++ intros (name' & child' & k & [Heq|Hin'] & Hlive).
              ** injection Heq as <- <-. left. eapply Hin; eauto.
              ** right. exists name', child', k. auto.
        -- intros name' child' err [Heq|Hin'] Hlive.
           ++ injection Heq as <- <-. now apply Herr.
           ++ eapply Herr2; eauto.
Qed.

Lemma walk_allFile (n : node) :
  forall path ad, exists r files,
    walk buildAllFile_walkFn path n ad
    = Returns r (set_allFile (allFile ad ++ files) ad)
    /\ allFile_walked (IsIgnored ad) path n r files.
Proof.
  induction n as [k|entries IH|e|e] using node_ind'; intros path ad.
  - (* an entry that is not a directory *)
    cbn [walk]. rewrite buildAllFile_walkFn_entry. cbn [IsDir].
    destruct (IsIgnored ad path) eqn:Hign.
    + exists None, []. rewrite app_nil_r, set_allFile_same.
      split; [reflexivity|]. split.
      * intros p. split; [intros []|].
        intros (k' & Hlive). inversion Hlive; congruence.
      * intros err Herr. inversion Herr.
    + exists None, [path]. split; [reflexivity|]. split.
      * intros p. split.
        -- intros [<-|[]]. exists k. now constructor.
        -- intros (k' & Hlive). inversion Hlive; subst. now left.
      * intros err Herr. inversion Herr.
  - (* a directory *)
    rewrite walk_Dir, buildAllFile_walkFn_entry. cbn [IsDir].
    destruct (IsIgnored ad path) eqn:Hign.
    + exists (Some SkipDir), []. rewrite app_nil_r, set_allFile_same.
      split; [reflexivity|]. simpl. repeat split; eauto.
    + destruct (walk_range_allFile path entries IH ad)
        as (r & files & Hrun & Hw).
      exists r, files. split; [exact Hrun|].
      destruct r as [err|]; simpl in *.
      * destruct err; try contradiction.
        destruct Hw as (Hmsg & (name & child & Hin & Hlive) & Hperm).
        repeat split; auto. eapply live_error_below; eauto.
      * destruct Hw as (Hfiles & Herr). split.
        -- intros p. rewrite Hfiles. split.
           ++ intros (name & child & k & Hin & Hlive). exists k.
              eapply live_file_below; eauto.
           ++ intros (k & Hlive). inversion Hlive; subst.
              do 3 eexists. eauto.
        -- intros err Hlive. inversion Hlive; subst. eapply Herr; eauto.
  - (* a directory that cannot be listed *)
    cbn [walk]. rewrite buildAllFile_walkFn_error.
    destruct (os_IsPermission (PathError "open" path e)) eqn:Hperm.
    + exists None, []. rewrite app_nil_r, set_allFile_same.
      split; [reflexivity|]. split.
      * intros p. split; [intros []|]. intros (k & Hlive). inversion Hlive.
      * intros err Hlive. inversion Hlive; subst. exact Hperm.
    + exists (Some (errors_Wrap (PathError "open" path e) "walking all files")), [].
      rewrite app_nil_r, set_allFile_same. split; [reflexivity|].
      simpl. repeat split; auto. constructor.
  - (* an entry that cannot be examined *)
    cbn [walk]. rewrite buildAllFile_walkFn_error.
    destruct (os_IsPermission (PathError "lstat" path e)) eqn:Hperm.
    + exists None, []. rewrite app_nil_r, set_allFile_same.
      split; [reflexivity|]. split.
      * intros p. split; [intros []|]. intros (k & Hlive). inversion Hlive.
      * intros err Hlive. inversion Hlive; subst. exact Hperm.
    + exists (Some (errors_Wrap (PathError "lstat" path e) "walking all files")), [].
      rewrite app_nil_r, set_allFile_same. split; [reflexivity|].
      simpl. repeat split; auto. constructor.
Qed.

(** ** Sorting *)

Lemma insert_sorted_perm (x : string) (l : list string) :
  Permutation (insert_sorted x l) (x :: l).
Proof.
  induction l as [|y l IH]; simpl; [reflexivity|].
  destruct (String.leb x y); [reflexivity|].
  rewrite IH. apply perm_swap.
Qed.

Lemma sort_Strings_perm (l : list string) : Permutation (sort_Strings l) l.
Proof.
  induction l as [|x l IH]; simpl; [reflexivity|].
  rewrite insert_sorted_perm. now constructor.
Qed.

Lemma sort_Strings_In (l : list string) (x : string) :
  In x (sort_Strings l) <-> In x l.
Proof.
  split; apply Permutation_in; [|symmetry]; apply sort_Strings_perm.
Qed.

Lemma insert_sorted_sorted (x : string) (l : list string) :
  sorted l -> sorted (insert_sorted x l).
Proof.
  unfold sorted. induction 1 as [|y l Hs IH Hhd]; simpl.
  - repeat constructor.
  - destruct (String.leb x y) eqn:Hxy.
    + repeat constructor; assumption.
    + assert (Hyx : str_le y x)
        by (destruct (str_le_total x y) as [H|H]; [unfold str_le in H; congruence|exact H]).
      constructor; [exact IH|].
      destruct Hhd as [|z l Hyz]; simpl; [now constructor|].
      destruct (String.leb x z); now constructor.
Qed.

Lemma sort_Strings_sorted (l : list string) : sorted (sort_Strings l).
Proof.
  induction l as [|x l IH]; simpl; [constructor|now apply insert_sorted_sorted].
Qed.

(** Two sorted slices with the same elements are the same slice: the
    result of [sort.Strings] does not depend on how it sorts. *)
Lemma sorted_perm_unique (l l' : list string) :
  sorted l -> sorted l' -> Permutation l l' -> l = l'.
Proof.
  unfold sorted. intros Hl Hl'.
  apply Sorted_StronglySorted in Hl; [|exact str_le_Transitive].
  apply Sorted_StronglySorted in Hl'; [|exact str_le_Transitive].
  revert l' Hl'. induction Hl as [|x l Hl IH Hx]; intros l' Hl' Hperm.
  - apply Permutation_nil in Hperm. now subst.
  - destruct Hl' as [|y l' Hl' Hy].
    + symmetry in Hperm. now apply Permutation_nil in Hperm.
    + rewrite Forall_forall in Hx, Hy.
      assert (x = y).
      { apply str_le_antisym.
        - assert (Hin : In y (x :: l))
            by (eapply Permutation_in; [symmetry; exact Hperm|now left]).
          destruct Hin as [->|Hin]; [apply str_le_refl|now apply Hx].
        - assert (Hin : In x (y :: l'))
            by (eapply Permutation_in; [exact Hperm|now left]).
          destruct Hin as [->|Hin]; [apply str_le_refl|now apply Hy]. }
      subst y. f_equal. apply IH; [exact Hl'|].
      eapply Permutation_cons_inv; exact Hperm.
Qed.

(** The run of [buildAllFile]: the walk from the root, then the sort when
    the walk ended without error. *)
Lemma buildAllFile_run (fs : FS) (ad : DebDiff) :
  exists r files,
    allFile_walked (IsIgnored ad) (Root ad) (os_Lstat fs (Root ad)) r files
    /\ buildAllFile fs ad =
       match r with
       | None | Some SkipDir =>
           Returns None (set_allFile (sort_Strings (allFile ad ++ files)) ad)
       | Some e =>
           Returns (Some (errors_Wrap e "walking all files"))
                   (set_allFile (allFile ad ++ files) ad)
       end.
Proof.
  destruct (walk_allFile (os_Lstat fs (Root ad)) (Root ad) ad)
    as (r & files & Hrun & Hw).
  exists r, files. split; [exact Hw|].
  unfold buildAllFile, filepath_Walk, bind, get. rewrite Hrun.
  destruct r as [[]|]; reflexivity.
Qed.

(** ** The overlay inventory *)

Lemma walk_range_repoFile (path : string) (entries : list (string * node)) :
  Forall (fun entry =>
    forall path ad,
      repoFile_walked path (snd entry)
        (walk buildRepoFile_walkFn path (snd entry) ad)) entries ->
  forall ad,
    repoFile_ranged path entries (walk_range buildRepoFile_walkFn path entries ad).
Proof.
  induction 1 as [|[name child] rest Hchild _ IH]; intros ad.
  - simpl. intros ? ? ? [].
  - rewrite walk_range_cons. simpl in Hchild.
    specialize (Hchild (filepath_Join path name) ad).
    destruct (walk buildRepoFile_walkFn (filepath_Join path name) child ad)
      as [[e|] ad1|]; simpl in Hchild; [| |exact I].
    + destruct e as [| | | | |err msg]; try contradiction.
      assert (Hstop : stops child (Some (Wrapped err msg)) = true)
        by (destruct child; reflexivity).
      rewrite Hstop. simpl. destruct Hchild as (Hmsg & Hlive).
      split; [exact Hmsg|]. exists name, child. split; [now left|exact Hlive].
    + simpl. specialize (IH ad1).
      destruct (walk_range buildRepoFile_walkFn path rest ad1)
        as [[e|] ad2|]; simpl in *; [| |exact I].
      * destruct e; try contradiction.
        destruct IH as (Hmsg & name' & child' & Hin & Hlive).
        split; [exact Hmsg|]. exists name', child'. auto.
      * intros name' child' err [Heq|Hin].
        -- injection Heq as <- <-. apply Hchild.
        -- now apply IH.
Qed.

Lemma walk_repoFile (n : node) :
  forall path ad,
    repoFile_walked path n (walk buildRepoFile_walkFn path n ad).
Proof.
  induction n as [k|entries IH|e|e] using node_ind'; intros path ad.
  - cbn [walk]. unfold buildRepoFile_walkFn, bind, info_IsDir, ret, get, modify.
    cbn [IsDir].
    destruct (GoString.first (strings_Replace1 path (Repo ad) "")); simpl; [|exact I].
    intros err Hlive. inversion Hlive.
  - rewrite walk_Dir.
    change (buildRepoFile_walkFn path (Some InfoDir) None ad) with (Returns (@None error) ad).
    pose proof (walk_range_repoFile path entries IH ad) as Hr.
    destruct (walk_range buildRepoFile_walkFn path entries ad)
      as [[e'|] ad1|]; simpl in *; [| |exact I].
    + destruct e'; try contradiction.
      destruct Hr as (Hmsg & name & child & Hin & Hlive).
      split; [exact Hmsg|]. eapply live_error_below; eauto.
    + intros err Hlive. inversion Hlive; subst. eapply Hr; eauto.
  - cbn [walk]. rewrite buildRepoFile_walkFn_error. simpl.
    split; [reflexivity|constructor].
  - cbn [walk]. rewrite buildRepoFile_walkFn_error. simpl.
    split; [reflexivity|constructor].
Qed.

(** An error of the overlay walk ends [buildRepoFile]: with that error,
    unless the program panicked before it got there. *)
Lemma buildRepoFile_fatal (fs : FS) (ad : DebDiff) (err : error) :
  live_error (fun _ => false) (Repo ad) (os_Lstat fs (Repo ad)) err ->
  buildRepoFile fs ad = Panics
  \/ exists err' ad',
       buildRepoFile fs ad
       = Returns (Some (errors_Wrap (errors_Wrap err' "walking repo files")
                          "walking repo files")) ad'
       /\ live_error (fun _ => false) (Repo ad) (os_Lstat fs (Repo ad)) err'.
Proof.
  intros Hlive.
  pose proof (walk_repoFile (os_Lstat fs (Repo ad)) (Repo ad) ad) as Hw.
  unfold buildRepoFile, filepath_Walk, bind, get.
  destruct (walk buildRepoFile_walkFn (Repo ad) (os_Lstat fs (Repo ad)) ad)
    as [[e|] ad1|]; simpl in Hw; [| |now left].
  - destruct e; try contradiction. destruct Hw as (-> & Hlive').
    right. do 2 eexists. split; [reflexivity|exact Hlive'].
  - destruct (Hw err Hlive).
Qed.

(** ** Claim on what the filesystem walk records *)

Lemma live_file_not_ignored (ignored : string -> bool) (path : string) (n : node)
  (p : string) (k : FileKind) :
  live_file ignored path n p k -> ignored p = false.
Proof. induction 1; assumption. Qed.

(** Case analysis of [live_file] and [live_error] on a given tree. *)
Ltac live_cases :=
  repeat match goal with
  | H : In _ [] |- _ => destruct H
  | H : In _ (_ :: _) |- _ => destruct H as [H|H]; [inversion H; clear H; subst|]
  | H : live_file _ _ (File _) _ _ |- _ => inversion H; clear H; subst
  | H : live_file _ _ (Dir _) _ _ |- _ => inversion H; clear H; subst
  | H : live_file _ _ (DirUnreadable _) _ _ |- _ => inversion H
  | H : live_file _ _ (NoStat _) _ _ |- _ => inversion H
  | H : live_error _ _ (File _) _ |- _ => inversion H
  | H : live_error _ _ (Dir _) _ |- _ => inversion H; clear H; subst
  | H : live_error _ _ (DirUnreadable _) _ |- _ => inversion H; clear H; subst
  | H : live_error _ _ (NoStat _) _ |- _ => inversion H; clear H; subst
  end.

(** C8, as the code has it: when [buildAllFile] succeeds, the paths it
    has added to the filesystem inventory are exactly the live files of the
    walk: the entries that are not directories (regular files, and
    symbolic links and special files as well), that no ignore rule matches
    and that lie below directories no ignore rule matches.  Nothing is
    recorded for or below an ignored directory, nothing for an ignored
    file, and a directory is never recorded itself. *)
Theorem buildAllFile_records_live_files (fs : FS) (ad ad' : DebDiff) :
  buildAllFile fs ad = Returns None ad' ->
  (forall p,
     In p (allFile ad') <->
     In p (allFile ad)
     \/ exists k, live_file (IsIgnored ad) (Root ad) (os_Lstat fs (Root ad)) p k)
  /\ (forall p k,
        live_file (IsIgnored ad) (Root ad) (os_Lstat fs (Root ad)) p k ->
        IsIgnored ad p = false)
  /\ (forall path entries p k,
        IsIgnored ad path = true ->
        ~ live_file (IsIgnored ad) path (Dir entries) p k)
  /\ (forall path k p k',
        IsIgnored ad path = true ->
        ~ live_file (IsIgnored ad) path (File k) p k')
  /\ (forall path entries p k,
        live_file (IsIgnored ad) path (Dir entries) p k ->
        exists name child,
          In (name, child) entries
          /\ live_file (IsIgnored ad) (filepath_Join path name) child p k).
Proof.
  intros Hbuild. split; [|split; [|split; [|split]]].
  - destruct (buildAllFile_run fs ad) as (r & files & Hw & Hrun).
    rewrite Hrun in Hbuild. intros p.
    destruct r as [[]|]; simpl in Hw; try contradiction; try discriminate;
      injection Hbuild as <-; cbn [allFile set_allFile];
      rewrite sort_Strings_In, in_app_iff.
    + destruct Hw as (-> & Hign & entries & Hroot). rewrite Hroot. split.
      * intros [H|[]]. now left.
      * intros [H|(k & Hlive)]; [now left|]. inversion Hlive; congruence.
    + destruct Hw as (Hfiles & _). now rewrite Hfiles.
  - intros p k. apply live_file_not_ignored.
  - intros path entries p k Hign Hlive. inversion Hlive; congruence.
  - intros path k p k' Hign Hlive. inversion Hlive; congruence.
  - intros path entries p k Hlive. inversion Hlive; subst. eauto.
Qed.

Lemma buildAllFile_records_live_files_witness :
  buildAllFile sample_fs sample_ad
  = Returns None (set_allFile ["/etc/foobar"; "/etc/mtab"] sample_ad)
  /\ forall p,
       In p ["/etc/foobar"; "/etc/mtab"] <->
       In p (allFile sample_ad)
       \/ exists k, live_file (IsIgnored sample_ad) (Root sample_ad)
                      (os_Lstat sample_fs (Root sample_ad)) p k.
Proof.
  assert (Hbuild : buildAllFile sample_fs sample_ad
                   = Returns None (set_allFile ["/etc/foobar"; "/etc/mtab"] sample_ad))
    by reflexivity.
  split; [exact Hbuild|].
  exact (proj1 (buildAllFile_records_live_files sample_fs sample_ad _ Hbuild)).
Defined.

(** C8, as the claim words it, fails: the walk examines its entries with
    [lstat] and asks [IsDir] only, so the symbolic link [/etc/mtab] of the
    sample system is recorded although it is no regular file. *)
Lemma buildAllFile_records_symlink :
  buildAllFile sample_fs sample_ad
  = Returns None (set_allFile ["/etc/foobar"; "/etc/mtab"] sample_ad)
  /\ live_file (IsIgnored sample_ad) "/" sample_root "/etc/mtab" Symlink
  /\ ~ live_file (IsIgnored sample_ad) "/" sample_root "/etc/mtab" Regular.
Proof.
  split; [reflexivity|split].
  - unfold sample_root.
    eapply live_file_below with (name := "etc"); [reflexivity|simpl; eauto|].
    eapply live_file_below with (name := "mtab"); [reflexivity|simpl; eauto 6|].
    now constructor.
  - unfold sample_root. intros Hlive. live_cases; discriminate.
Qed.

(** ** What each method changes *)

Lemma set_repoFile_same (ad : DebDiff) : set_repoFile (repoFile ad) ad = ad.
Proof. now destruct ad. Qed.

Lemma set_pkgFile_same (ad : DebDiff) : set_pkgFile (pkgFile ad) ad = ad.
Proof. now destruct ad. Qed.

Lemma set_diffRepoFile_same (ad : DebDiff) :
  set_diffRepoFile (diffRepoFile ad) ad = ad.
Proof. now destruct ad. Qed.

Lemma walk_range_repoFile_frame (path : string) (entries : list (string * node)) :
  Forall (fun entry =>
    forall path ad r ad',
      walk buildRepoFile_walkFn path (snd entry) ad = Returns r ad' ->
      exists names, ad' = set_repoFile (repoFile ad ++ names) ad) entries ->
  forall ad r ad',
    walk_range buildRepoFile_walkFn path entries ad = Returns r ad' ->
    exists names, ad' = set_repoFile (repoFile ad ++ names) ad.
Proof.
  induction 1 as [|[name child] rest Hchild _ IH]; intros ad r ad' Hrun.
  - injection Hrun as _ <-. exists []. now rewrite app_nil_r, set_repoFile_same.
  - rewrite walk_range_cons in Hrun. simpl in Hchild.
    destruct (walk buildRepoFile_walkFn (filepath_Join path name) child ad)
      as [r1 ad1|] eqn:Hwalk; [|discriminate].
    destruct (Hchild _ _ _ _ Hwalk) as (names1 & ->).
    destruct (stops child r1).
    + injection Hrun as _ <-. now exists names1.
    + destruct (IH _ _ _ Hrun) as (names2 & ->).
      exists (names1 ++ names2). cbn [repoFile set_repoFile].
      now rewrite app_assoc.
Qed.

Lemma walk_repoFile_frame (n : node) :
  forall path ad r ad',
    walk buildRepoFile_walkFn path n ad = Returns r ad' ->
    exists names, ad' = set_repoFile (repoFile ad ++ names) ad.
Proof.
  induction n as [k|entries IH|e|e] using node_ind'; intros path ad r ad' Hrun.
  - cbn [walk] in Hrun.
    unfold buildRepoFile_walkFn, bind, info_IsDir, ret, get, modify in Hrun.
    cbn [IsDir] in Hrun.
    destruct (GoString.first (strings_Replace1 path (Repo ad) ""));
      [|discriminate].
    injection Hrun as _ <-. eauto.
  - rewrite walk_Dir in Hrun.
    change (buildRepoFile_walkFn path (Some InfoDir) None ad)
      with (Returns (@None error) ad) in Hrun.
    cbv beta iota in Hrun.
    eapply walk_range_repoFile_frame; eassumption.
  - cbn [walk] in Hrun. rewrite buildRepoFile_walkFn_error in Hrun.
    injection Hrun as _ <-. exists []. now rewrite app_nil_r, set_repoFile_same.
  - cbn [walk] in Hrun. rewrite buildRepoFile_walkFn_error in Hrun.
    injection Hrun as _ <-. exists []. now rewrite app_nil_r, set_repoFile_same.
Qed.

(** A successful [buildRepoFile] leaves the names it has added, sorted
    together with those that were there. *)
Lemma buildRepoFile_success (fs : FS) (ad ad' : DebDiff) :
  buildRepoFile fs ad = Returns None ad' ->
  exists names, ad' = set_repoFile (sort_Strings (repoFile ad ++ names)) ad.
Proof.
  unfold buildRepoFile, filepath_Walk, bind, get. intros Hrun.
  destruct (walk buildRepoFile_walkFn (Repo ad) (os_Lstat fs (Repo ad)) ad)
    as [r ad1|] eqn:Hwalk; [|discriminate].
  destruct (walk_repoFile_frame _ _ _ _ _ Hwalk) as (names & ->).
  exists names. destruct r as [[]|]; simpl in Hrun; try discriminate;
    now injection Hrun as <-.
Qed.

Lemma buildPkgFile_range_frame (fs : FS) (lists : list string) :
  forall ad r ad',
    buildPkgFile_range fs lists ad = Returns r ad' ->
    exists lines, ad' = set_pkgFile (pkgFile ad ++ lines) ad.
Proof.
  induction lists as [|list rest IH]; intros ad r ad' Hrun.
  - injection Hrun as _ <-. exists []. now rewrite app_nil_r, set_pkgFile_same.
  - cbn [buildPkgFile_range] in Hrun.
    destruct (fs_open fs list) as [e|data rerr].
    + injection Hrun as _ <-. exists []. now rewrite app_nil_r, set_pkgFile_same.
    + destruct (scan_file data rerr list) as [lines scErr].
      unfold bind, modify in Hrun. destruct scErr as [e|].
      * injection Hrun as _ <-. now exists lines.
      * destruct (IH _ _ _ Hrun) as (lines2 & ->).
        exists (lines ++ lines2). cbn [pkgFile set_pkgFile].
        now rewrite app_assoc.
Qed.

Lemma buildPkgFile_success (fs : FS) (ad ad' : DebDiff) :
  buildPkgFile fs ad = Returns None ad' ->
  exists lines, ad' = set_pkgFile (sort_Strings (pkgFile ad ++ lines)) ad.
Proof.
  unfold buildPkgFile, bind, get. intros Hrun.
  destruct (fs_glob fs _) as [lists|]; [|discriminate].
  destruct (fs_glob fs _) as [conffiles|]; [|discriminate].
  destruct (buildPkgFile_range fs (lists ++ conffiles) ad)
    as [r ad1|] eqn:Hrange; [|discriminate].
  destruct (buildPkgFile_range_frame _ _ _ _ _ Hrange) as (lines & ->).
  exists lines. destruct r; [discriminate|]. now injection Hrun as <-.
Qed.

Lemma buildUnpackagedFile_range_frame (names : list string) :
  forall ad, exists out,
    buildUnpackagedFile_range names ad
    = Returns tt (set_unpackagedFile (unpackagedFile ad ++ out) ad).
Proof.
  induction names as [|name rest IH]; intros ad.
  - exists []. simpl. unfold ret. now rewrite app_nil_r, set_unpackagedFile_same.
  - cbn [buildUnpackagedFile_range]. unfold bind at 1, get.
    destruct (contains (repoFile ad) name); [apply IH|].
    destruct (contains (pkgFile ad) name); [apply IH|].
    unfold bind, modify.
    destruct (IH (set_unpackagedFile (unpackagedFile ad ++ [name]) ad))
      as (out & ->).
    exists (name :: out). cbn [unpackagedFile set_unpackagedFile].
    now rewrite <- app_assoc.
Qed.

Lemma buildDiffRepoFile_range_frame (md5hex : string -> string) (fs : FS)
  (files : list string) :
  forall ad r ad',
    buildDiffRepoFile_range md5hex fs files ad = Returns r ad' ->
    exists diverging, ad' = set_diffRepoFile (diffRepoFile ad ++ diverging) ad.
Proof.
  induction files as [|file rest IH]; intros ad r ad' Hrun.
  - injection Hrun as _ <-. exists [].
    now rewrite app_nil_r, set_diffRepoFile_same.
  - assert (Hstay : forall r0, Returns r0 ad = Returns r ad' ->
      exists diverging, ad' = set_diffRepoFile (diffRepoFile ad ++ diverging) ad).
    { intros r0 H. injection H as _ <-. exists [].
      now rewrite app_nil_r, set_diffRepoFile_same. }
    cbn [buildDiffRepoFile_range] in Hrun. unfold bind at 1, get in Hrun.
    destruct (filehash md5hex fs (filepath_Join (Root ad) file)) as [realhash err].
    destruct (is_failure errors_Cause err).
    + destruct err as [e|]; [|eauto].
      destruct (os_IsPermission (errors_Cause e)); eauto.
    + destruct (filehash md5hex fs (filepath_Join (Repo ad) file))
        as [repohash err'].
      destruct (is_failure (fun e => e) err').
      * destruct err' as [e|]; [|eauto].
        destruct (os_IsPermission e); eauto.
      * destruct (negb (String.eqb realhash repohash)); [|eauto].
        unfold bind, modify in Hrun.
        destruct (IH _ _ _ Hrun) as (diverging & ->).
        exists (file :: diverging). cbn [diffRepoFile set_diffRepoFile].
        now rewrite <- app_assoc.
Qed.

Lemma set_ignoreGlob_same (ad : DebDiff) : set_ignoreGlob (ignoreGlob ad) ad = ad.
Proof. now destruct ad. Qed.

(** The loop over the lines of a rule file returns and appends rules. *)
Lemma ignore_lines_frame (glob_Compile : string -> option (string -> bool))
  (lines : list string) :
  forall ad, exists r rules,
    ignore_lines glob_Compile lines ad
    = Returns r (set_ignoreGlob (ignoreGlob ad ++ rules) ad).
Proof.
  induction lines as [|l rest IH]; intros ad.
  - exists None, []. simpl. unfold ret. now rewrite app_nil_r, set_ignoreGlob_same.
  - cbn [ignore_lines]. destruct l as [|c l]; [apply IH|].
    cbn [String.length Nat.eqb GoString.first String.get].
    destruct (Ascii.eqb c "#"); [apply IH|].
    assert (Hstep : forall g, exists r rules,
      (modify (fun ad0 => set_ignoreGlob (ignoreGlob ad0 ++ [g]) ad0) ;;;
       ignore_lines glob_Compile rest) ad
      = Returns r (set_ignoreGlob (ignoreGlob ad ++ rules) ad)).
    { intros g. unfold bind, modify.
      destruct (IH (set_ignoreGlob (ignoreGlob ad ++ [g]) ad)) as (r & rules & ->).
      exists r, (g :: rules). cbn [ignoreGlob set_ignoreGlob].
      now rewrite <- app_assoc. }
    destruct (strings_ContainsAny (String c l) "*?["); [|apply Hstep].
    destruct (glob_Compile (String c l)) as [g|]; [apply Hstep|].
    eexists _, []. unfold ret. now rewrite app_nil_r, set_ignoreGlob_same.
Qed.

Lemma walk_range_ignoreGlob_frame
  (glob_Compile : string -> option (string -> bool)) (fs : FS)
  (path : string) (entries : list (string * node)) :
  Forall (fun entry =>
    forall path ad, exists r rules,
      walk (buildIgnoreGlob_walkFn glob_Compile fs) path (snd entry) ad
      = Returns r (set_ignoreGlob (ignoreGlob ad ++ rules) ad)) entries ->
  forall ad, exists r rules,
    walk_range (buildIgnoreGlob_walkFn glob_Compile fs) path entries ad
    = Returns r (set_ignoreGlob (ignoreGlob ad ++ rules) ad).
Proof.
  induction 1 as [|[name child] rest Hchild _ IH]; intros ad.
  - exists None, []. simpl. unfold ret. now rewrite app_nil_r, set_ignoreGlob_same.
  - rewrite walk_range_cons. simpl in Hchild.
    destruct (Hchild (filepath_Join path name) ad) as (r1 & rules1 & ->).
    destruct (stops child r1); [eauto|].
    destruct (IH (set_ignoreGlob (ignoreGlob ad ++ rules1) ad))
      as (r2 & rules2 & ->).
    exists r2, (rules1 ++ rules2). cbn [ignoreGlob set_ignoreGlob].
    now rewrite app_assoc.
Qed.

Lemma walk_ignoreGlob_frame (glob_Compile : string -> option (string -> bool))
  (fs : FS) (n : node) :
  forall path ad, exists r rules,
    walk (buildIgnoreGlob_walkFn glob_Compile fs) path n ad
    = Returns r (set_ignoreGlob (ignoreGlob ad ++ rules) ad).
Proof.
  assert (Hstay : forall (r : option error) ad, exists r' rules,
    Returns r ad = Returns r' (set_ignoreGlob (ignoreGlob ad ++ rules) ad)).
  { intros r ad. exists r, []. now rewrite app_nil_r, set_ignoreGlob_same. }
  induction n as [k|entries IH|e|e] using node_ind'; intros path ad.
  - cbn [walk]. unfold buildIgnoreGlob_walkFn, bind at 1, info_IsDir, ret.
    cbn [IsDir]. destruct (fs_open fs path) as [e|data rerr]; [apply Hstay|].
    destruct (scan_file data rerr path) as [lines scErr]. unfold bind.
    destruct (ignore_lines_frame glob_Compile lines ad) as (r & rules & ->).
    destruct r as [e|]; [eauto|]. destruct scErr; eauto.
  - rewrite walk_Dir.
    change (buildIgnoreGlob_walkFn glob_Compile fs path (Some InfoDir) None ad)
      with (Returns (@None error) ad).
    cbv beta iota. now apply walk_range_ignoreGlob_frame.
  - cbn [walk]. apply Hstay.
  - cbn [walk]. apply Hstay.
Qed.

Lemma buildIgnoreGlob_frame (glob_Compile : string -> option (string -> bool))
  (fs : FS) (ad : DebDiff) :
  exists r rules,
    buildIgnoreGlob glob_Compile fs ad
    = Returns r (set_ignoreGlob (ignoreGlob ad ++ rules) ad).
Proof.
  unfold buildIgnoreGlob, filepath_Walk, bind, get.
  destruct (walk_ignoreGlob_frame glob_Compile fs (os_Lstat fs (IgnoreDir ad))
              (IgnoreDir ad) ad) as (r & rules & ->).
  destruct r as [[]|]; unfold ret; eauto.
Qed.

Lemma buildAllFile_frame (fs : FS) (ad : DebDiff) (r : option error)
  (ad' : DebDiff) :
  buildAllFile fs ad = Returns r ad' -> exists files, ad' = set_allFile files ad.
Proof.
  destruct (buildAllFile_run fs ad) as (r0 & files & _ & Hrun). rewrite Hrun.
  destruct r0 as [[]|]; intros H; injection H as _ <-; eexists; reflexivity.
Qed.

Lemma buildRepoFile_frame (fs : FS) (ad : DebDiff) (r : option error)
  (ad' : DebDiff) :
  buildRepoFile fs ad = Returns r ad' -> exists names, ad' = set_repoFile names ad.
Proof.
  unfold buildRepoFile, filepath_Walk, bind, get. intros Hrun.
  destruct (walk buildRepoFile_walkFn (Repo ad) (os_Lstat fs (Repo ad)) ad)
    as [r0 ad1|] eqn:Hwalk; [|discriminate].
  destruct (walk_repoFile_frame _ _ _ _ _ Hwalk) as (names & ->).
  destruct r0 as [[]|]; injection Hrun as _ <-; eexists; reflexivity.
Qed.

Lemma buildPkgFile_frame (fs : FS) (ad : DebDiff) (r : option error)
  (ad' : DebDiff) :
  buildPkgFile fs ad = Returns r ad' -> exists lines, ad' = set_pkgFile lines ad.
Proof.
  assert (Hstay : forall r0, Returns r0 ad = Returns r ad' ->
    exists lines, ad' = set_pkgFile lines ad).
  { intros r0 H. injection H as _ <-. exists (pkgFile ad).
    now rewrite set_pkgFile_same. }
  unfold buildPkgFile, bind, get.
  destruct (fs_glob fs _) as [lists|]; [|apply Hstay].
  destruct (fs_glob fs _) as [conffiles|]; [|apply Hstay].
  destruct (buildPkgFile_range fs (lists ++ conffiles) ad)
    as [r0 ad1|] eqn:Hrange; [|discriminate].
  destruct (buildPkgFile_range_frame _ _ _ _ _ Hrange) as (lines & ->).
  destruct r0; intros H; injection H as _ <-; eexists; reflexivity.
Qed.

Lemma run_steps_cons (step : M (option error)) (rest : list (M (option error)))
  (ad ad' : DebDiff) :
  run_steps (step :: rest) ad = Returns None ad' ->
  exists ad1, step ad = Returns None ad1 /\ run_steps rest ad1 = Returns None ad'.
Proof.
  cbn [run_steps]. unfold bind.
  destruct (step ad) as [[e|] ad1|]; try discriminate. eauto.
Qed.

(** ** The files a walk records *)

Lemma live_files_Dir (ignored : string -> bool) (path : string)
  (entries : list (string * node)) :
  live_files ignored path (Dir entries)
  = if ignored path then [] else live_files_range ignored path entries.
Proof.
  cbn [live_files]. destruct (ignored path); [reflexivity|].
  induction entries as [|[name child] rest IH]; [reflexivity|].
  cbn [live_files_range]. now rewrite IH.
Qed.

Lemma live_files_range_In (ignored : string -> bool) (path : string)
  (entries : list (string * node)) (p : string) :
  In p (live_files_range ignored path entries) <->
  exists name child,
    In (name, child) entries
    /\ In p (live_files ignored (filepath_Join path name) child).
Proof.
  induction entries as [|[name child] rest IH]; cbn [live_files_range].
  - split; [intros []|intros (? & ? & [] & _)].
  - rewrite in_app_iff, IH. split.
    + intros [H|(name' & child' & Hin & H)].
      * exists name, child. split; [now left|exact H].
      * exists name', child'. split; [now right|exact H].
    + intros (name' & child' & [Heq|Hin] & H).
      * injection Heq as <- <-. now left.
      * right. eauto.
Qed.

(** The list [live_files] holds the live files of the relation. *)
Lemma live_files_In (ignored : string -> bool) (n : node) :
  forall path p,
    In p (live_files ignored path n) <-> exists k, live_file ignored path n p k.
Proof.
  induction n as [k|entries IH|e|e] using node_ind'; intros path p.
  - cbn [live_files]. destruct (ignored path) eqn:Hign; split.
    + intros [].
    + intros (k' & H). inversion H; congruence.
    + intros [<-|[]]. exists k. now constructor.
    + intros (k' & H). inversion H; subst. now left.
  - rewrite live_files_Dir. destruct (ignored path) eqn:Hign.
    + split; [intros []|]. intros (k & H). inversion H; congruence.
    + rewrite live_files_range_In. rewrite Forall_forall in IH. split.
      * intros (name & child & Hin & H).
        apply (IH (name, child) Hin) in H. destruct H as (k & H).
        exists k. eapply live_file_below; eauto.
      * intros (k & H). inversion H; subst.
        match goal with
        | Hin : In (?name, ?child) entries |- _ =>
            exists name, child; split; [exact Hin|];
            apply (IH (name, child) Hin); eauto
        end.
  - split; [intros []|]. intros (k & H). inversion H.
  - split; [intros []|]. intros (k & H). inversion H.
Qed.

(** The loop goes on after an entry when the callback answered [nil], or
    [SkipDir] for a directory. *)
Lemma stops_false (child : node) (r : option error) :
  stops child r = false -> r = None \/ r = Some SkipDir.
Proof.
  destruct r as [e|]; [|now left]. intros H. right.
  assert (is_SkipDir e = true).
  { destruct child; cbn [stops node_IsDir negb orb] in H;
      try (apply negb_false_iff in H; exact H); discriminate. }
  now destruct e.
Qed.

Lemma walk_range_allFile_files (path : string) (entries : list (string * node)) :
  Forall (fun entry =>
    forall path ad r ad',
      walk buildAllFile_walkFn path (snd entry) ad = Returns r ad' ->
      r = None \/ r = Some SkipDir ->
      ad' = set_allFile
              (allFile ad ++ live_files (IsIgnored ad) path (snd entry)) ad)
    entries ->
  forall ad r ad',
    walk_range buildAllFile_walkFn path entries ad = Returns r ad' ->
    r = None \/ r = Some SkipDir ->
    r = None
    /\ ad' = set_allFile
               (allFile ad ++ live_files_range (IsIgnored ad) path entries) ad.
Proof.
  induction 1 as [|[name child] rest Hchild _ IH]; intros ad r ad' Hrun Hr.
  - injection Hrun as <- <-. cbn [live_files_range].
    now rewrite app_nil_r, set_allFile_same.
  - rewrite walk_range_cons in Hrun. cbn [snd] in Hchild.
    destruct (walk_allFile child (filepath_Join path name) ad)
      as (r1 & files1 & Hwalk & Hwalked).
    rewrite Hwalk in Hrun.
    destruct (stops child r1) eqn:Hstops.
    + injection Hrun as <- _. exfalso.
      destruct Hr as [->| ->]; [discriminate|].
      cbn [allFile_walked] in Hwalked.
      destruct Hwalked as (_ & _ & entries' & ->). discriminate.
    + pose proof (Hchild _ _ _ _ Hwalk (stops_false _ _ Hstops)) as Heq.
      rewrite Heq in Hrun.
      destruct (IH _ _ _ Hrun Hr) as (-> & ->). split; [reflexivity|].
      cbn [live_files_range allFile set_allFile].
      change (IsIgnored (set_allFile _ ad)) with (IsIgnored ad).
      now rewrite app_assoc.
Qed.

(** What the callback of [buildAllFile] has recorded when the walk of an
    entry ends without error. *)
Lemma walk_allFile_files (n : node) :
  forall path ad r ad',
    walk buildAllFile_walkFn path n ad = Returns r ad' ->
    r = None \/ r = Some SkipDir ->
    ad' = set_allFile (allFile ad ++ live_files (IsIgnored ad) path n) ad.
Proof.
  induction n as [k|entries IH|e|e] using node_ind'; intros path ad r ad' Hrun Hr.
  - cbn [walk] in Hrun. rewrite buildAllFile_walkFn_entry in Hrun.
    cbn [IsDir live_files] in *. destruct (IsIgnored ad path).
    + injection Hrun as _ <-. now rewrite app_nil_r, set_allFile_same.
    + now injection Hrun as _ <-.
  - rewrite walk_Dir, buildAllFile_walkFn_entry in Hrun.
    rewrite live_files_Dir. cbn [IsDir] in Hrun. destruct (IsIgnored ad path).
    + injection Hrun as _ <-. now rewrite app_nil_r, set_allFile_same.
    + now apply (walk_range_allFile_files path entries IH ad r ad').
  - cbn [walk] in Hrun. rewrite buildAllFile_walkFn_error in Hrun.
    injection Hrun as _ <-. cbn [live_files].
    now rewrite app_nil_r, set_allFile_same.
  - cbn [walk] in Hrun. rewrite buildAllFile_walkFn_error in Hrun.
    injection Hrun as _ <-. cbn [live_files].
    now rewrite app_nil_r, set_allFile_same.
Qed.

(** A successful [buildAllFile] has added the live files of the walk, in
    the order of the walk, and sorted the inventory. *)
Lemma buildAllFile_files (fs : FS) (ad ad' : DebDiff) :
  buildAllFile fs ad = Returns None ad' ->
  ad' = set_allFile
          (sort_Strings
             (allFile ad
              ++ live_files (IsIgnored ad) (Root ad) (os_Lstat fs (Root ad)))) ad.
Proof.
  unfold buildAllFile, filepath_Walk, bind, get. intros Hrun.
  destruct (walk buildAllFile_walkFn (Root ad) (os_Lstat fs (Root ad)) ad)
    as [r ad1|] eqn:Hwalk; [|discriminate].
  assert (Hr : r = None \/ r = Some SkipDir)
    by (destruct r as [[]|]; try discriminate; auto).
  rewrite (walk_allFile_files _ _ _ _ _ Hwalk Hr) in Hrun.
  destruct Hr as [-> | ->]; now injection Hrun as <-.
Qed.

Lemma walk_repoFile_result (n : node) (path : string) (ad ad' : DebDiff)
  (e : error) :
  walk buildRepoFile_walkFn path n ad = Returns (Some e) ad' ->
  is_SkipDir e = false.
Proof.
  intros Hwalk. pose proof (walk_repoFile n path ad) as Hw.
  rewrite Hwalk in Hw. cbn [repoFile_walked] in Hw.
  now destruct e.
Qed.

Lemma stops_error (child : node) (e : error) :
  is_SkipDir e = false -> stops child (Some e) = true.
Proof.
  intros H. destruct child; cbn [stops]; rewrite H; cbn [negb];
    try reflexivity; apply orb_true_r.
Qed.

Lemma walk_range_repoFile_names (path : string) (entries : list (string * node)) :
  Forall (fun entry =>
    forall path ad ad',
      walk buildRepoFile_walkFn path (snd entry) ad = Returns None ad' ->
      ad' = set_repoFile
              (repoFile ad
               ++ map (overlay_name (Repo ad))
                    (live_files (fun _ => false) path (snd entry))) ad)
    entries ->
  forall ad ad',
    walk_range buildRepoFile_walkFn path entries ad = Returns None ad' ->
    ad' = set_repoFile
            (repoFile ad
             ++ map (overlay_name (Repo ad))
                  (live_files_range (fun _ => false) path entries)) ad.
Proof.
  induction 1 as [|[name child] rest Hchild _ IH]; intros ad ad' Hrun.
  - injection Hrun as <-. cbn [live_files_range map].
    now rewrite app_nil_r, set_repoFile_same.
  - rewrite walk_range_cons in Hrun. cbn [snd] in Hchild.
    destruct (walk buildRepoFile_walkFn (filepath_Join path name) child ad)
      as [[e|] ad1|] eqn:Hwalk; [| |discriminate].
    + rewrite (stops_error child e (walk_repoFile_result _ _ _ _ _ Hwalk)) in Hrun.
      discriminate.
    + cbn [stops] in Hrun. rewrite (Hchild _ _ _ Hwalk) in Hrun.
      rewrite (IH _ _ Hrun). cbn [live_files_range repoFile set_repoFile Repo].
      now rewrite map_app, app_assoc.
Qed.

(** What the callback of [buildRepoFile] has recorded when the walk of an
    entry ends without error: the names of the files, in the order of the
    walk. *)
Lemma walk_repoFile_names (n : node) :
  forall path ad ad',
    walk buildRepoFile_walkFn path n ad = Returns None ad' ->
    ad' = set_repoFile
            (repoFile ad
             ++ map (overlay_name (Repo ad)) (live_files (fun _ => false) path n))
            ad.
Proof.
  induction n as [k|entries IH|e|e] using node_ind'; intros path ad ad' Hrun.
  - cbn [walk] in Hrun.
    unfold buildRepoFile_walkFn, bind, info_IsDir, ret, get, modify in Hrun.
    cbn [IsDir] in Hrun. cbn [live_files map]. unfold overlay_name.
    destruct (GoString.first (strings_Replace1 path (Repo ad) ""));
      [|discriminate].
    now injection Hrun as <-.
  - rewrite walk_Dir in Hrun.
    change (buildRepoFile_walkFn path (Some InfoDir) None ad)
      with (Returns (@None error) ad) in Hrun.
    cbv beta iota in Hrun. rewrite live_files_Dir.
    now apply walk_range_repoFile_names.
  - cbn [walk] in Hrun. rewrite buildRepoFile_walkFn_error in Hrun. discriminate.
  - cbn [walk] in Hrun. rewrite buildRepoFile_walkFn_error in Hrun. discriminate.
Qed.

Lemma buildRepoFile_names (fs : FS) (ad ad' : DebDiff) :
  buildRepoFile fs ad = Returns None ad' ->
  ad' = set_repoFile
          (sort_Strings
             (repoFile ad
              ++ map (overlay_name (Repo ad))
                   (live_files (fun _ => false) (Repo ad)
                      (os_Lstat fs (Repo ad))))) ad.
Proof.
  unfold buildRepoFile, filepath_Walk, bind, get. intros Hrun.
  destruct (walk buildRepoFile_walkFn (Repo ad) (os_Lstat fs (Repo ad)) ad)
    as [[e|] ad1|] eqn:Hwalk; [| |discriminate].
  - pose proof (walk_repoFile_result _ _ _ _ _ Hwalk) as He.
    destruct e; discriminate.
  - rewrite (walk_repoFile_names _ _ _ _ Hwalk) in Hrun.
    now injection Hrun as <-.
Qed.

Lemma buildPkgFile_range_lines (fs : FS) (lists : list string) :
  forall ad ad',
    buildPkgFile_range fs lists ad = Returns None ad' ->
    ad' = set_pkgFile (pkgFile ad ++ flat_map (manifest_lines fs) lists) ad.
Proof.
  induction lists as [|list rest IH]; intros ad ad' Hrun.
  - injection Hrun as <-. cbn [flat_map].
    now rewrite app_nil_r, set_pkgFile_same.
  - cbn [buildPkgFile_range] in Hrun. cbn [flat_map]. unfold manifest_lines at 1.
    destruct (fs_open fs list) as [e|data rerr]; [discriminate|].
    destruct (scan_file data rerr list) as [lines scErr].
    unfold bind, modify in Hrun. destruct scErr as [e|]; [discriminate|].
    rewrite (IH _ _ Hrun). cbn [pkgFile set_pkgFile fst].
    now rewrite app_assoc.
Qed.

Lemma buildPkgFile_lines (fs : FS) (ad ad' : DebDiff) :
  buildPkgFile fs ad = Returns None ad' ->
  exists lists conffiles,
    fs_glob fs (filepath_Join (Root ad) "var/lib/dpkg/info" ++ "/*.list")%string
    = Some lists
    /\ fs_glob fs (filepath_Join (Root ad) "var/lib/dpkg/info" ++ "/*.conffiles")%string
       = Some conffiles
    /\ ad' = set_pkgFile
               (sort_Strings
                  (pkgFile ad
                   ++ flat_map (manifest_lines fs) (lists ++ conffiles))) ad.
Proof.
  unfold buildPkgFile, bind, get. intros Hrun.
  destruct (fs_glob fs _) as [lists|]; [|discriminate].
  destruct (fs_glob fs _) as [conffiles|]; [|discriminate].
  exists lists, conffiles. split; [reflexivity|split; [reflexivity|]].
  destruct (buildPkgFile_range fs (lists ++ conffiles) ad)
    as [[e|] ad1|] eqn:Hrange; try discriminate.
  rewrite (buildPkgFile_range_lines _ _ _ _ Hrange) in Hrun.
  now injection Hrun as <-.
Qed.

(** ** The paths of a walk *)

Lemma proper_tree_Dir (entries : list (string * node)) :
  proper_tree (Dir entries)
  = forallb proper_name (map fst entries) && distinct (map fst entries)
    && forallb (fun entry => proper_tree (snd entry)) entries.
Proof.
  cbn [proper_tree]. f_equal.
  induction entries as [|[name child] rest IH]; [reflexivity|].
  cbn [forallb snd]. now rewrite IH.
Qed.

Lemma app_cons_inj {A : Type} (e1 e2 out : list A) (a b : A) :
  e1 ++ a :: out = e2 ++ b :: out -> a = b.
Proof.
  intros H.
  assert (H' : (e1 ++ [a]) ++ out = (e2 ++ [b]) ++ out)
    by now rewrite <- !app_assoc.
  apply app_inv_tail in H'. now apply app_inj_tail in H'.
Qed.

(** The paths of the live files below a directory whose entries bear
    proper names: each is the path of the directory with further elements,
    the name of an entry first, and no path occurs twice. *)
Lemma live_files_range_paths (ignored : string -> bool) (rooted : bool)
  (out : list string) (path : string) (entries : list (string * node)) :
  normal rooted out ->
  (forall name, proper_name name = true ->
     filepath_Join path name = clean_render rooted (name :: out)) ->
  forallb proper_name (map fst entries) = true ->
  distinct (map fst entries) = true ->
  Forall (fun entry =>
    forall path rooted out,
      normal rooted out ->
      (forall name, proper_name name = true ->
         filepath_Join path name = clean_render rooted (name :: out)) ->
      NoDup (live_files ignored path (snd entry))
      /\ forall p, In p (live_files ignored path (snd entry)) ->
           (p = path /\ exists k, snd entry = File k)
           \/ exists ext name,
                p = clean_render rooted (ext ++ name :: out)
                /\ normal rooted (ext ++ name :: out)) entries ->
  NoDup (live_files_range ignored path entries)
  /\ forall p, In p (live_files_range ignored path entries) ->
       exists ext name,
         In name (map fst entries)
         /\ p = clean_render rooted (ext ++ name :: out)
         /\ normal rooted (ext ++ name :: out).
Proof.
  intros Hout Hjoin Hnames Hdistinct Hchildren.
  induction Hchildren as [|[name child] rest Hchild _ IH].
  - split; [constructor|intros p []].
  - cbn [map fst forallb distinct] in Hnames, Hdistinct.
    apply andb_true_iff in Hnames, Hdistinct.
    destruct Hnames as (Hname & Hnames). destruct Hdistinct as (Hfresh & Hdistinct).
    destruct (IH Hnames Hdistinct) as (Hnodup & Hbelow). clear IH.
    cbn [snd] in Hchild.
    assert (Hnormal : normal rooted (name :: out))
      by (cbn [normal]; split; [exact Hout|now left]).
    destruct (Hchild (filepath_Join path name) rooted (name :: out) Hnormal)
      as (Hnodup1 & Hbelow1).
    { intros name' Hname'. rewrite (Hjoin name Hname).
      now apply filepath_Join_clean. }
    assert (Hhere : forall p,
      In p (live_files ignored (filepath_Join path name) child) ->
      exists ext,
        p = clean_render rooted (ext ++ name :: out)
        /\ normal rooted (ext ++ name :: out)).
    { intros p Hp. destruct (Hbelow1 p Hp) as [(-> & _)|(ext & name' & -> & Hn)].
      - exists []. split; [now apply Hjoin|exact Hnormal].
      - exists (ext ++ [name']). now rewrite <- app_assoc. }
    cbn [live_files_range]. split.
    + apply NoDup_app; [exact Hnodup1|exact Hnodup|].
      intros p Hp1 Hp2.
      destruct (Hhere p Hp1) as (ext1 & -> & Hn1).
      destruct (Hbelow _ Hp2) as (ext2 & name2 & Hin2 & Heq & Hn2).
      apply clean_render_inj in Heq; [|assumption|assumption].
      apply app_cons_inj in Heq. subst name2.
      apply negb_true_iff, not_true_iff_false in Hfresh. apply Hfresh.
      now apply inb_In.
    + intros p Hp. apply in_app_iff in Hp. destruct Hp as [Hp|Hp].
      * destruct (Hhere p Hp) as (ext & -> & Hn).
        exists ext, name. repeat split; [now left|exact Hn].
      * destruct (Hbelow p Hp) as (ext & name' & Hin & -> & Hn).
        exists ext, name'. repeat split; [now right|exact Hn].
Qed.

Lemma live_files_paths (ignored : string -> bool) (n : node) :
  proper_tree n = true ->
  forall path rooted out,
    normal rooted out ->
    (forall name, proper_name name = true ->
       filepath_Join path name = clean_render rooted (name :: out)) ->
    NoDup (live_files ignored path n)
    /\ forall p, In p (live_files ignored path n) ->
         (p = path /\ exists k, n = File k)
         \/ exists ext name,
              p = clean_render rooted (ext ++ name :: out)
              /\ normal rooted (ext ++ name :: out).
Proof.
  induction n as [k|entries IH|e|e] using node_ind';
    intros Hproper path rooted out Hout Hjoin.
  - cbn [live_files]. destruct (ignored path).
    + split; [constructor|intros p []].
    + split; [repeat constructor; intros []|].
      intros p [<-|[]]. left. eauto.
  - rewrite live_files_Dir. destruct (ignored path).
    + split; [constructor|intros p []].
    + rewrite proper_tree_Dir in Hproper.
      apply andb_true_iff in Hproper. destruct Hproper as (Hproper & Hchildren).
      apply andb_true_iff in Hproper. destruct Hproper as (Hnames & Hdistinct).
      rewrite forallb_forall in Hchildren. rewrite Forall_forall in IH.
      destruct (live_files_range_paths ignored rooted out path entries
                  Hout Hjoin Hnames Hdistinct) as (Hnodup & Hbelow).
      { apply Forall_forall. intros entry Hin. apply (IH entry Hin).
        now apply Hchildren. }
      split; [exact Hnodup|]. intros p Hp. right.
      destruct (Hbelow p Hp) as (ext & name & _ & H). eauto.
  - split; [constructor|intros p []].
  - split; [constructor|intros p []].
Qed.

(** A walk that starts on a directory reaches no file under the path it
    started with, nor under the empty path. *)
Lemma live_files_below_root (ignored : string -> bool) (root : string)
  (entries : list (string * node)) (p : string) :
  proper_tree (Dir entries) = true -> root <> "" ->
  In p (live_files ignored root (Dir entries)) -> p <> "" /\ p <> root.
Proof.
  intros Hproper Hroot Hp.
  destruct (live_files_paths ignored (Dir entries) Hproper root
              (is_rooted root) (clean_elems root) (clean_elems_normal root))
    as (_ & Hbelow).
  { intros name Hname. now apply filepath_Join_name. }
  destruct (Hbelow p Hp) as [(_ & k & H)|(ext & name & -> & Hn)];
    [discriminate|].
  split; [apply clean_render_not_empty|]. intros Heq.
  pose proof (proj2 (clean_render_elems _ _ Hn)) as Helems.
  rewrite Heq in Helems. apply (f_equal (@length string)) in Helems.
  rewrite length_app in Helems. cbn [length] in Helems. lia.
Qed.

Lemma live_files_NoDup (ignored : string -> bool) (fs : FS) (root : string) :
  proper_tree (os_Lstat fs root) = true ->
  NoDup (live_files ignored root (os_Lstat fs root)).
Proof.
  intros Hproper. destruct (String.eqb_spec root "") as [->|Hroot].
  - cbn. constructor.
  - apply (live_files_paths ignored _ Hproper root (is_rooted root)
             (clean_elems root) (clean_elems_normal root)).
    intros name Hname. now apply filepath_Join_name.
Qed.

(** The overlay walk panics only at a file whose path leaves nothing when
    the overlay path is stripped from it. *)
Lemma walk_range_repoFile_panics (path : string) (entries : list (string * node)) :
  Forall (fun entry =>
    forall path ad,
      walk buildRepoFile_walkFn path (snd entry) ad = Panics ->
      exists p,
        In p (live_files (fun _ => false) path (snd entry))
        /\ strings_Replace1 p (Repo ad) "" = "") entries ->
  forall ad,
    walk_range buildRepoFile_walkFn path entries ad = Panics ->
    exists p,
      In p (live_files_range (fun _ => false) path entries)
      /\ strings_Replace1 p (Repo ad) "" = "".
Proof.
  induction 1 as [|[name child] rest Hchild _ IH]; intros ad Hrun;
    [discriminate|].
  rewrite walk_range_cons in Hrun. cbn [snd] in Hchild.
  cbn [live_files_range].
  destruct (walk buildRepoFile_walkFn (filepath_Join path name) child ad)
    as [r1 ad1|] eqn:Hwalk.
  - destruct (stops child r1); [discriminate|].
    destruct (walk_repoFile_frame _ _ _ _ _ Hwalk) as (names & ->).
    destruct (IH _ Hrun) as (p & Hp & Hempty).
    exists p. split; [apply in_app_iff; now right|exact Hempty].
  - destruct (Hchild _ _ Hwalk) as (p & Hp & Hempty).
    exists p. split; [apply in_app_iff; now left|exact Hempty].
Qed.

Lemma walk_repoFile_panics (n : node) :
  forall path ad,
    walk buildRepoFile_walkFn path n ad = Panics ->
    exists p,
      In p (live_files (fun _ => false) path n)
      /\ strings_Replace1 p (Repo ad) "" = "".
Proof.
  induction n as [k|entries IH|e|e] using node_ind'; intros path ad Hrun.
  - cbn [walk] in Hrun.
    unfold buildRepoFile_walkFn, bind, info_IsDir, ret, get, modify in Hrun.
    cbn [IsDir] in Hrun.
    destruct (GoString.first (strings_Replace1 path (Repo ad) "")) eqn:Hfirst;
      [discriminate|].
    exists path. split; [now left|now apply first_None].
  - rewrite walk_Dir in Hrun.
    change (buildRepoFile_walkFn path (Some InfoDir) None ad)
      with (Returns (@None error) ad) in Hrun.
    cbv beta iota in Hrun. rewrite live_files_Dir.
    now apply walk_range_repoFile_panics.
  - cbn [walk] in Hrun. rewrite buildRepoFile_walkFn_error in Hrun. discriminate.
  - cbn [walk] in Hrun. rewrite buildRepoFile_walkFn_error in Hrun. discriminate.
Qed.

(** On a tree of proper names an error of the overlay walk ends
    [buildRepoFile] with that error: the walk started on a directory, and
    no file below it bears the overlay path. *)
Lemma buildRepoFile_error (fs : FS) (ad : DebDiff) (err : error) :
  proper_tree (os_Lstat fs (Repo ad)) = true ->
  live_error (fun _ => false) (Repo ad) (os_Lstat fs (Repo ad)) err ->
  exists err' names,
    buildRepoFile fs ad
    = Returns (Some (errors_Wrap (errors_Wrap err' "walking repo files")
                       "walking repo files"))
        (set_repoFile (repoFile ad ++ names) ad)
    /\ live_error (fun _ => false) (Repo ad) (os_Lstat fs (Repo ad)) err'.
Proof.
  intros Hproper Hlive.
  destruct (buildRepoFile_fatal fs ad err Hlive)
    as [Hpanic|(err' & ad' & Hrun & Hlive')].
  - exfalso. unfold buildRepoFile, filepath_Walk, bind, get in Hpanic.
    destruct (walk buildRepoFile_walkFn (Repo ad) (os_Lstat fs (Repo ad)) ad)
      as [[[]|] ad1|] eqn:Hwalk; try discriminate.
    apply walk_repoFile_panics in Hwalk. destruct Hwalk as (p & Hp & Hempty).
    unfold os_Lstat in *.
    destruct (String.eqb_spec (Repo ad) "") as [Heq|Hne]; [destruct Hp|].
    cbv beta iota in Hp, Hlive, Hproper.
    destruct (fs_tree fs (Repo ad)) as [k|entries|e|e];
      [inversion Hlive| |destruct Hp|destruct Hp].
    apply (live_files_below_root _ _ _ _ Hproper Hne) in Hp.
    apply strings_Replace1_empty in Hempty. tauto.
  - exists err'.
    assert (exists names, ad' = set_repoFile (repoFile ad ++ names) ad)
      as (names & ->).
    { unfold buildRepoFile, filepath_Walk, bind, get in Hrun.
      destruct (walk buildRepoFile_walkFn (Repo ad) (os_Lstat fs (Repo ad)) ad)
        as [r ad1|] eqn:Hwalk; [|discriminate].
      destruct (walk_repoFile_frame _ _ _ _ _ Hwalk) as (names & ->).
      exists names.
      destruct r as [[]|]; try discriminate; injection Hrun; intros; now subst. }
    exists names. split; assumption.
Qed.

(** Below an overlay path that is absolute and in clean form, the name of
    a file is the path from the overlay directory to it. *)
Lemma overlay_name_below (out l : list string) :
  normal true (l ++ out) -> l <> [] ->
  overlay_name (clean_render true out) (clean_render true (l ++ out))
  = clean_render true l.
Proof.
  intros Hn Hl.
  assert (Hrev : rev l <> [])
    by (intros H; apply Hl; apply (f_equal (@rev string)) in H;
        now rewrite rev_involutive in H).
  destruct (concat_first_char (rev l) Hrev) as (c & Hfirst & Hc).
  { rewrite rev_involutive. now apply normal_rooted_app in Hn. }
  unfold clean_render, overlay_name. rewrite rev_app_distr.
  destruct (rev out) as [|x rest] eqn:Hout.
  - cbn [app String.concat]. change ("/" ++ "")%string with "/".
    rewrite (strings_Replace1_prefix "/" (String.concat "/" (rev l))).
    now rewrite Hfirst, Hc.
  - rewrite concat_app by (assumption || discriminate).
    rewrite <- string_app_assoc.
    rewrite (strings_Replace1_prefix ("/" ++ String.concat "/" (x :: rest))
               ("/" ++ String.concat "/" (rev l))).
    reflexivity.
Qed.

Lemma NoDup_map_on {A B : Type} (f : A -> B) (l : list A) :
  (forall x y, In x l -> In y l -> f x = f y -> x = y) ->
  NoDup l -> NoDup (map f l).
Proof.
  intros Hinj Hl. induction Hl as [|x l Hx Hl IH]; cbn [map]; constructor.
  - intros Hin. apply in_map_iff in Hin. destruct Hin as (y & Heq & Hy).
    apply Hx. rewrite (Hinj x y); [exact Hy|now left|now right|now symmetry].
  - apply IH. intros a b Ha Hb. apply Hinj; now right.
Qed.

(** The names of the overlay inventory are distinct when the overlay path
    is absolute and in clean form. *)
Lemma overlay_names_NoDup (fs : FS) (repo : string) :
  is_rooted repo = true -> filepath_Clean repo = repo ->
  proper_tree (os_Lstat fs repo) = true ->
  NoDup (map (overlay_name repo)
           (live_files (fun _ => false) repo (os_Lstat fs repo))).
Proof.
  intros Hrooted Hclean Hproper.
  assert (Hne : repo <> "") by (intros ->; discriminate).
  pose proof (clean_elems_normal repo) as Hn. rewrite Hrooted in Hn.
  destruct (live_files_paths (fun _ => false) _ Hproper repo true
              (clean_elems repo) Hn) as (Hnodup & Hbelow).
  { intros name Hname. rewrite <- Hrooted. now apply filepath_Join_name. }
  destruct (os_Lstat fs repo) as [k|entries|e|e] eqn:Hroot;
    try (cbn; repeat constructor; intros []).
  apply NoDup_map_on; [|exact Hnodup].
  assert (Hname : forall p,
    In p (live_files (fun _ => false) repo (Dir entries)) ->
    exists l,
      p = clean_render true (l ++ clean_elems repo)
      /\ normal true l
      /\ overlay_name repo p = clean_render true l).
  { intros p Hp.
    destruct (Hbelow p Hp) as [(_ & k & H)|(ext & name & -> & Hnp)];
      [discriminate|].
    exists (ext ++ [name]). rewrite <- app_assoc. cbn [app].
    split; [reflexivity|].
    assert (Hnp' : normal true ((ext ++ [name]) ++ clean_elems repo))
      by (now rewrite <- app_assoc).
    split; [now apply normal_rooted_app in Hnp'|].
    rewrite <- Hclean at 1. rewrite filepath_Clean_render, Hrooted.
    replace (ext ++ name :: clean_elems repo)
      with ((ext ++ [name]) ++ clean_elems repo) by (now rewrite <- app_assoc).
    apply overlay_name_below; [exact Hnp'|now destruct ext]. }
  intros p q Hp Hq Heq.
  destruct (Hname p Hp) as (lp & -> & Hnp & Hfp).
  destruct (Hname q Hq) as (lq & -> & Hnq & Hfq).
  rewrite Hfp, Hfq in Heq. apply clean_render_inj in Heq; [|assumption..].
  now subst.
Qed.

Lemma String_ltb_le (a b : string) :
  str_le a b -> a <> b -> String.ltb a b = true.
Proof.
  intros Hle Hne. apply str_le_cases in Hle. destruct Hle as [->|Hlt];
    [congruence|]. unfold String.ltb. now rewrite Hlt.
Qed.

Lemma sorted_NoDup_dedup (l : list string) :
  sorted l -> NoDup l -> sorted_dedup l.
Proof.
  unfold sorted, sorted_dedup. induction 1 as [|a l Hl IH Hhd]; intros Hnodup;
    [constructor|].
  apply NoDup_cons_iff in Hnodup. destruct Hnodup as (Ha & Hnodup).
  constructor; [now apply IH|].
  destruct Hhd as [|b l Hab]; constructor.
  apply String_ltb_le; [exact Hab|]. intros ->. apply Ha. now left.
Qed.

Lemma sort_Strings_dedup (l : list string) :
  NoDup l -> sorted_dedup (sort_Strings l) /\ NoDup (sort_Strings l).
Proof.
  intros Hl.
  assert (NoDup (sort_Strings l))
    by (eapply Permutation_NoDup; [symmetry; apply sort_Strings_perm|exact Hl]).
  split; [apply sorted_NoDup_dedup; [apply sort_Strings_sorted|]|]; assumption.
Qed.

(** ** Claim on the errors of the two walks *)

(** C7: the two walks treat errors differently.  The callback of the
    filesystem walk answers a permission error with [nil], so that the
    entry is skipped, and any other error with that error wrapped; the
    callback of the overlay walk answers every error with that error
    wrapped.  Hence, when every error the filesystem walk meets is a
    permission error, [buildAllFile] succeeds and has recorded all the live
    files of the walk: nothing but the entries that failed is left out.
    When the walk meets another error, [buildAllFile] returns such an
    error, wrapped, and leaves the inventory unsorted.  [buildRepoFile]
    returns the error, wrapped, whenever its walk meets one, a permission
    error included; the tree is one of proper names, as a file system has
    them, so that no file bears the overlay path and the walk does not
    panic before it meets the error. *)
Theorem walk_error_policy (fs : FS) (ad : DebDiff) :
  (forall path info e ad0,
     buildAllFile_walkFn path info (Some e) ad0
     = Returns (if os_IsPermission e then None
                else Some (errors_Wrap e "walking all files")) ad0)
  /\ (forall path info e ad0,
        buildRepoFile_walkFn path info (Some e) ad0
        = Returns (Some (errors_Wrap e "walking repo files")) ad0)
  /\ ((forall err,
         live_error (IsIgnored ad) (Root ad) (os_Lstat fs (Root ad)) err ->
         os_IsPermission err = true) ->
      buildAllFile fs ad
      = Returns None
          (set_allFile
             (sort_Strings
                (allFile ad
                 ++ live_files (IsIgnored ad) (Root ad) (os_Lstat fs (Root ad))))
             ad)
      /\ forall p,
           In p (live_files (IsIgnored ad) (Root ad) (os_Lstat fs (Root ad))) <->
           exists k, live_file (IsIgnored ad) (Root ad) (os_Lstat fs (Root ad)) p k)
  /\ (forall err,
        live_error (IsIgnored ad) (Root ad) (os_Lstat fs (Root ad)) err ->
        os_IsPermission err = false ->
        exists err' files,
          buildAllFile fs ad
          = Returns (Some (errors_Wrap (errors_Wrap err' "walking all files")
                             "walking all files"))
              (set_allFile (allFile ad ++ files) ad)
          /\ live_error (IsIgnored ad) (Root ad) (os_Lstat fs (Root ad)) err'
          /\ os_IsPermission err' = false)
  /\ (forall err,
        proper_tree (os_Lstat fs (Repo ad)) = true ->
        live_error (fun _ => false) (Repo ad) (os_Lstat fs (Repo ad)) err ->
        exists err' names,
          buildRepoFile fs ad
          = Returns (Some (errors_Wrap (errors_Wrap err' "walking repo files")
                             "walking repo files"))
              (set_repoFile (repoFile ad ++ names) ad)
          /\ live_error (fun _ => false) (Repo ad) (os_Lstat fs (Repo ad)) err').
Proof.
  split; [exact buildAllFile_walkFn_error|].
  split; [exact buildRepoFile_walkFn_error|].
  destruct (buildAllFile_run fs ad) as (r & files & Hw & Hrun).
  split; [|split].
  - intros Hperm. split; [|intros p; apply live_files_In].
    assert (Hnone : buildAllFile fs ad
                    = Returns None
                        (set_allFile (sort_Strings (allFile ad ++ files)) ad)).
    { rewrite Hrun.
      destruct r as [[]|]; simpl in Hw; try contradiction; try reflexivity.
      destruct Hw as (_ & Hlive & Hno). rewrite (Hperm _ Hlive) in Hno.
      discriminate. }
    rewrite Hnone. f_equal. now apply buildAllFile_files.
  - intros err Hlive Hno. rewrite Hrun.
    destruct r as [[]|]; simpl in Hw; try contradiction.
    + destruct Hw as (_ & Hign & entries & Hroot). rewrite Hroot in Hlive.
      inversion Hlive; congruence.
    + destruct Hw as (-> & Hlive' & Hno'). do 2 eexists.
      split; [reflexivity|]. split; assumption.
    + destruct Hw as (_ & Hperm). rewrite (Hperm _ Hlive) in Hno. discriminate.
  - intros err. apply buildRepoFile_error.
Qed.

Lemma walk_error_policy_witness :
  buildAllFile sample_fs sample_ad
  = Returns None (set_allFile ["/etc/foobar"; "/etc/mtab"] sample_ad)
  /\ buildAllFile io_error_fs default_flags
     = Returns
         (Some (errors_Wrap
                  (errors_Wrap (PathError "lstat" "/mnt" EIO) "walking all files")
                  "walking all files"))
         (set_allFile ["/etc/hosts"] default_flags)
  /\ (exists err' files,
        buildAllFile io_error_fs default_flags
        = Returns (Some (errors_Wrap (errors_Wrap err' "walking all files")
                           "walking all files"))
            (set_allFile (allFile default_flags ++ files) default_flags)
        /\ live_error (IsIgnored default_flags) (Root default_flags)
             (os_Lstat io_error_fs (Root default_flags)) err'
        /\ os_IsPermission err' = false)
  /\ buildRepoFile sample_fs sample_ad
     = Returns
         (Some (errors_Wrap
                  (errors_Wrap (PathError "open" "/usr/share/debdiff/private" EACCES)
                     "walking repo files")
                  "walking repo files"))
         (set_repoFile ["/etc/foobar"] sample_ad)
  /\ exists err' names,
       buildRepoFile sample_fs sample_ad
       = Returns (Some (errors_Wrap (errors_Wrap err' "walking repo files")
                          "walking repo files"))
           (set_repoFile (repoFile sample_ad ++ names) sample_ad)
       /\ live_error (fun _ => false) (Repo sample_ad)
            (os_Lstat sample_fs (Repo sample_ad)) err'.
Proof.
  destruct (walk_error_policy sample_fs sample_ad) as (_ & _ & Hall & _ & Hrepo).
  destruct (walk_error_policy io_error_fs default_flags)
    as (_ & _ & _ & Hfatal & _).
  split; [|split; [reflexivity|split; [|split; [reflexivity|]]]].
  - apply Hall. intros err Hlive.
    change (os_Lstat sample_fs (Root sample_ad)) with sample_root in Hlive.
    unfold sample_root in Hlive. live_cases; try discriminate; reflexivity.
  - apply (Hfatal (PathError "lstat" "/mnt" EIO)); [|reflexivity].
    change (os_Lstat io_error_fs (Root default_flags)) with io_error_root.
    unfold io_error_root.
    apply live_error_below with (name := "mnt") (child := NoStat EIO);
      [reflexivity|simpl; auto|].
    apply (live_error_lstat _ "/mnt" EIO).
  - apply (Hrepo (PathError "open" "/usr/share/debdiff/private" EACCES));
      [reflexivity|].
    change (os_Lstat sample_fs (Repo sample_ad)) with sample_repo.
    unfold sample_repo.
    apply live_error_below with (name := "private") (child := DirUnreadable EACCES);
      [reflexivity|simpl; auto|].
    apply (live_error_readdir _ "/usr/share/debdiff/private" EACCES).
Defined.

(** ** Claim on the inventories *)

(** C9, as the code has it.  A builder that has succeeded leaves its
    inventory sorted, holding what was in it together with exactly what the
    builder collected: the live files of the walk of the root, the names of
    the files of the overlay walk, the lines of the manifests.  Nothing is
    removed and nothing is deduplicated.  The filesystem inventory built
    from an empty one on a tree of proper names holds every path once, and
    so does the overlay inventory when the overlay path is absolute and in
    clean form.  No method changes an inventory other than its own, whether
    it succeeds or fails, and the two passes change none.  In the run of
    [Main] the set-difference pass finds the three inventories sorted, each
    as its builder left it, and leaves them as they are. *)
Theorem inventories_sorted_and_kept
  (glob_Compile : string -> option (string -> bool))
  (md5hex : string -> string) (fs : FS) (ad : DebDiff) :
  (forall ad',
     buildAllFile fs ad = Returns None ad' ->
     ad' = set_allFile
             (sort_Strings
                (allFile ad
                 ++ live_files (IsIgnored ad) (Root ad) (os_Lstat fs (Root ad))))
             ad
     /\ sorted (allFile ad')
     /\ (allFile ad = [] -> proper_tree (os_Lstat fs (Root ad)) = true ->
         sorted_dedup (allFile ad') /\ NoDup (allFile ad')))
  /\ (forall ad',
        buildRepoFile fs ad = Returns None ad' ->
        ad' = set_repoFile
                (sort_Strings
                   (repoFile ad
                    ++ map (overlay_name (Repo ad))
                         (live_files (fun _ => false) (Repo ad)
                            (os_Lstat fs (Repo ad))))) ad
        /\ sorted (repoFile ad')
        /\ (repoFile ad = [] -> proper_tree (os_Lstat fs (Repo ad)) = true ->
            is_rooted (Repo ad) = true -> filepath_Clean (Repo ad) = Repo ad ->
            sorted_dedup (repoFile ad') /\ NoDup (repoFile ad')))
  /\ (forall ad',
        buildPkgFile fs ad = Returns None ad' ->
        exists lists conffiles,
          fs_glob fs
            (filepath_Join (Root ad) "var/lib/dpkg/info" ++ "/*.list")%string
          = Some lists
          /\ fs_glob fs
               (filepath_Join (Root ad) "var/lib/dpkg/info" ++ "/*.conffiles")%string
             = Some conffiles
          /\ ad' = set_pkgFile
                     (sort_Strings
                        (pkgFile ad
                         ++ flat_map (manifest_lines fs) (lists ++ conffiles)))
                     ad
          /\ sorted (pkgFile ad'))
  /\ (forall r ad',
        buildIgnoreGlob glob_Compile fs ad = Returns r ad' ->
        keeps_inventories ad ad')
  /\ (forall r ad',
        buildAllFile fs ad = Returns r ad' ->
        repoFile ad' = repoFile ad /\ pkgFile ad' = pkgFile ad)
  /\ (forall r ad',
        buildRepoFile fs ad = Returns r ad' ->
        allFile ad' = allFile ad /\ pkgFile ad' = pkgFile ad)
  /\ (forall r ad',
        buildPkgFile fs ad = Returns r ad' ->
        allFile ad' = allFile ad /\ repoFile ad' = repoFile ad)
  /\ (forall r ad',
        buildUnpackagedFile ad = Returns r ad' -> keeps_inventories ad ad')
  /\ (forall r ad',
        buildDiffRepoFile md5hex fs ad = Returns r ad' ->
        keeps_inventories ad ad')
  /\ (forall out ad',
        Main glob_Compile fs ad = Returns (out, None) ad' ->
        exists ad4,
          run_steps [buildIgnoreGlob glob_Compile fs; buildAllFile fs;
                     buildRepoFile fs; buildPkgFile fs] ad
          = Returns None ad4
          /\ buildUnpackagedFile ad4 = Returns None ad'
          /\ sorted (allFile ad4) /\ sorted (repoFile ad4)
          /\ sorted (pkgFile ad4)
          /\ allFile ad4
             = sort_Strings
                 (allFile ad
                  ++ live_files (IsIgnored ad4) (Root ad) (os_Lstat fs (Root ad)))
          /\ repoFile ad4
             = sort_Strings
                 (repoFile ad
                  ++ map (overlay_name (Repo ad))
                       (live_files (fun _ => false) (Repo ad)
                          (os_Lstat fs (Repo ad))))
          /\ (exists lists conffiles,
                pkgFile ad4
                = sort_Strings
                    (pkgFile ad
                     ++ flat_map (manifest_lines fs) (lists ++ conffiles)))
          /\ keeps_inventories ad4 ad').
Proof.
  assert (Hunpackaged : forall ad0 r ad',
    buildUnpackagedFile ad0 = Returns r ad' -> keeps_inventories ad0 ad').
  { intros ad0 r ad' Hrun. unfold buildUnpackagedFile, bind, get in Hrun.
    destruct (buildUnpackagedFile_range_frame (allFile ad0) ad0) as (out & Heq).
    rewrite Heq in Hrun. injection Hrun as _ <-. now repeat split. }
  repeat apply conj.
  - intros ad' Hrun. rewrite (buildAllFile_files fs ad ad' Hrun).
    cbn [allFile set_allFile]. split; [reflexivity|].
    split; [apply sort_Strings_sorted|].
    intros Hempty Hproper. rewrite Hempty. cbn [app].
    apply sort_Strings_dedup. now apply live_files_NoDup.
  - intros ad' Hrun. rewrite (buildRepoFile_names fs ad ad' Hrun).
    cbn [repoFile set_repoFile]. split; [reflexivity|].
    split; [apply sort_Strings_sorted|].
    intros Hempty Hproper Hrooted Hclean. rewrite Hempty. cbn [app].
    apply sort_Strings_dedup. now apply overlay_names_NoDup.
  - intros ad' Hrun.
    destruct (buildPkgFile_lines fs ad ad' Hrun)
      as (lists & conffiles & Hlists & Hconf & ->).
    exists lists, conffiles. repeat split; try assumption.
    apply sort_Strings_sorted.
  - intros r ad'.
    destruct (buildIgnoreGlob_frame glob_Compile fs ad) as (r0 & rules & ->).
    intros H. injection H as _ <-. now repeat split.
  - intros r ad' Hrun.
    destruct (buildAllFile_frame _ _ _ _ Hrun) as (files & ->). now split.
  - intros r ad' Hrun.
    destruct (buildRepoFile_frame _ _ _ _ Hrun) as (names & ->). now split.
  - intros r ad' Hrun.
    destruct (buildPkgFile_frame _ _ _ _ Hrun) as (lines & ->). now split.
  - apply Hunpackaged.
  - intros r ad' Hrun. unfold buildDiffRepoFile, bind, get in Hrun.
    destruct (buildDiffRepoFile_range_frame _ _ _ _ _ _ Hrun) as (diverging & ->).
    now repeat split.
  - intros out ad' Hmain. unfold Main, bind at 1, get in Hmain.
    destruct (if String.eqb (CpuProfile ad) "" then None
              else fs_create fs (CpuProfile ad)); [discriminate|].
    unfold bind at 1 in Hmain.
    destruct (run_steps _ ad) as [[e|] ad5'|] eqn:Hsteps; try discriminate.
    unfold get, ret in Hmain. injection Hmain as _ <-.
    apply run_steps_cons in Hsteps. destruct Hsteps as (ad1 & H1 & Hsteps).
    apply run_steps_cons in Hsteps. destruct Hsteps as (ad2 & H2 & Hsteps).
    apply run_steps_cons in Hsteps. destruct Hsteps as (ad3 & H3 & Hsteps).
    apply run_steps_cons in Hsteps. destruct Hsteps as (ad4 & H4 & Hsteps).
    apply run_steps_cons in Hsteps. destruct Hsteps as (ad5 & H5 & Hsteps).
    injection Hsteps as <-. exists ad4.
    split; [cbn [run_steps]; unfold bind; now rewrite H1, H2, H3, H4|].
    split; [exact H5|].
    destruct (buildIgnoreGlob_frame glob_Compile fs ad) as (r & rules & Heq1).
    rewrite Heq1 in H1. injection H1 as _ <-.
    pose proof (buildAllFile_files _ _ _ H2) as ->.
    pose proof (buildRepoFile_names _ _ _ H3) as ->.
    destruct (buildPkgFile_lines _ _ _ H4) as (lists & conffiles & _ & _ & ->).
    cbn [allFile repoFile pkgFile Root Repo set_ignoreGlob set_allFile
         set_repoFile set_pkgFile].
    split; [apply sort_Strings_sorted|].
    split; [apply sort_Strings_sorted|].
    split; [apply sort_Strings_sorted|].
    split; [reflexivity|]. split; [reflexivity|].
    split; [exists lists, conffiles; reflexivity|].
    apply (Hunpackaged _ _ _ H5).
Qed.

Lemma inventories_sorted_and_kept_witness :
  Main (fun _ => None) host_fs host_flags
  = Returns (["/unmanaged"], None) host_after
  /\ (exists ad4,
        run_steps [buildIgnoreGlob (fun _ => None) host_fs; buildAllFile host_fs;
                   buildRepoFile host_fs; buildPkgFile host_fs] host_flags
        = Returns None ad4
        /\ buildUnpackagedFile ad4 = Returns None host_after
        /\ sorted (allFile ad4) /\ sorted (repoFile ad4)
        /\ sorted (pkgFile ad4)
        /\ allFile ad4
           = sort_Strings
               (allFile host_flags
                ++ live_files (IsIgnored ad4) (Root host_flags)
                     (os_Lstat host_fs (Root host_flags)))
        /\ repoFile ad4
           = sort_Strings
               (repoFile host_flags
                ++ map (overlay_name (Repo host_flags))
                     (live_files (fun _ => false) (Repo host_flags)
                        (os_Lstat host_fs (Repo host_flags))))
        /\ (exists lists conffiles,
              pkgFile ad4
              = sort_Strings
                  (pkgFile host_flags
                   ++ flat_map (manifest_lines host_fs) (lists ++ conffiles)))
        /\ keeps_inventories ad4 host_after)
  /\ (buildAllFile sample_fs sample_ad
      = Returns None (set_allFile ["/etc/foobar"; "/etc/mtab"] sample_ad)
      /\ sorted_dedup ["/etc/foobar"; "/etc/mtab"])
  /\ (buildRepoFile host_fs host_flags
      = Returns None (set_repoFile ["/etc/foobar"] host_flags)
      /\ sorted_dedup ["/etc/foobar"])
  /\ (buildPkgFile dpkg_fs default_flags
      = Returns None
          (set_pkgFile [""; "/."; "/etc"; "/etc/a.conf"; "/etc/a.conf"]
             default_flags)
      /\ sorted [""; "/."; "/etc"; "/etc/a.conf"; "/etc/a.conf"]).
Proof.
  assert (Hrun : Main (fun _ => None) host_fs host_flags
                 = Returns (["/unmanaged"], None) host_after)
    by (vm_compute; reflexivity).
  split; [exact Hrun|]. split; [|split; [|split]].
  - destruct (inventories_sorted_and_kept (fun _ => None) (fun data => data)
                host_fs host_flags)
      as (_ & _ & _ & _ & _ & _ & _ & _ & _ & Hsteps).
    exact (Hsteps ["/unmanaged"] host_after Hrun).
  - split; [reflexivity|].
    destruct (inventories_sorted_and_kept (fun _ => None) (fun data => data)
                sample_fs sample_ad) as (Hall & _).
    destruct (Hall (set_allFile ["/etc/foobar"; "/etc/mtab"] sample_ad) eq_refl)
      as (_ & _ & Hdedup).
    exact (proj1 (Hdedup eq_refl eq_refl)).
  - split; [reflexivity|].
    destruct (inventories_sorted_and_kept (fun _ => None) (fun data => data)
                host_fs host_flags) as (_ & Hrepo & _).
    destruct (Hrepo (set_repoFile ["/etc/foobar"] host_flags) eq_refl)
      as (_ & _ & Hdedup).
    exact (proj1 (Hdedup eq_refl eq_refl eq_refl eq_refl)).
  - split; [reflexivity|].
    destruct (inventories_sorted_and_kept (fun _ => None) (fun data => data)
                dpkg_fs default_flags) as (_ & _ & Hpkg & _).
    destruct (Hpkg (set_pkgFile [""; "/."; "/etc"; "/etc/a.conf"; "/etc/a.conf"]
                      default_flags) eq_refl)
      as (lists & conffiles & _ & _ & _ & Hsorted).
    exact Hsorted.
Defined.

(** C9, as the claim words it, fails: nothing removes repeated paths.  A
    configuration file is listed in both manifests of its package, and the
    package inventory holds it twice.  With the current directory as the
    overlay directory the first dot is taken out of every path: the files
    [a.b] and [ab] both get the name [/ab], and the overlay inventory holds
    it twice. *)
Lemma inventories_hold_a_path_twice :
  (buildPkgFile dpkg_fs default_flags
   = Returns None
       (set_pkgFile [""; "/."; "/etc"; "/etc/a.conf"; "/etc/a.conf"] default_flags)
   /\ ~ NoDup [""; "/."; "/etc"; "/etc/a.conf"; "/etc/a.conf"]
   /\ ~ sorted_dedup [""; "/."; "/etc"; "/etc/a.conf"; "/etc/a.conf"])
  /\ (buildRepoFile dot_overlay_fs dot_overlay_flags
      = Returns None (set_repoFile ["/ab"; "/ab"] dot_overlay_flags)
      /\ proper_tree (os_Lstat dot_overlay_fs (Repo dot_overlay_flags)) = true
      /\ ~ NoDup ["/ab"; "/ab"]
      /\ ~ sorted_dedup ["/ab"; "/ab"]).
Proof.
  split.
  - split; [reflexivity|]. split; intros H.
    + do 3 (apply NoDup_cons_iff in H; destruct H as [_ H]).
      apply NoDup_cons_iff in H. destruct H as [Hnotin _]. apply Hnotin. now left.
    + unfold sorted_dedup in H.
      do 3 (apply Sorted_inv in H; destruct H as [H _]).
      apply Sorted_inv in H. destruct H as [_ Hhd].
      apply HdRel_inv in Hhd. discriminate.
  - split; [reflexivity|]. split; [reflexivity|]. split; intros H.
    + apply NoDup_cons_iff in H. destruct H as [Hnotin _]. apply Hnotin. now left.
    + unfold sorted_dedup in H. apply Sorted_inv in H. destruct H as [_ Hhd].
      apply HdRel_inv in Hhd. discriminate.
Qed.

(** ** Reading lines *)

(** One line of the input, up to its newline. *)
Lemma scan_lines_line (l : string) :
  ~ In newline (list_ascii_of_string l) ->
  forall cur rest,
    scan_lines (l ++ String newline rest) cur =
    if (MaxScanTokenSize <=? String.length (cur ++ l))%nat
    then ([], Some ErrTooLong)
    else let (tokens, err) := scan_lines rest "" in
         (dropCR (cur ++ l) :: tokens, err).
Proof.
  induction l as [|c l IH]; intros Hnl cur rest.
  - cbn [String.append scan_lines]. rewrite Ascii.eqb_refl.
    now rewrite string_app_nil_r.
  - cbn [String.append scan_lines].
    destruct (Ascii.eqb_spec c newline) as [->|Hc].
    + exfalso. apply Hnl. now left.
    + rewrite IH by (intros H; apply Hnl; now right).
      now rewrite string_app_assoc.
Qed.

(** The scanner delivers the lines of a text, the empty ones as well. *)
Lemma scan_lines_unlines (ls : list string) :
  Forall plain_line ls -> scan_lines (unlines ls) "" = (ls, None).
Proof.
  induction 1 as [|l ls (Hnl & Hcr & Hlen) _ IH].
  - reflexivity.
  - cbn [unlines]. rewrite (scan_lines_line l Hnl).
    cbn [String.append]. apply Nat.leb_gt in Hlen. rewrite Hlen, IH, Hcr.
    reflexivity.
Qed.

Lemma buildPkgFile_range_unlines (fs : FS) (lists : list string)
  (contents : list (list string)) :
  Forall2 (fun path ls =>
    fs_open fs path = Opened (unlines ls) None /\ Forall plain_line ls)
    lists contents ->
  forall ad,
    buildPkgFile_range fs lists ad
    = Returns None (set_pkgFile (pkgFile ad ++ concat contents) ad).
Proof.
  induction 1 as [|path ls lists contents (Hopen & Hplain) _ IH]; intros ad.
  - simpl. unfold ret. now rewrite app_nil_r, set_pkgFile_same.
  - cbn [buildPkgFile_range]. rewrite Hopen. unfold scan_file.
    rewrite (scan_lines_unlines ls Hplain). unfold bind, modify.
    rewrite IH. cbn [pkgFile set_pkgFile concat]. now rewrite app_assoc.
Qed.

(** C5, as the code has it: [buildPkgFile] reads each manifest line by
    line and records every line as it stands, the empty lines as well,
    then sorts the inventory.  For manifests that are texts of plain
    lines, the package inventory becomes what it was together with all
    their lines. *)
Theorem buildPkgFile_records_every_line (fs : FS) (ad : DebDiff)
  (lists conffiles : list string) (contents : list (list string)) :
  fs_glob fs (filepath_Join (Root ad) "var/lib/dpkg/info" ++ "/*.list")%string
  = Some lists ->
  fs_glob fs (filepath_Join (Root ad) "var/lib/dpkg/info" ++ "/*.conffiles")%string
  = Some conffiles ->
  Forall2 (fun path ls =>
    fs_open fs path = Opened (unlines ls) None /\ Forall plain_line ls)
    (lists ++ conffiles) contents ->
  buildPkgFile fs ad
  = Returns None (set_pkgFile (sort_Strings (pkgFile ad ++ concat contents)) ad).
Proof.
  intros Hlists Hconf Hopen. unfold buildPkgFile, bind, get.
  rewrite Hlists, Hconf.
  now rewrite (buildPkgFile_range_unlines fs _ contents Hopen).
Qed.

Lemma plain_line_short (l : string) :
  existsb (Ascii.eqb newline) (list_ascii_of_string l) = false ->
  dropCR l = l ->
  (String.length l <? MaxScanTokenSize)%nat = true ->
  plain_line l.
Proof.
  intros Hnl Hcr Hlen. repeat split; [|exact Hcr|now apply Nat.ltb_lt].
  intros Hin. apply not_true_iff_false in Hnl. apply Hnl.
  apply existsb_exists. exists newline. split; [exact Hin|apply Ascii.eqb_refl].
Qed.

Lemma buildPkgFile_records_every_line_witness :
  buildPkgFile dpkg_fs default_flags
  = Returns None
      (set_pkgFile
         (sort_Strings
            (pkgFile default_flags
             ++ concat [["/."; "/etc"; "/etc/a.conf"; ""]; ["/etc/a.conf"]]))
         default_flags).
Proof.
  apply (buildPkgFile_records_every_line dpkg_fs default_flags
           ["/var/lib/dpkg/info/a.list"] ["/var/lib/dpkg/info/a.conffiles"]);
    [reflexivity|reflexivity|].
  apply Forall2_cons;
    [split; [reflexivity|]
    |apply Forall2_cons; [split; [reflexivity|]|apply Forall2_nil]].
  all: repeat (apply Forall_cons;
               [apply plain_line_short; vm_compute; reflexivity|]).
  all: apply Forall_nil.
Defined.

(** C5, as the claim words it, fails: the loop appends [sc.Text()]
    whatever it is, and the blank line of a manifest is recorded as the
    empty path. *)
Lemma buildPkgFile_records_empty_line :
  buildPkgFile dpkg_fs default_flags
  = Returns None
      (set_pkgFile [""; "/."; "/etc"; "/etc/a.conf"; "/etc/a.conf"] default_flags)
  /\ In "" (pkgFile
       (set_pkgFile [""; "/."; "/etc"; "/etc/a.conf"; "/etc/a.conf"]
          default_flags)).
Proof. split; [reflexivity|now left]. Qed.

(** ** Where the code departs from the claims *)

(** C6: with no ignore directory configured the loader does not succeed.
    [filepath.Walk] starts with [os.Lstat] of the empty path, which fails;
    the callback wraps the error, and [buildIgnoreGlob] returns it.  With
    the default flags [Main] ends there, before any inventory is built. *)
Theorem buildIgnoreGlob_fails_without_directory
  (glob_Compile : string -> option (string -> bool)) (fs : FS)
  (silent : bool) (root repo cpuprofile : string) :
  buildIgnoreGlob glob_Compile fs (flags silent root repo "" cpuprofile)
  = Returns
      (Some (errors_Wrap
               (errors_Wrap (PathError "lstat" "" ENOENT) "walking ignore directory")
               "walking ignore directory"))
      (flags silent root repo "" cpuprofile)
  /\ Main glob_Compile fs default_flags
     = Returns
         ([], Some (errors_Wrap
                      (errors_Wrap (PathError "lstat" "" ENOENT)
                         "walking ignore directory")
                      "walking ignore directory"))
         default_flags.
Proof. split; reflexivity. Qed.

Lemma prefix_self (s : string) : String.prefix s s = true.
Proof.
  induction s as [|c s IH]; simpl; [reflexivity|].
  destruct (ascii_dec c c); [exact IH|contradiction].
Qed.

Lemma index_self (s : string) : String.index 0 s s = Some 0.
Proof.
  destruct s as [|c s]; [reflexivity|].
  cbn [String.index]. now rewrite prefix_self.
Qed.

Lemma substring_end (s : string) : String.substring (String.length s) 0 s = "".
Proof. induction s as [|c s IH]; simpl; [reflexivity|exact IH]. Qed.

(** Stripping a path from itself leaves nothing. *)
Lemma strings_Replace1_self (s : string) : strings_Replace1 s s "" = "".
Proof.
  unfold strings_Replace1. rewrite index_self. cbn [Nat.add].
  rewrite Nat.sub_diag, substring_end. now destruct s.
Qed.

(** C10: when the overlay path names an entry that is not a directory,
    the walk hands that very path to the callback, the name left after
    stripping the overlay path is empty, and [name[0]] panics. *)
Theorem buildRepoFile_panics_on_file (fs : FS) (ad : DebDiff) (k : FileKind) :
  os_Lstat fs (Repo ad) = File k ->
  strings_Replace1 (Repo ad) (Repo ad) "" = ""
  /\ buildRepoFile fs ad = Panics.
Proof.
  intros Hroot. split; [apply strings_Replace1_self|].
  unfold buildRepoFile, filepath_Walk, bind, get. rewrite Hroot. cbn [walk].
  unfold buildRepoFile_walkFn, bind, info_IsDir, ret, get. cbn [IsDir].
  now rewrite strings_Replace1_self.
Qed.

Lemma buildRepoFile_panics_on_file_witness :
  os_Lstat overlay_is_file_fs (Repo default_flags) = File Regular
  /\ buildRepoFile overlay_is_file_fs default_flags = Panics.
Proof.
  assert (Hroot : os_Lstat overlay_is_file_fs (Repo default_flags) = File Regular)
    by reflexivity.
  split; [exact Hroot|].
  exact (proj2 (buildRepoFile_panics_on_file overlay_is_file_fs default_flags
                  Regular Hroot)).
Defined.

(** The check of the root side of [buildDiffRepoFile] looks at the cause
    of the error: a missing file counts as an empty hash, a file that may
    not be read is skipped. *)
Lemma buildDiffRepoFile_root_permission_skips (md5hex : string -> string)
  (fs : FS) (ad : DebDiff) (file : string) (rest : list string) (e : errno) :
  fs_open fs (filepath_Join (Root ad) file) = OpenFails e ->
  os_IsPermission (PathError "open" (filepath_Join (Root ad) file) e) = true ->
  buildDiffRepoFile_range md5hex fs (file :: rest) ad
  = buildDiffRepoFile_range md5hex fs rest ad.
Proof.
  intros Hopen Hperm. cbn [buildDiffRepoFile_range]. unfold bind at 1, get.
  unfold filehash at 1. rewrite Hopen.
  unfold is_failure, errors_Wrap. cbn [errors_Cause]. rewrite Hperm.
  now destruct e.
Qed.

(** C4: the check of the overlay side asks [os.IsNotExist] and
    [os.IsPermission] about the wrapped error itself, which they do not
    look through: whatever error opening the overlay copy fails with, a
    missing file and a permission error included, the pass returns it and
    ends. *)
Theorem buildDiffRepoFile_overlay_error_aborts (md5hex : string -> string)
  (fs : FS) (ad : DebDiff) (file : string) (rest : list string)
  (data : string) (e : errno) :
  repoFile ad = file :: rest ->
  fs_open fs (filepath_Join (Root ad) file) = Opened data None ->
  fs_open fs (filepath_Join (Repo ad) file) = OpenFails e ->
  buildDiffRepoFile md5hex fs ad
  = Returns
      (Some (errors_Wrap (PathError "open" (filepath_Join (Repo ad) file) e)
               "filehash open error"))
      ad.
Proof.
  intros Hfiles Hroot Hoverlay. unfold buildDiffRepoFile, bind, get.
  rewrite Hfiles. cbn [buildDiffRepoFile_range]. unfold bind, get, filehash.
  rewrite Hroot, Hoverlay. reflexivity.
Qed.

Lemma buildDiffRepoFile_overlay_error_aborts_witness :
  buildDiffRepoFile (fun data => data) unreadable_overlay_fs
    (set_repoFile ["/a"] default_flags)
  = Returns
      (Some (errors_Wrap (PathError "open" "/usr/share/debdiff/a" EACCES)
               "filehash open error"))
      (set_repoFile ["/a"] default_flags).
Proof.
  exact (buildDiffRepoFile_overlay_error_aborts (fun data => data)
           unreadable_overlay_fs (set_repoFile ["/a"] default_flags)
           "/a" [] "content" EACCES eq_refl eq_refl eq_refl).
Defined.

(** * Further properties of the code *)

(** ** [contains] on any slice *)

(** The loop ends between its two bounds, whatever the predicate. *)
Lemma Search_loop_bounds (f : nat -> bool) :
  forall d i j, j - i <= d -> i <= j -> i <= Search_loop f i j <= j.
Proof.
  induction d as [|d IH]; intros i j Hd Hij;
    rewrite Search_loop_body; destruct (lt_dec i j) as [Hlt|Hge]; try lia.
  pose proof (half_between i j Hlt) as Hh.
  destruct (f ((i + j) / 2)).
  - assert (i <= Search_loop f i ((i + j) / 2) <= (i + j) / 2)
      by (apply IH; lia). lia.
  - assert ((i + j) / 2 + 1 <= Search_loop f ((i + j) / 2 + 1) j <= j)
      by (apply IH; lia). lia.
Qed.

Lemma contains_true_In (a : list string) (x : string) :
  contains a x = true -> In x a.
Proof.
  unfold contains.
  assert (Hr : SearchStrings a x <= length a).
  { unfold SearchStrings, Search.
    apply (Search_loop_bounds _ (length a) 0 (length a)); lia. }
  destruct (Nat.eqb_spec (SearchStrings a x) (length a)) as [|Hne];
    [discriminate|].
  intros H. apply String.eqb_eq in H.
  assert (Hlt : SearchStrings a x < length a) by lia.
  pose proof (nth_In a "" Hlt) as Hin. now rewrite H in Hin.
Qed.

(** [contains] never reports a string that is not in the slice, sorted or
    not: the answer [true] is read off an element of the slice.  On a
    slice that is not sorted it can miss a string that is there. *)
Theorem contains_sound :
  (forall a x, contains a x = true -> In x a)
  /\ contains ["/b"; "/a"] "/b" = false.
Proof. split; [exact contains_true_In|reflexivity]. Qed.

(** ** The set-difference pass on any inventories *)

Lemma buildUnpackagedFile_range_filter (names : list string) :
  forall ad,
  buildUnpackagedFile_range names ad =
  Returns tt
    (set_unpackagedFile
       (unpackagedFile ad
        ++ filter (fun name => negb (contains (repoFile ad) name)
                               && negb (contains (pkgFile ad) name)) names) ad).
Proof.
  induction names as [|name rest IH]; intros ad.
  - simpl. unfold ret. rewrite app_nil_r. now rewrite set_unpackagedFile_same.
  - cbn [buildUnpackagedFile_range filter]. unfold bind at 1, get.
    destruct (contains (repoFile ad) name); simpl; [now apply IH|].
    destruct (contains (pkgFile ad) name); simpl; [now apply IH|].
    unfold bind, modify. rewrite IH. cbn [unpackagedFile repoFile pkgFile
      set_unpackagedFile]. now rewrite <- app_assoc.
Qed.

(** Whatever the order of the overlay and package inventories, the pass
    reports paths of the filesystem inventory only, and it reports every
    path of the filesystem inventory that is in neither of the two:
    inventories out of order can add reports, they cannot lose one. *)
Theorem buildUnpackagedFile_never_drops (ad : DebDiff) :
  exists out,
    buildUnpackagedFile ad
    = Returns None (set_unpackagedFile (unpackagedFile ad ++ out) ad)
    /\ (forall P, In P out -> In P (allFile ad))
    /\ (forall P, In P (allFile ad) ->
          ~ In P (repoFile ad) -> ~ In P (pkgFile ad) -> In P out).
Proof.
  eexists. split; [|split].
  - unfold buildUnpackagedFile, bind, get.
    now rewrite (buildUnpackagedFile_range_filter (allFile ad) ad).
  - intros P HP. now apply filter_In in HP.
  - intros P HP Hrepo Hpkg. apply filter_In. split; [exact HP|].
    apply andb_true_iff. split; apply negb_true_iff, not_true_iff_false;
      intros H; apply contains_true_In in H; contradiction.
Qed.

(** ** The filesystem walk never panics *)

(** [buildAllFile] returns whatever the file system holds: its callback
    asks [info.IsDir()] only of entries that came without an error, and
    those carry their [os.FileInfo].  It changes nothing but the filesystem
    inventory. *)
Theorem buildAllFile_returns (fs : FS) (ad : DebDiff) :
  exists r files, buildAllFile fs ad = Returns r (set_allFile files ad).
Proof.
  destruct (buildAllFile_run fs ad) as (r & files & _ & Hrun).
  rewrite Hrun. destruct r as [[]|]; eauto.
Qed.

(** ** Loading the ignore rules *)

Lemma IsIgnored_app (rules : list Glob) (ad : DebDiff) (path : string) :
  IsIgnored (set_ignoreGlob (ignoreGlob ad ++ rules) ad) path
  = IsIgnored ad path || existsb (fun glob => Match glob path) rules.
Proof. unfold IsIgnored. cbn [ignoreGlob set_ignoreGlob]. apply existsb_app. Qed.

(** The loader never panics and never takes a rule away: it changes
    nothing but the rule set, to which it appends, so that a path that was
    ignored before is ignored afterwards, also when the loader fails. *)
Theorem buildIgnoreGlob_keeps_rules
  (glob_Compile : string -> option (string -> bool)) (fs : FS) (ad : DebDiff) :
  exists r rules,
    buildIgnoreGlob glob_Compile fs ad
    = Returns r (set_ignoreGlob (ignoreGlob ad ++ rules) ad)
    /\ forall path,
         IsIgnored ad path = true ->
         IsIgnored (set_ignoreGlob (ignoreGlob ad ++ rules) ad) path = true.
Proof.
  destruct (buildIgnoreGlob_frame glob_Compile fs ad) as (r & rules & Hrun).
  exists r, rules. split; [exact Hrun|].
  intros path Hign. rewrite IsIgnored_app, Hign. reflexivity.
Qed.

(** Blank lines and lines that begin with [#] load no rule. *)
Theorem ignore_lines_comments
  (glob_Compile : string -> option (string -> bool)) (lines : list string)
  (ad : DebDiff) :
  Forall (fun l => l = "" \/ GoString.first l = Some "#"%char) lines ->
  ignore_lines glob_Compile lines ad = Returns None ad.
Proof.
  induction 1 as [|l rest [->|Hfirst] _ IH]; [reflexivity|exact IH|].
  cbn [ignore_lines]. destruct l as [|c l]; [exact IH|].
  cbn [String.length Nat.eqb]. rewrite Hfirst. exact IH.
Qed.

Lemma ignore_lines_comments_witness :
  ignore_lines (fun _ => None) [""; "# rules of the host"; "#/etc"] default_flags
  = Returns None default_flags.
Proof.
  apply ignore_lines_comments.
  repeat (apply Forall_cons; [(now left) || (now right)|]). apply Forall_nil.
Defined.

(** The rule a line loads is in the rule set once the file is loaded. *)
Lemma ignore_lines_rule_in (glob_Compile : string -> option (string -> bool))
  (l : string) (lines : list string) :
  l <> "" -> GoString.first l <> Some "#"%char ->
  forall ad ad',
    ignore_lines glob_Compile lines ad = Returns None ad' ->
    In l lines ->
    exists g,
      In g (ignoreGlob ad')
      /\ if strings_ContainsAny l "*?["
         then exists m, glob_Compile l = Some m /\ g = compiledGlob m
         else g = simpleGlob l.
Proof.
  intros Hne Hfirst. induction lines as [|l0 rest IH]; intros ad ad' Hrun Hin.
  - destruct Hin.
  - assert (Hrest : forall ad1, ignore_lines glob_Compile rest ad1 = Returns None ad' ->
              In l rest ->
              exists g, In g (ignoreGlob ad')
                /\ if strings_ContainsAny l "*?["
                   then exists m, glob_Compile l = Some m /\ g = compiledGlob m
                   else g = simpleGlob l) by (intros; eapply IH; eauto).
    assert (Hkeep : forall g ad1,
              ignore_lines glob_Compile rest
                (set_ignoreGlob (ignoreGlob ad1 ++ [g]) ad1) = Returns None ad' ->
              In g (ignoreGlob ad')).
    { intros g ad1 H.
      destruct (ignore_lines_frame glob_Compile rest
                  (set_ignoreGlob (ignoreGlob ad1 ++ [g]) ad1)) as (r & rules & Heq).
      rewrite Heq in H. injection H as _ <-. cbn [ignoreGlob set_ignoreGlob].
      rewrite !in_app_iff. left. right. now left. }
    cbn [ignore_lines] in Hrun. destruct Hin as [->|Hin].
    + destruct l as [|c l]; [contradiction|].
      cbn [String.length Nat.eqb GoString.first String.get] in Hrun, Hfirst.
      destruct (Ascii.eqb_spec c "#") as [->|_]; [contradiction|].
      destruct (strings_ContainsAny (String c l) "*?[").
      * destruct (glob_Compile (String c l)) as [m|]; [|discriminate].
        unfold bind, modify in Hrun. exists (compiledGlob m). eauto.
      * unfold bind, modify in Hrun. exists (simpleGlob (String c l)). eauto.
    + destruct l0 as [|c0 l0]; [eauto|].
      cbn [String.length Nat.eqb GoString.first String.get] in Hrun.
      destruct (Ascii.eqb c0 "#"); [eauto|].
      destruct (strings_ContainsAny (String c0 l0) "*?[").
      * destruct (glob_Compile (String c0 l0)) as [m|]; [|discriminate].
        unfold bind, modify in Hrun. eauto.
      * unfold bind, modify in Hrun. eauto.
Qed.

(** Every rule line of a file that was loaded is in force: a line without
    [*], [?] and [[] makes the path it names and every path below it
    ignored; a line with one of them was compiled, and every path its
    matcher accepts is ignored. *)
Theorem ignore_lines_rule_in_force
  (glob_Compile : string -> option (string -> bool)) (l : string)
  (lines : list string) (ad ad' : DebDiff) :
  ignore_lines glob_Compile lines ad = Returns None ad' ->
  In l lines -> l <> "" -> GoString.first l <> Some "#"%char ->
  (strings_ContainsAny l "*?[" = false ->
   forall rest, IsIgnored ad' l = true
                /\ IsIgnored ad' (l ++ "/" ++ rest)%string = true)
  /\ (strings_ContainsAny l "*?[" = true ->
      exists m, glob_Compile l = Some m
                /\ forall path, m path = true -> IsIgnored ad' path = true).
Proof.
  intros Hrun Hin Hne Hfirst.
  destruct (ignore_lines_rule_in glob_Compile l lines Hne Hfirst ad ad' Hrun Hin)
    as (g & Hg & Hrule).
  split; intros Hany; rewrite Hany in Hrule.
  - subst g. intros rest. unfold IsIgnored. rewrite !existsb_exists.
    split; exists (simpleGlob l); (split; [exact Hg|]); cbn [Match];
      unfold simpleGlob_Match.
    + now rewrite String.eqb_refl.
    + destruct (String.eqb (l ++ "/" ++ rest) l); [reflexivity|].
      apply HasPrefix_iff. exists rest. symmetry. apply string_app_assoc.
  - destruct Hrule as (m & Hm & ->). exists m. split; [exact Hm|].
    intros path Hpath. unfold IsIgnored. apply existsb_exists.
    exists (compiledGlob m). split; [exact Hg|exact Hpath].
Qed.

Lemma ignore_lines_rule_in_force_witness :
  IsIgnored (set_ignoreGlob [simpleGlob "/var/log"] default_flags) "/var/log" = true
  /\ IsIgnored (set_ignoreGlob [simpleGlob "/var/log"] default_flags)
       ("/var/log" ++ "/" ++ "syslog")%string = true.
Proof.
  assert (Hrun : ignore_lines (fun _ => None) ["# logs"; ""; "/var/log"] default_flags
                 = Returns None (set_ignoreGlob [simpleGlob "/var/log"] default_flags))
    by reflexivity.
  refine (proj1 (ignore_lines_rule_in_force (fun _ => None) "/var/log"
                   ["# logs"; ""; "/var/log"] default_flags _ Hrun _ _ _) eq_refl
            "syslog").
  - simpl. auto.
  - discriminate.
  - discriminate.
Defined.

(** ** The content-divergence pass *)

Lemma buildDiffRepoFile_range_readable (md5hex : string -> string) (fs : FS)
  (root repo : string) (real overlay : string -> string) (files : list string) :
  (forall file, In file files ->
     fs_open fs (filepath_Join root file) = Opened (real file) None
     /\ fs_open fs (filepath_Join repo file) = Opened (overlay file) None) ->
  forall ad, Root ad = root -> Repo ad = repo ->
  buildDiffRepoFile_range md5hex fs files ad
  = Returns None
      (set_diffRepoFile
         (diffRepoFile ad
          ++ filter (fun file =>
               negb (String.eqb (md5hex (real file)) (md5hex (overlay file))))
               files) ad).
Proof.
  induction files as [|file rest IH]; intros Hopen ad Hroot Hrepo.
  - simpl. unfold ret. now rewrite app_nil_r, set_diffRepoFile_same.
  - destruct (Hopen file (or_introl eq_refl)) as (Hreal & Hoverlay).
    cbn [buildDiffRepoFile_range filter]. unfold bind at 1, get, filehash.
    rewrite Hroot, Hrepo, Hreal, Hoverlay. cbn [is_failure].
    assert (Hrest : forall file0, In file0 rest ->
      fs_open fs (filepath_Join root file0) = Opened (real file0) None
      /\ fs_open fs (filepath_Join repo file0) = Opened (overlay file0) None)
      by (intros; apply Hopen; now right).
    destruct (negb (String.eqb (md5hex (real file)) (md5hex (overlay file)))).
    + unfold bind, modify. rewrite (IH Hrest) by assumption.
      cbn [diffRepoFile set_diffRepoFile]. now rewrite <- app_assoc.
    + now apply IH.
Qed.

(** When both copies of every overlay path can be read, the pass returns
    nil and appends, in the order of the overlay inventory, exactly the
    paths whose two digests differ; a path whose two copies have the same
    content is never reported. *)
Theorem buildDiffRepoFile_reports_differing (md5hex : string -> string)
  (fs : FS) (ad : DebDiff) (real overlay : string -> string) :
  (forall file, In file (repoFile ad) ->
     fs_open fs (filepath_Join (Root ad) file) = Opened (real file) None
     /\ fs_open fs (filepath_Join (Repo ad) file) = Opened (overlay file) None) ->
  exists diverging,
    buildDiffRepoFile md5hex fs ad
    = Returns None (set_diffRepoFile (diffRepoFile ad ++ diverging) ad)
    /\ diverging
       = filter (fun file =>
           negb (String.eqb (md5hex (real file)) (md5hex (overlay file))))
           (repoFile ad)
    /\ (forall file, In file diverging ->
          In file (repoFile ad) /\ md5hex (real file) <> md5hex (overlay file))
    /\ (forall file, real file = overlay file -> ~ In file diverging).
Proof.
  intros Hopen. eexists. split; [|split; [reflexivity|split]].
  - unfold buildDiffRepoFile, bind, get.
    now rewrite (buildDiffRepoFile_range_readable md5hex fs (Root ad) (Repo ad)
                   real overlay (repoFile ad) Hopen ad).
  - intros file Hin. apply filter_In in Hin. destruct Hin as (Hin & Hne).
    split; [exact Hin|]. apply negb_true_iff, String.eqb_neq in Hne. exact Hne.
  - intros file Heq Hin. apply filter_In in Hin. destruct Hin as (_ & Hne).
    rewrite Heq, String.eqb_refl in Hne. discriminate.
Qed.

Lemma buildDiffRepoFile_reports_differing_witness :
  exists diverging,
    buildDiffRepoFile (fun data => data) host_fs
      (set_repoFile ["/etc/foobar"] host_flags)
    = Returns None
        (set_diffRepoFile
           (diffRepoFile (set_repoFile ["/etc/foobar"] host_flags) ++ diverging)
           (set_repoFile ["/etc/foobar"] host_flags))
    /\ diverging = ["/etc/foobar"].
Proof.
  destruct (buildDiffRepoFile_reports_differing (fun data => data) host_fs
              (set_repoFile ["/etc/foobar"] host_flags)
              (fun _ => "local") (fun _ => "reference"))
    as (diverging & Hrun & Hdiv & _).
  - intros file [<-|[]]. split; reflexivity.
  - exists diverging. split; [exact Hrun|]. rewrite Hdiv. reflexivity.
Defined.

(** A file that is missing under the root counts as the empty hash and
    does not end the pass: against an overlay copy that can be read, whose
    digest is not empty, the path is reported and the pass goes on. *)
Theorem buildDiffRepoFile_root_missing_reported (md5hex : string -> string)
  (fs : FS) (ad : DebDiff) (file : string) (rest : list string) (data : string) :
  fs_open fs (filepath_Join (Root ad) file) = OpenFails ENOENT ->
  fs_open fs (filepath_Join (Repo ad) file) = Opened data None ->
  md5hex data <> "" ->
  buildDiffRepoFile_range md5hex fs (file :: rest) ad
  = buildDiffRepoFile_range md5hex fs rest
      (set_diffRepoFile (diffRepoFile ad ++ [file]) ad).
Proof.
  intros Hreal Hoverlay Hdigest. cbn [buildDiffRepoFile_range].
  unfold bind at 1, get, filehash. rewrite Hreal, Hoverlay.
  cbn [is_failure errors_Wrap errors_Cause os_IsNotExist negb].
  apply String.eqb_neq in Hdigest. rewrite String.eqb_sym, Hdigest.
  reflexivity.
Qed.

Lemma buildDiffRepoFile_root_missing_reported_witness :
  buildDiffRepoFile_range (fun data => data) missing_root_fs ["/a"] default_flags
  = buildDiffRepoFile_range (fun data => data) missing_root_fs []
      (set_diffRepoFile (diffRepoFile default_flags ++ ["/a"]) default_flags).
Proof.
  apply (buildDiffRepoFile_root_missing_reported (fun data => data)
           missing_root_fs default_flags "/a" [] "content");
    [reflexivity|reflexivity|discriminate].
Defined.

Lemma buildDiffRepoFile_root_permission_skips_witness :
  buildDiffRepoFile_range (fun data => data) unreadable_root_fs ["/a"] default_flags
  = buildDiffRepoFile_range (fun data => data) unreadable_root_fs [] default_flags.
Proof.
  apply (buildDiffRepoFile_root_permission_skips (fun data => data)
           unreadable_root_fs default_flags "/a" [] EACCES);
    reflexivity.
Defined.

(** ** The names of the overlay inventory *)

(** Of an entry below the overlay directory the callback records what
    follows the overlay path, with a separator put in front when it does
    not begin with one. *)
Theorem buildRepoFile_walkFn_strips_prefix (ad : DebDiff) (suffix : string)
  (c : ascii) (k : FileKind) :
  GoString.first suffix = Some c ->
  buildRepoFile_walkFn (Repo ad ++ suffix)%string (Some (InfoFile k)) None ad
  = Returns None
      (set_repoFile
         (repoFile ad
          ++ [if Ascii.eqb c "/" then suffix else ("/" ++ suffix)%string]) ad).
Proof.
  intros Hfirst.
  unfold buildRepoFile_walkFn, bind, info_IsDir, ret, get, modify. cbn [IsDir].
  rewrite strings_Replace1_prefix, Hfirst. now destruct (Ascii.eqb c "/").
Qed.

Lemma buildRepoFile_walkFn_strips_prefix_witness :
  buildRepoFile_walkFn (Repo default_flags ++ "/etc/hosts")%string
    (Some (InfoFile Regular)) None default_flags
  = Returns None
      (set_repoFile (repoFile default_flags ++ ["/etc/hosts"]) default_flags).
Proof.
  exact (buildRepoFile_walkFn_strips_prefix default_flags "/etc/hosts" "/"
           Regular eq_refl).
Defined.

Lemma walk_range_repoFile_rooted (path : string) (entries : list (string * node)) :
  Forall (fun entry =>
    forall path ad r ad',
      walk buildRepoFile_walkFn path (snd entry) ad = Returns r ad' ->
      exists names,
        ad' = set_repoFile (repoFile ad ++ names) ad /\ Forall rooted names)
    entries ->
  forall ad r ad',
    walk_range buildRepoFile_walkFn path entries ad = Returns r ad' ->
    exists names,
      ad' = set_repoFile (repoFile ad ++ names) ad /\ Forall rooted names.
Proof.
  induction 1 as [|[name child] rest Hchild _ IH]; intros ad r ad' Hrun.
  - injection Hrun as _ <-. exists [].
    split; [now rewrite app_nil_r, set_repoFile_same|constructor].
  - rewrite walk_range_cons in Hrun. simpl in Hchild.
    destruct (walk buildRepoFile_walkFn (filepath_Join path name) child ad)
      as [r1 ad1|] eqn:Hwalk; [|discriminate].
    destruct (Hchild _ _ _ _ Hwalk) as (names1 & -> & Hrooted1).
    destruct (stops child r1).
    + injection Hrun as _ <-. now exists names1.
    + destruct (IH _ _ _ Hrun) as (names2 & -> & Hrooted2).
      exists (names1 ++ names2). cbn [repoFile set_repoFile].
      split; [now rewrite app_assoc|]. apply Forall_app. now split.
Qed.

Lemma walk_repoFile_rooted (n : node) :
  forall path ad r ad',
    walk buildRepoFile_walkFn path n ad = Returns r ad' ->
    exists names,
      ad' = set_repoFile (repoFile ad ++ names) ad /\ Forall rooted names.
Proof.
  assert (Hstay : forall (r0 r : option error) ad ad',
    Returns r0 ad = Returns r ad' ->
    exists names,
      ad' = set_repoFile (repoFile ad ++ names) ad /\ Forall rooted names).
  { intros r0 r ad ad' H. injection H as _ <-. exists [].
    split; [now rewrite app_nil_r, set_repoFile_same|constructor]. }
  induction n as [k|entries IH|e|e] using node_ind'; intros path ad r ad' Hrun.
  - cbn [walk] in Hrun.
    unfold buildRepoFile_walkFn, bind, info_IsDir, ret, get, modify in Hrun.
    cbn [IsDir] in Hrun.
    destruct (GoString.first (strings_Replace1 path (Repo ad) "")) as [c|] eqn:Hfirst;
      [|discriminate].
    injection Hrun as _ <-. eexists. split; [reflexivity|].
    constructor; [|constructor]. unfold rooted.
    destruct (Ascii.eqb_spec c "/") as [->|_]; [exact Hfirst|reflexivity].
  - rewrite walk_Dir in Hrun.
    change (buildRepoFile_walkFn path (Some InfoDir) None ad)
      with (Returns (@None error) ad) in Hrun.
    cbv beta iota in Hrun.
    eapply walk_range_repoFile_rooted; eassumption.
  - cbn [walk] in Hrun. rewrite buildRepoFile_walkFn_error in Hrun. eauto.
  - cbn [walk] in Hrun. rewrite buildRepoFile_walkFn_error in Hrun. eauto.
Qed.

(** Every name [buildRepoFile] adds to the overlay inventory begins with
    the separator: an overlay inventory of rooted names stays one. *)
Theorem buildRepoFile_names_rooted (fs : FS) (ad ad' : DebDiff) :
  buildRepoFile fs ad = Returns None ad' ->
  exists names,
    ad' = set_repoFile (sort_Strings (repoFile ad ++ names)) ad
    /\ Forall rooted names
    /\ (Forall rooted (repoFile ad) -> Forall rooted (repoFile ad')).
Proof.
  unfold buildRepoFile, filepath_Walk, bind, get. intros Hrun.
  destruct (walk buildRepoFile_walkFn (Repo ad) (os_Lstat fs (Repo ad)) ad)
    as [r ad1|] eqn:Hwalk; [|discriminate].
  destruct (walk_repoFile_rooted _ _ _ _ _ Hwalk) as (names & -> & Hrooted).
  exists names.
  assert (ad' = set_repoFile (sort_Strings (repoFile ad ++ names)) ad) as ->
    by (destruct r as [[]|]; simpl in Hrun; try discriminate;
        now injection Hrun as <-).
  split; [reflexivity|split; [exact Hrooted|]].
  intros Hold. cbn [repoFile set_repoFile].
  rewrite Forall_forall. intros name Hin.
  apply (proj1 (sort_Strings_In _ _)) in Hin. apply in_app_iff in Hin. rewrite Forall_forall in Hold, Hrooted.
  destruct Hin; auto.
Qed.

Lemma buildRepoFile_names_rooted_witness :
  buildRepoFile host_fs host_flags
  = Returns None (set_repoFile ["/etc/foobar"] host_flags)
  /\ exists names,
       set_repoFile ["/etc/foobar"] host_flags
       = set_repoFile (sort_Strings (repoFile host_flags ++ names)) host_flags
       /\ Forall rooted names.
Proof.
  assert (Hrun : buildRepoFile host_fs host_flags
                 = Returns None (set_repoFile ["/etc/foobar"] host_flags))
    by reflexivity.
  split; [exact Hrun|].
  destruct (buildRepoFile_names_rooted host_fs host_flags _ Hrun)
    as (names & Heq & Hrooted & _).
  exists names. split; assumption.
Defined.

(** ** The whole run *)

Lemma buildAllFile_success (fs : FS) (ad ad' : DebDiff) :
  buildAllFile fs ad = Returns None ad' ->
  exists files,
    ad' = set_allFile (sort_Strings (allFile ad ++ files)) ad
    /\ forall p, In p files <->
         exists k, live_file (IsIgnored ad) (Root ad) (os_Lstat fs (Root ad)) p k.
Proof.
  intros Hrun. destruct (buildAllFile_run fs ad) as (r & files & Hw & Heq).
  rewrite Heq in Hrun. exists files.
  destruct r as [[]|]; simpl in Hw; try contradiction; try discriminate;
    injection Hrun as <-; (split; [reflexivity|]).
  - destruct Hw as (-> & Hign & entries & Hroot). rewrite Hroot. intros p. split.
    + intros [].
    + intros (k & Hlive). inversion Hlive; congruence.
  - now destruct Hw.
Qed.

(** What a successful run prints.  When [Main] returns nil, the three
    inventories are sorted, the rules loaded are in force for the walk of
    the root, the filesystem inventory holds the live files of that walk,
    and the lines printed are the paths of the filesystem inventory that
    are in neither the overlay nor the package inventory, in sorted
    order. *)
Theorem Main_prints_unpackaged
  (glob_Compile : string -> option (string -> bool)) (fs : FS)
  (ad ad' : DebDiff) (out : list string) :
  Main glob_Compile fs ad = Returns (out, None) ad' ->
  allFile ad = [] -> unpackagedFile ad = [] ->
  sorted (allFile ad') /\ sorted (repoFile ad') /\ sorted (pkgFile ad')
  /\ (forall P, In P (allFile ad') <->
        exists k, live_file (IsIgnored ad') (Root ad) (os_Lstat fs (Root ad)) P k)
  /\ out = filter (unpackaged (repoFile ad') (pkgFile ad')) (allFile ad')
  /\ sorted out
  /\ (forall P, In P out <->
        In P (allFile ad') /\ ~ In P (repoFile ad') /\ ~ In P (pkgFile ad')).
Proof.
  intros Hmain Hall Hunp. unfold Main, bind at 1, get in Hmain.
  destruct (if String.eqb (CpuProfile ad) "" then None
            else fs_create fs (CpuProfile ad)); [discriminate|].
  unfold bind at 1 in Hmain.
  destruct (run_steps _ ad) as [[e|] ad5|] eqn:Hsteps; try discriminate.
  unfold get, ret in Hmain. injection Hmain as <- <-.
  apply run_steps_cons in Hsteps. destruct Hsteps as (ad1 & H1 & Hsteps).
  apply run_steps_cons in Hsteps. destruct Hsteps as (ad2 & H2 & Hsteps).
  apply run_steps_cons in Hsteps. destruct Hsteps as (ad3 & H3 & Hsteps).
  apply run_steps_cons in Hsteps. destruct Hsteps as (ad4 & H4 & Hsteps).
  apply run_steps_cons in Hsteps. destruct Hsteps as (ad5' & H5 & Hsteps).
  injection Hsteps as <-.
  destruct (buildIgnoreGlob_frame glob_Compile fs ad) as (r & rules & Heq1).
  rewrite Heq1 in H1. injection H1 as _ <-.
  destruct (buildAllFile_success _ _ _ H2) as (files & -> & Hfiles).
  destruct (buildRepoFile_success _ _ _ H3) as (names & ->).
  destruct (buildPkgFile_success _ _ _ H4) as (lines & ->).
  match type of H5 with buildUnpackagedFile ?a = _ =>
    assert (Hrepo : sorted (repoFile a)) by apply sort_Strings_sorted;
    assert (Hpkg : sorted (pkgFile a)) by apply sort_Strings_sorted;
    unfold buildUnpackagedFile, bind, get in H5;
    rewrite (buildUnpackagedFile_range_spec (allFile a) a Hrepo Hpkg) in H5
  end.
  injection H5 as <-.
  cbn [allFile repoFile pkgFile unpackagedFile ignoreGlob Root
       set_ignoreGlob set_allFile set_repoFile set_pkgFile set_unpackagedFile]
    in *.
  rewrite Hall, Hunp. cbn [app].
  split; [apply sort_Strings_sorted|].
  split; [apply sort_Strings_sorted|].
  split; [apply sort_Strings_sorted|].
  split; [intros P; rewrite sort_Strings_In; apply Hfiles|].
  split; [reflexivity|].
  split; [apply filter_sorted, sort_Strings_sorted|].
  intros P. rewrite filter_In. unfold unpackaged.
  rewrite andb_true_iff, !negb_true_iff, <- !not_true_iff_false, !inb_In.
  tauto.
Qed.

Lemma Main_prints_unpackaged_witness :
  Main (fun _ => None) host_fs host_flags = Returns (["/unmanaged"], None) host_after
  /\ sorted (allFile host_after)
  /\ ["/unmanaged"]
     = filter (unpackaged (repoFile host_after) (pkgFile host_after))
         (allFile host_after).
Proof.
  assert (Hmain : Main (fun _ => None) host_fs host_flags
                  = Returns (["/unmanaged"], None) host_after)
    by (vm_compute; reflexivity).
  split; [exact Hmain|].
  destruct (Main_prints_unpackaged (fun _ => None) host_fs host_flags host_after
              ["/unmanaged"] Hmain eq_refl eq_refl)
    as (Hsorted & _ & _ & _ & Hout & _).
  split; [exact Hsorted|exact Hout].
Defined.

(** * The package [alternatives] *)

Import alternatives.

(** ** Fields of a line *)

Lemma index_space_cons (c : ascii) (s : string) :
  String.index 0 " " (String c s)
  = if Ascii.eqb c " " then Some 0
    else match String.index 0 " " s with
         | Some n => Some (S n)
         | None => None
         end.
Proof.
  cbn [String.index String.prefix].
  destruct (Ascii.eqb_spec c " ") as [->|Hc].
  - destruct (ascii_dec " " " ") as [_|H]; [now destruct s|contradiction].
  - destruct (ascii_dec " " c) as [H|_]; [now subst|reflexivity].
Qed.

(** The first space of a name without space followed by a space. *)
Lemma index_space_app (name path : string) :
  String.index 0 " " name = None ->
  String.index 0 " " (name ++ " " ++ path) = Some (String.length name).
Proof.
  induction name as [|c name IH]; intros Hname.
  - change ("" ++ " " ++ path)%string with (String " " path).
    now rewrite index_space_cons.
  - rewrite index_space_cons in Hname.
    change (String c name ++ " " ++ path)%string
      with (String c (name ++ " " ++ path)).
    rewrite index_space_cons. destruct (Ascii.eqb c " "); [discriminate|].
    destruct (String.index 0 " " name); [discriminate|]. now rewrite IH.
Qed.

Lemma substring_app_prefix (r s : string) :
  String.substring 0 (String.length r) (r ++ s) = r.
Proof.
  induction r as [|c r IH]; simpl; [now destruct s|now rewrite IH].
Qed.

Lemma HasPrefix_app (pre s : string) : GoString.HasPrefix (pre ++ s) pre = true.
Proof. apply HasPrefix_iff. now exists s. Qed.

Lemma after_app (pre s : string) : after pre (pre ++ s) = s.
Proof.
  unfold after. rewrite string_length_app.
  replace (String.length pre + String.length s - String.length pre)
    with (String.length s) by lia.
  apply substring_app.
Qed.

Lemma bytes_SplitN2_fields (name path : string) :
  String.index 0 " " name = None ->
  bytes_SplitN2 (name ++ " " ++ path) = [name; path].
Proof.
  intros Hname. unfold bytes_SplitN2. rewrite (index_space_app _ _ Hname).
  rewrite substring_app_prefix. f_equal. f_equal.
  rewrite <- string_app_assoc, string_length_app, string_length_app.
  cbn [String.length].
  replace (String.length name + 1 + String.length path - (String.length name + 1))
    with (String.length path) by lia.
  replace (String.length name + 1) with (String.length (name ++ " "))
    by (rewrite string_length_app; reflexivity).
  apply substring_app.
Qed.

Lemma bytes_SplitN2_single (word : string) :
  String.index 0 " " word = None -> bytes_SplitN2 word = [word].
Proof. intros H. unfold bytes_SplitN2. now rewrite H. Qed.

(** ** [parseSlaves] *)

Lemma parseSlaves_range_entries (entries : list (string * string))
  (tail : list string) :
  Forall (fun entry => String.index 0 " " (fst entry) = None) entries ->
  forall slaves,
    parseSlaves_range (map slave_line entries ++ tail) slaves
    = parseSlaves_range tail (set_all entries slaves).
Proof.
  induction 1 as [|[name path] entries Hname _ IH]; intros slaves;
    [reflexivity|].
  cbn [map app parseSlaves_range]. unfold slave_line at 1 2. cbn [fst snd] in *.
  rewrite HasPrefix_app, after_app, (bytes_SplitN2_fields _ _ Hname).
  apply IH.
Qed.

Lemma parseSlaves_at_stop (entries : list (string * string))
  (stop : string) (rest : list string) (target : option smap) :
  Forall (fun entry => String.index 0 " " (fst entry) = None) entries ->
  GoString.HasPrefix stop " " = false ->
  parseSlaves (map slave_line entries ++ stop :: rest) target
  = Ret (rest,
         Some (set_all entries (match target with Some m => m | None => [] end)),
         stop).
Proof.
  intros Hentries Hstop. unfold parseSlaves.
  rewrite (parseSlaves_range_entries entries _ Hentries).
  cbn [parseSlaves_range]. now rewrite Hstop.
Qed.

(** [parseSlaves] reads the lines of slaves that follow: it sets the
    entries of all of them in the map, which it makes when there was none,
    and stops at the first line that does not begin with a space, handing
    that line back, or at the end of the input. *)
Theorem parseSlaves_reads_entries (entries : list (string * string))
  (stop : string) (rest : list string) (target : option smap) :
  Forall (fun entry => String.index 0 " " (fst entry) = None) entries ->
  GoString.HasPrefix stop " " = false ->
  parseSlaves (map slave_line entries ++ stop :: rest) target
  = Ret (rest,
         Some (set_all entries (match target with Some m => m | None => [] end)),
         stop)
  /\ parseSlaves (map slave_line entries) target
     = Ret ([],
            Some (set_all entries (match target with Some m => m | None => [] end)),
            "").
Proof.
  intros Hentries Hstop. split; [now apply parseSlaves_at_stop|].
  unfold parseSlaves.
  - rewrite <- (app_nil_r (map slave_line entries)).
    now rewrite (parseSlaves_range_entries entries _ Hentries).
Qed.

Lemma parseSlaves_reads_entries_witness :
  parseSlaves
    (map slave_line [("editor.1.gz", "/usr/share/man/man1/editor.1.gz")]
     ++ "Status: auto" :: ["Best: /bin/nano"]) None
  = Ret (["Best: /bin/nano"],
         Some (set_all [("editor.1.gz", "/usr/share/man/man1/editor.1.gz")] []),
         "Status: auto").
Proof.
  refine (proj1 (parseSlaves_reads_entries
                   [("editor.1.gz", "/usr/share/man/man1/editor.1.gz")]
                   "Status: auto" ["Best: /bin/nano"] None _ eq_refl)).
  apply Forall_cons; [reflexivity|apply Forall_nil].
Defined.

(** A line of slaves without a second field makes [parseSlaves] panic:
    [res[1]] is read of a slice of length one. *)
Theorem parseSlaves_panics_without_path (entries : list (string * string))
  (word : string) (rest : list string) (target : option smap) :
  Forall (fun entry => String.index 0 " " (fst entry) = None) entries ->
  String.index 0 " " word = None ->
  parseSlaves (map slave_line entries ++ (" " ++ word)%string :: rest) target
  = Panic.
Proof.
  intros Hentries Hword. unfold parseSlaves.
  rewrite (parseSlaves_range_entries entries _ Hentries).
  cbn [parseSlaves_range].
  now rewrite HasPrefix_app, after_app, (bytes_SplitN2_single _ Hword).
Qed.

Lemma parseSlaves_panics_without_path_witness :
  parseSlaves
    (map slave_line [("editor.1.gz", "/usr/share/man/man1/editor.1.gz")]
     ++ (" " ++ "editor.fr.1.gz")%string :: ["Status: auto"]) None
  = Panic.
Proof.
  apply (parseSlaves_panics_without_path
           [("editor.1.gz", "/usr/share/man/man1/editor.1.gz")]
           "editor.fr.1.gz" ["Status: auto"] None);
    [apply Forall_cons; [reflexivity|apply Forall_nil]|reflexivity].
Defined.

(** ** The two parse loops *)

Lemma parseQueryResultAlternatives_range_body (data : string)
  (rest : list string) (alts : list QueryResultAlternative)
  (alt : QueryResultAlternative) :
  parseQueryResultAlternatives_range (data :: rest) alts alt
  = match scan_data data rest (AlternativeSlaves alt) with
    | Panic => Panic
    | Ret (rest', slaves, pending) =>
        match alternative_case pending alts (set_AlternativeSlaves slaves alt) with
        | inl (alts', alt') => parseQueryResultAlternatives_range rest' alts' alt'
        | inr err => Ret (alts, Some err)
        end
    end.
Proof.
  rewrite parseQueryResultAlternatives_range_equation_2.
  destruct (inspect (scan_data data rest (AlternativeSlaves alt))) as [r Hr].
  transitivity
    (match r with
     | Panic => Panic
     | Ret (rest', slaves, pending) =>
         match alternative_case pending alts (set_AlternativeSlaves slaves alt) with
         | inl (alts', alt') => parseQueryResultAlternatives_range rest' alts' alt'
         | inr err => Ret (alts, Some err)
         end
     end); [|now rewrite Hr].
  destruct r as [[[rest' slaves] pending]|]; [|reflexivity].
  cbn. now destruct (alternative_case pending alts _) as [[alts' alt']|err].
Qed.

Lemma parseQueryResult_body (data : string) (rest : list string)
  (qr : QueryResult) :
  parseQueryResult (data :: rest) qr
  = match scan_data data rest (Slaves qr) with
    | Panic => Panic
    | Ret (rest', slaves, pending) =>
        match query_case pending (set_Slaves slaves qr) with
        | Field qr' => parseQueryResult rest' qr'
        | Blank => parseQueryResultAlternatives rest' (set_Slaves slaves qr)
        | Unknown err => Ret (set_Slaves slaves qr, Some err)
        end
    end.
Proof.
  rewrite parseQueryResult_equation_2.
  destruct (inspect (scan_data data rest (Slaves qr))) as [r Hr].
  transitivity
    (match r with
     | Panic => Panic
     | Ret (rest', slaves, pending) =>
         match query_case pending (set_Slaves slaves qr) with
         | Field qr' => parseQueryResult rest' qr'
         | Blank => parseQueryResultAlternatives rest' (set_Slaves slaves qr)
         | Unknown err => Ret (set_Slaves slaves qr, Some err)
         end
     end); [|now rewrite Hr].
  destruct r as [[[rest' slaves] pending]|]; [|reflexivity].
  cbn. now destruct (query_case pending _).
Qed.

Lemma scan_data_other (data : string) (rest : list string) (target : option smap) :
  String.eqb data "Slaves:" = false ->
  scan_data data rest target = Ret (rest, target, data).
Proof. intros H. unfold scan_data. now rewrite H. Qed.

Lemma set_Slaves_same (qr : QueryResult) : set_Slaves (Slaves qr) qr = qr.
Proof. now destruct qr. Qed.

Lemma set_Alternatives_same (qr : QueryResult) :
  set_Alternatives (Alternatives qr) qr = qr.
Proof. now destruct qr. Qed.

Lemma set_AlternativeSlaves_same (alt : QueryResultAlternative) :
  set_AlternativeSlaves (AlternativeSlaves alt) alt = alt.
Proof. now destruct alt. Qed.

(** Without a blank line and without a section of slaves the loop of
    [parseQueryResultAlternatives] appends nothing. *)
Lemma parseQueryResultAlternatives_range_no_blank (lines : list string) :
  Forall (fun l => l <> "" /\ l <> "Slaves:") lines ->
  forall alts alt, exists err,
    parseQueryResultAlternatives_range lines alts alt = Ret (alts, err).
Proof.
  induction 1 as [|data rest (Hne & Hslaves) _ IH]; intros alts alt.
  - exists None. now rewrite parseQueryResultAlternatives_range_equation_1.
  - apply String.eqb_neq in Hslaves.
    rewrite parseQueryResultAlternatives_range_body, scan_data_other by assumption.
    unfold alternative_case.
    destruct data as [|c data]; [contradiction|]. cbn [String.length Nat.eqb].
    destruct (GoString.HasPrefix (String c data) "Alternative: "); [apply IH|].
    destruct (GoString.HasPrefix (String c data) "Priority: "); [apply IH|].
    eauto.
Qed.

(** An alternative is appended only at a blank line (or at the line that
    ends a section of slaves): on lines none of which is blank or opens a
    section of slaves, [parseQueryResultAlternatives] leaves the result as
    it was, so that a last block [Alternative:], [Priority:] that no blank
    line follows is lost. *)
Theorem parseQueryResultAlternatives_needs_blank (lines : list string)
  (qr : QueryResult) :
  Forall (fun l => l <> "" /\ l <> "Slaves:") lines ->
  exists err, parseQueryResultAlternatives lines qr = Ret (qr, err).
Proof.
  intros Hlines. unfold parseQueryResultAlternatives.
  destruct (parseQueryResultAlternatives_range_no_blank lines Hlines
              (Alternatives qr) zero_alternative) as (err & ->).
  exists err. now rewrite set_Alternatives_same.
Qed.

Lemma parseQueryResultAlternatives_needs_blank_witness :
  exists err,
    parseQueryResultAlternatives ["Alternative: /bin/nano"; "Priority: 40"]
      zero_result
    = Ret (zero_result, err).
Proof.
  apply parseQueryResultAlternatives_needs_blank.
  repeat (apply Forall_cons; [split; discriminate|]). apply Forall_nil.
Defined.

(** ** Reading back what was printed *)

Lemma map_set_fresh (k v : string) (m : smap) :
  ~ In k (map fst m) -> map_set k v m = m ++ [(k, v)].
Proof.
  induction m as [|[k' v'] m IH]; intros Hfresh; [reflexivity|].
  cbn [map_set app]. cbn [map fst In] in Hfresh.
  destruct (String.eqb_spec k' k) as [->|_]; [tauto|].
  rewrite IH; tauto.
Qed.

Lemma set_all_fresh (entries : list (string * string)) :
  forall m, NoDup (map fst (m ++ entries)) -> set_all entries m = m ++ entries.
Proof.
  unfold set_all.
  induction entries as [|[k v] entries IH]; intros m Hnodup.
  - now rewrite app_nil_r.
  - cbn [fold_left fst snd].
    assert (Hsplit : m ++ (k, v) :: entries = (m ++ [(k, v)]) ++ entries)
      by now rewrite <- app_assoc.
    rewrite Hsplit in Hnodup |- *.
    rewrite map_set_fresh.
    + now apply IH.
    + rewrite map_app in Hnodup. apply NoDup_app_remove_r in Hnodup.
      rewrite map_app in Hnodup. cbn [map fst] in Hnodup.
      apply NoDup_remove_2 in Hnodup. now rewrite app_nil_r in Hnodup.
Qed.

Lemma set_all_plain (m : smap) : plain_map m -> set_all m [] = m.
Proof. intros (_ & Hnodup). now apply (set_all_fresh m []). Qed.

Lemma parseQueryResult_field (data : string) (rest : list string)
  (qr qr' : QueryResult) :
  String.eqb data "Slaves:" = false ->
  query_case data qr = Field qr' ->
  parseQueryResult (data :: rest) qr = parseQueryResult rest qr'.
Proof.
  intros Hdata Hcase.
  now rewrite parseQueryResult_body, scan_data_other, set_Slaves_same, Hcase.
Qed.

Lemma parseQueryResult_blank (rest : list string) (qr : QueryResult) :
  parseQueryResult ("" :: rest) qr = parseQueryResultAlternatives rest qr.
Proof.
  rewrite parseQueryResult_body, scan_data_other, set_Slaves_same by reflexivity.
  reflexivity.
Qed.

Lemma parseQueryResult_slaves (m : smap) (stop : string) (rest : list string)
  (qr qr' : QueryResult) :
  plain_map m -> Slaves qr = None ->
  GoString.HasPrefix stop " " = false ->
  query_case stop (set_Slaves (Some m) qr) = Field qr' ->
  parseQueryResult ("Slaves:" :: map slave_line m ++ stop :: rest) qr
  = parseQueryResult rest qr'.
Proof.
  intros Hplain Hnone Hstop Hcase. rewrite parseQueryResult_body.
  unfold scan_data. cbn [String.eqb Ascii.eqb Bool.eqb]. rewrite Hnone.
  rewrite (parseSlaves_at_stop m stop rest None (proj1 Hplain) Hstop).
  rewrite (set_all_plain m Hplain). now rewrite Hcase.
Qed.

(** A line does not begin with a prefix that differs from it in a
    character they both have. *)
Ltac no_prefix :=
  apply not_true_iff_false;
  let H := fresh "H" in
  let r := fresh "r" in
  intros H; apply HasPrefix_iff in H; destruct H as (r & H);
  cbn [String.append] in H; discriminate H.

Lemma alternative_case_Alternative (a : string)
  (alts : list QueryResultAlternative) (alt : QueryResultAlternative) :
  alternative_case ("Alternative: " ++ a) alts alt
  = inl (alts, {| Alternative := a; Priority := Priority alt;
                  AlternativeSlaves := AlternativeSlaves alt |}).
Proof. unfold alternative_case. now rewrite HasPrefix_app, after_app. Qed.

Lemma alternative_case_Priority (p : string)
  (alts : list QueryResultAlternative) (alt : QueryResultAlternative) :
  alternative_case ("Priority: " ++ p) alts alt
  = inl (alts, {| Alternative := Alternative alt; Priority := p;
                  AlternativeSlaves := AlternativeSlaves alt |}).
Proof.
  unfold alternative_case.
  assert (Hn : GoString.HasPrefix ("Priority: " ++ p) "Alternative: " = false)
    by no_prefix.
  now rewrite Hn, HasPrefix_app, after_app.
Qed.

Lemma query_case_Name (x : string) (qr : QueryResult) :
  query_case ("Name: " ++ x) qr
  = Field {| Name := x; Link := Link qr; Slaves := Slaves qr;
             Status := Status qr; Best := Best qr; Value := Value qr;
             Alternatives := Alternatives qr |}.
Proof. unfold query_case. now rewrite HasPrefix_app, after_app. Qed.

Lemma query_case_Link (x : string) (qr : QueryResult) :
  query_case ("Link: " ++ x) qr
  = Field {| Name := Name qr; Link := x; Slaves := Slaves qr;
             Status := Status qr; Best := Best qr; Value := Value qr;
             Alternatives := Alternatives qr |}.
Proof.
  unfold query_case.
  assert (H1 : GoString.HasPrefix ("Link: " ++ x) "Name: " = false) by no_prefix.
  now rewrite H1, HasPrefix_app, after_app.
Qed.

Lemma query_case_Status (x : string) (qr : QueryResult) :
  query_case ("Status: " ++ x) qr
  = Field {| Name := Name qr; Link := Link qr; Slaves := Slaves qr;
             Status := x; Best := Best qr; Value := Value qr;
             Alternatives := Alternatives qr |}.
Proof.
  unfold query_case.
  assert (H1 : GoString.HasPrefix ("Status: " ++ x) "Name: " = false) by no_prefix.
  assert (H2 : GoString.HasPrefix ("Status: " ++ x) "Link: " = false) by no_prefix.
  now rewrite H1, H2, HasPrefix_app, after_app.
Qed.

Lemma query_case_Best (x : string) (qr : QueryResult) :
  query_case ("Best: " ++ x) qr
  = Field {| Name := Name qr; Link := Link qr; Slaves := Slaves qr;
             Status := Status qr; Best := x; Value := Value qr;
             Alternatives := Alternatives qr |}.
Proof.
  unfold query_case.
  assert (H1 : GoString.HasPrefix ("Best: " ++ x) "Name: " = false) by no_prefix.
  assert (H2 : GoString.HasPrefix ("Best: " ++ x) "Link: " = false) by no_prefix.
  assert (H3 : GoString.HasPrefix ("Best: " ++ x) "Status: " = false) by no_prefix.
  now rewrite H1, H2, H3, HasPrefix_app, after_app.
Qed.

Lemma query_case_Value (x : string) (qr : QueryResult) :
  query_case ("Value: " ++ x) qr
  = Field {| Name := Name qr; Link := Link qr; Slaves := Slaves qr;
             Status := Status qr; Best := Best qr; Value := x;
             Alternatives := Alternatives qr |}.
Proof.
  unfold query_case.
  assert (H1 : GoString.HasPrefix ("Value: " ++ x) "Name: " = false) by no_prefix.
  assert (H2 : GoString.HasPrefix ("Value: " ++ x) "Link: " = false) by no_prefix.
  assert (H3 : GoString.HasPrefix ("Value: " ++ x) "Status: " = false) by no_prefix.
  assert (H4 : GoString.HasPrefix ("Value: " ++ x) "Best: " = false) by no_prefix.
  now rewrite H1, H2, H3, H4, HasPrefix_app, after_app.
Qed.

Lemma parseQueryResultAlternatives_range_field (data : string)
  (rest : list string) (alts alts' : list QueryResultAlternative)
  (alt alt' : QueryResultAlternative) :
  String.eqb data "Slaves:" = false ->
  alternative_case data alts alt = inl (alts', alt') ->
  parseQueryResultAlternatives_range (data :: rest) alts alt
  = parseQueryResultAlternatives_range rest alts' alt'.
Proof.
  intros Hdata Hcase.
  now rewrite parseQueryResultAlternatives_range_body, scan_data_other,
    set_AlternativeSlaves_same, Hcase.
Qed.

(** The block of one alternative is read as that alternative. *)
Lemma parseQueryResultAlternatives_range_block (alt : QueryResultAlternative)
  (rest : list string) (alts : list QueryResultAlternative) :
  plain_slaves (AlternativeSlaves alt) ->
  parseQueryResultAlternatives_range (render_alternative alt ++ rest) alts
    zero_alternative
  = parseQueryResultAlternatives_range rest (alts ++ [alt]) zero_alternative.
Proof.
  destruct alt as [a p slaves]. intros Hplain. cbn [AlternativeSlaves] in Hplain.
  unfold render_alternative. cbn [Alternative Priority AlternativeSlaves app].
  rewrite (parseQueryResultAlternatives_range_field _ _ alts alts zero_alternative
             {| Alternative := a; Priority := ""; AlternativeSlaves := None |});
    [|reflexivity|apply alternative_case_Alternative].
  rewrite (parseQueryResultAlternatives_range_field _ _ alts alts _
             {| Alternative := a; Priority := p; AlternativeSlaves := None |});
    [|reflexivity|apply alternative_case_Priority].
  destruct slaves as [m|]; cbn [render_slaves app].
  - rewrite parseQueryResultAlternatives_range_body.
    unfold scan_data. cbn [String.eqb Ascii.eqb Bool.eqb AlternativeSlaves].
    rewrite <- app_assoc. cbn [app].
    rewrite (parseSlaves_at_stop m "" rest None (proj1 Hplain) eq_refl).
    now rewrite (set_all_plain m Hplain).
  - now rewrite (parseQueryResultAlternatives_range_field "" rest alts
                   (alts ++ [{| Alternative := a; Priority := p;
                                AlternativeSlaves := None |}])
                   _ zero_alternative).
Qed.

Lemma parseQueryResultAlternatives_range_blocks
  (blocks : list QueryResultAlternative) :
  Forall (fun alt => plain_slaves (AlternativeSlaves alt)) blocks ->
  forall alts,
    parseQueryResultAlternatives_range (concat (map render_alternative blocks))
      alts zero_alternative
    = Ret (alts ++ blocks, None).
Proof.
  induction 1 as [|alt blocks Hplain _ IH]; intros alts.
  - cbn [map concat]. rewrite parseQueryResultAlternatives_range_equation_1.
    now rewrite app_nil_r.
  - cbn [map concat].
    rewrite (parseQueryResultAlternatives_range_block alt _ alts Hplain), IH.
    now rewrite <- app_assoc.
Qed.

Lemma parseQueryResult_reads_render (qr : QueryResult) :
  plain_result qr ->
  parseQueryResult (render qr) zero_result = Ret (qr, None).
Proof.
  destruct qr as [name link slaves status best value alts].
  intros (Hslaves & Halts). cbn [Slaves Alternatives] in Hslaves, Halts.
  unfold render. cbn [Name Link Slaves Status Best Value Alternatives app].
  rewrite (parseQueryResult_field _ _ zero_result
             {| Name := name; Link := ""; Slaves := None; Status := "";
                Best := ""; Value := ""; Alternatives := [] |});
    [|reflexivity|apply query_case_Name].
  rewrite (parseQueryResult_field _ _ _
             {| Name := name; Link := link; Slaves := None; Status := "";
                Best := ""; Value := ""; Alternatives := [] |});
    [|reflexivity|apply query_case_Link].
  assert (Htail : forall qr0 : QueryResult,
    Best qr0 = "" -> Value qr0 = "" -> Alternatives qr0 = [] ->
    parseQueryResult
      (("Best: " ++ best)%string :: ("Value: " ++ value)%string :: ""
       :: concat (map render_alternative alts)) qr0
    = Ret ({| Name := Name qr0; Link := Link qr0; Slaves := Slaves qr0;
              Status := Status qr0; Best := best; Value := value;
              Alternatives := alts |}, None)).
  { intros [n0 l0 s0 st0 b0 v0 a0]. cbn [Name Link Slaves Status Best Value
      Alternatives]. intros -> -> ->.
    rewrite (parseQueryResult_field _ _ _
               {| Name := n0; Link := l0; Slaves := s0; Status := st0;
                  Best := best; Value := ""; Alternatives := [] |});
      [|reflexivity|apply query_case_Best].
    rewrite (parseQueryResult_field _ _ _
               {| Name := n0; Link := l0; Slaves := s0; Status := st0;
                  Best := best; Value := value; Alternatives := [] |});
      [|reflexivity|apply query_case_Value].
    rewrite parseQueryResult_blank. unfold parseQueryResultAlternatives.
    cbn [Alternatives].
    now rewrite (parseQueryResultAlternatives_range_blocks alts Halts []). }
  destruct slaves as [m|]; cbn [render_slaves app].
  - rewrite (parseQueryResult_slaves m _ _ _
               {| Name := name; Link := link; Slaves := Some m; Status := status;
                  Best := ""; Value := ""; Alternatives := [] |});
      [now rewrite Htail|exact Hslaves|reflexivity|reflexivity|].
    apply query_case_Status.
  - rewrite (parseQueryResult_field _ _ _
               {| Name := name; Link := link; Slaves := None; Status := status;
                  Best := ""; Value := ""; Alternatives := [] |});
      [now rewrite Htail|reflexivity|].
    apply query_case_Status.
Qed.

(** Round trip.  [parseQueryResult] reads the text of a query back into
    the result it was printed from: the five fields, the slaves of the
    group, and every alternative with its priority and its slaves, each
    block being ended by a blank line. *)
Theorem parseQueryResult_render (qr : QueryResult) :
  plain_result qr ->
  parseQueryResult (render qr) zero_result = Ret (qr, None).
Proof. exact (parseQueryResult_reads_render qr). Qed.

Lemma parseQueryResult_render_witness :
  parseQueryResult (render editor) zero_result = Ret (editor, None).
Proof.
  apply parseQueryResult_render. unfold plain_result, editor.
  cbn [Slaves Alternatives]. split.
  - split; [repeat constructor|]. cbn [map fst].
    apply NoDup_cons; [intros []|apply NoDup_nil].
  - apply Forall_cons; [|apply Forall_cons; [exact I|apply Forall_nil]].
    cbn [AlternativeSlaves plain_slaves]. split; [repeat constructor|].
    cbn [map fst]. apply NoDup_cons; [intros []|apply NoDup_nil].
Defined.

(** ** [Query] on the output of the command *)

Lemma parseQueryResult_header (qr : QueryResult) (tail : list string) :
  plain_slaves (Slaves qr) ->
  parseQueryResult (query_header qr ++ tail) zero_result
  = parseQueryResult tail (set_Alternatives [] qr).
Proof.
  destruct qr as [name link slaves status best value alts].
  cbn [Slaves]. intros Hslaves.
  unfold query_header, set_Alternatives.
  cbn [Name Link Slaves Status Best Value Alternatives app].
  rewrite (parseQueryResult_field _ _ zero_result
             {| Name := name; Link := ""; Slaves := None; Status := "";
                Best := ""; Value := ""; Alternatives := [] |});
    [|reflexivity|apply query_case_Name].
  rewrite (parseQueryResult_field _ _ _
             {| Name := name; Link := link; Slaves := None; Status := "";
                Best := ""; Value := ""; Alternatives := [] |});
    [|reflexivity|apply query_case_Link].
  assert (Htail : forall qr0 : QueryResult,
    Best qr0 = "" -> Value qr0 = "" -> Alternatives qr0 = [] ->
    parseQueryResult
      (("Best: " ++ best)%string :: ("Value: " ++ value)%string :: tail) qr0
    = parseQueryResult tail
        {| Name := Name qr0; Link := Link qr0; Slaves := Slaves qr0;
           Status := Status qr0; Best := best; Value := value;
           Alternatives := [] |}).
  { intros [n0 l0 s0 st0 b0 v0 a0]. cbn [Name Link Slaves Status Best Value
      Alternatives]. intros -> -> ->.
    rewrite (parseQueryResult_field _ _ _
               {| Name := n0; Link := l0; Slaves := s0; Status := st0;
                  Best := best; Value := ""; Alternatives := [] |});
      [|reflexivity|apply query_case_Best].
    now rewrite (parseQueryResult_field _ _ _
               {| Name := n0; Link := l0; Slaves := s0; Status := st0;
                  Best := best; Value := value; Alternatives := [] |});
      [|reflexivity|apply query_case_Value]. }
  destruct slaves as [m|]; cbn [render_slaves app].
  - rewrite <- app_assoc. cbn [app].
    rewrite (parseQueryResult_slaves m _ _ _
               {| Name := name; Link := link; Slaves := Some m; Status := status;
                  Best := ""; Value := ""; Alternatives := [] |});
      [now rewrite Htail|exact Hslaves|reflexivity|reflexivity|].
    apply query_case_Status.
  - rewrite (parseQueryResult_field _ _ _
               {| Name := name; Link := link; Slaves := None; Status := status;
                  Best := ""; Value := ""; Alternatives := [] |});
      [now rewrite Htail|reflexivity|].
    apply query_case_Status.
Qed.

Lemma parseQueryResultAlternatives_range_blocks_then
  (blocks : list QueryResultAlternative) (tail : list string) :
  Forall (fun alt => plain_slaves (AlternativeSlaves alt)) blocks ->
  forall alts,
    parseQueryResultAlternatives_range
      (concat (map render_alternative blocks) ++ tail) alts zero_alternative
    = parseQueryResultAlternatives_range tail (alts ++ blocks) zero_alternative.
Proof.
  induction 1 as [|alt blocks Hplain _ IH]; intros alts.
  - cbn [map concat app]. now rewrite app_nil_r.
  - cbn [map concat]. rewrite <- app_assoc.
    rewrite (parseQueryResultAlternatives_range_block alt _ alts Hplain), IH.
    now rewrite <- app_assoc.
Qed.

(** The block that ends the text: the alternative is appended when the
    block ends with its slaves, and is dropped when it does not. *)
Lemma parseQueryResultAlternatives_range_last (alt : QueryResultAlternative)
  (alts : list QueryResultAlternative) :
  plain_slaves (AlternativeSlaves alt) ->
  parseQueryResultAlternatives_range (alternative_block alt) alts zero_alternative
  = Ret (match AlternativeSlaves alt with
         | Some _ => alts ++ [alt]
         | None => alts
         end, None).
Proof.
  destruct alt as [a p slaves]. intros Hplain. cbn [AlternativeSlaves] in Hplain.
  unfold alternative_block. cbn [Alternative Priority AlternativeSlaves app].
  rewrite (parseQueryResultAlternatives_range_field _ _ alts alts zero_alternative
             {| Alternative := a; Priority := ""; AlternativeSlaves := None |});
    [|reflexivity|apply alternative_case_Alternative].
  rewrite (parseQueryResultAlternatives_range_field _ _ alts alts _
             {| Alternative := a; Priority := p; AlternativeSlaves := None |});
    [|reflexivity|apply alternative_case_Priority].
  destruct slaves as [m|]; cbn [render_slaves].
  - rewrite parseQueryResultAlternatives_range_body.
    unfold scan_data, parseSlaves.
    cbn [String.eqb Ascii.eqb Bool.eqb AlternativeSlaves].
    rewrite <- (app_nil_r (map slave_line m)).
    rewrite (parseSlaves_range_entries m [] (proj1 Hplain)).
    cbn [parseSlaves_range]. rewrite (set_all_plain m Hplain).
    cbn. now rewrite parseQueryResultAlternatives_range_equation_1.
  - now rewrite parseQueryResultAlternatives_range_equation_1.
Qed.

Lemma query_text_blocks (blocks : list QueryResultAlternative)
  (last : QueryResultAlternative) :
  concat (map (fun alt => "" :: alternative_block alt) (blocks ++ [last]))
  = "" :: concat (map render_alternative blocks) ++ alternative_block last.
Proof.
  induction blocks as [|alt blocks IH].
  - cbn [app map concat]. now rewrite app_nil_r.
  - cbn [app map concat]. rewrite IH. unfold render_alternative at 2.
    unfold alternative_block at 1. cbn [app].
    now rewrite <- !app_assoc.
Qed.

Lemma parseQueryResult_reads_query_text (qr : QueryResult)
  (alts : list QueryResultAlternative) (last : QueryResultAlternative) :
  plain_result qr -> Alternatives qr = alts ++ [last] ->
  parseQueryResult (query_text qr) zero_result
  = Ret (match AlternativeSlaves last with
         | Some _ => qr
         | None => set_Alternatives alts qr
         end, None).
Proof.
  intros (Hslaves & Halts) Heq. unfold query_text. rewrite Heq in Halts |- *.
  apply Forall_app in Halts. destruct Halts as (Halts & Hlast).
  apply Forall_inv in Hlast.
  rewrite query_text_blocks, (parseQueryResult_header qr _ Hslaves).
  rewrite parseQueryResult_blank. unfold parseQueryResultAlternatives.
  cbn [Alternatives set_Alternatives].
  rewrite (parseQueryResultAlternatives_range_blocks_then alts _ Halts []).
  cbn [app].
  rewrite (parseQueryResultAlternatives_range_last last alts Hlast).
  destruct (AlternativeSlaves last); [|reflexivity].
  rewrite <- Heq. destruct qr; reflexivity.
Qed.

(** [Query] on the text the command prints.  The parser appends an
    alternative when it reads the blank line after its block, or when the
    input ends within the slaves of the block.  The command prints no blank
    line after the last block: [Query] returns without error, with the
    last alternative when its block ends with slaves and without it when
    it does not, as for every group without slaves. *)
Theorem Query_loses_last_alternative (name : string) (qr : QueryResult)
  (alts : list QueryResultAlternative) (last : QueryResultAlternative) :
  plain_result qr -> Forall plain_line (query_text qr) ->
  Alternatives qr = alts ++ [last] ->
  Query name (Some (unlines (query_text qr)))
  = Ret (match AlternativeSlaves last with
         | Some _ => qr
         | None => set_Alternatives alts qr
         end, None).
Proof.
  intros Hplain Hlines Heq. unfold Query.
  rewrite (scan_lines_unlines _ Hlines).
  now rewrite (parseQueryResult_reads_query_text qr alts last Hplain Heq).
Qed.

Lemma plain_result_pager : plain_result pager.
Proof.
  split; [exact I|]. repeat (apply Forall_cons; [exact I|]). apply Forall_nil.
Qed.

Lemma Query_loses_last_alternative_witness :
  Query "pager" (Some (unlines (query_text pager)))
  = Ret (set_Alternatives
           [{| Alternative := "/bin/less"; Priority := "77";
               AlternativeSlaves := None |}] pager, None).
Proof.
  refine (Query_loses_last_alternative "pager" pager
            [{| Alternative := "/bin/less"; Priority := "77";
                AlternativeSlaves := None |}]
            {| Alternative := "/bin/more"; Priority := "50";
               AlternativeSlaves := None |} plain_result_pager _ eq_refl).
  cbv [query_text query_header pager Name Link Slaves Status Best Value
       Alternatives render_slaves alternative_block Alternative Priority
       AlternativeSlaves map concat app].
  repeat (apply Forall_cons;
          [apply plain_line_short; vm_compute; reflexivity|]).
  apply Forall_nil.
Defined.

(** ** [GetSelections] *)

Lemma bytes_Split_newline_line (l : string) :
  no_newline l ->
  forall cur tail,
    bytes_Split_newline (l ++ tail) cur = bytes_Split_newline tail (cur ++ l).
Proof.
  induction l as [|c l IH]; intros Hnl cur tail.
  - cbn [String.append]. now rewrite string_app_nil_r.
  - cbn [String.append bytes_Split_newline].
    destruct (Ascii.eqb_spec c newline) as [->|_].
    + exfalso. apply Hnl. now left.
    + rewrite IH by (intros H; apply Hnl; now right).
      now rewrite string_app_assoc.
Qed.

Lemma bytes_Split_newline_join (l : string) (ls : list string) :
  Forall no_newline (l :: ls) ->
  bytes_Split_newline (join_lines (l :: ls)) "" = l :: ls.
Proof.
  revert l. induction ls as [|l' ls IH]; intros l Hnl.
  - cbn [join_lines]. rewrite <- (string_app_nil_r l) at 1.
    rewrite bytes_Split_newline_line by (now inversion Hnl). reflexivity.
  - inversion Hnl as [|? ? Hl Hrest]; subst.
    change (join_lines (l :: l' :: ls))
      with (l ++ String newline (join_lines (l' :: ls)))%string.
    rewrite (bytes_Split_newline_line l Hl). cbn [bytes_Split_newline String.append].
    rewrite Ascii.eqb_refl. now rewrite IH.
Qed.

Lemma GetSelections_range_names (entries : list (string * string)) :
  Forall (fun entry => String.index 0 " " (fst entry) = None) entries ->
  GetSelections_range (map selection_line entries) = Ret (map fst entries).
Proof.
  induction 1 as [|[name rest] entries Hname _ IH]; [reflexivity|].
  cbn [map GetSelections_range]. cbn [fst] in Hname.
  change (selection_line (name, rest)) with (name ++ " " ++ rest)%string.
  rewrite (index_space_app _ _ Hname), IH. now rewrite substring_app_prefix.
Qed.

(** For an output of one line for each group, its name followed by a
    space and the rest, [GetSelections] returns the names of the groups in
    the order of the lines. *)
Theorem GetSelections_names (entry : string * string)
  (entries : list (string * string)) :
  Forall (fun entry => String.index 0 " " (fst entry) = None
                       /\ no_newline (selection_line entry))
    (entry :: entries) ->
  GetSelections (join_lines (map selection_line (entry :: entries)))
  = Ret (map fst (entry :: entries)).
Proof.
  intros Hentries. unfold GetSelections.
  change (map selection_line (entry :: entries))
    with (selection_line entry :: map selection_line entries).
  rewrite bytes_Split_newline_join.
  - apply (GetSelections_range_names (entry :: entries)).
    eapply Forall_impl; [|exact Hentries]. now intros e (H & _).
  - change (selection_line entry :: map selection_line entries)
      with (map selection_line (entry :: entries)).
    apply Forall_map. eapply Forall_impl; [|exact Hentries]. now intros e (_ & H).
Qed.

Lemma no_newline_short (l : string) :
  existsb (Ascii.eqb newline) (list_ascii_of_string l) = false -> no_newline l.
Proof.
  intros Hnl Hin. apply not_true_iff_false in Hnl. apply Hnl.
  apply existsb_exists. exists newline. split; [exact Hin|apply Ascii.eqb_refl].
Qed.

Lemma GetSelections_names_witness :
  GetSelections
    (join_lines (map selection_line
       [("editor", "auto /bin/nano"); ("pager", "manual /usr/bin/less")]))
  = Ret (map fst [("editor", "auto /bin/nano"); ("pager", "manual /usr/bin/less")]).
Proof.
  apply GetSelections_names.
  repeat (apply Forall_cons;
          [split; [reflexivity|apply no_newline_short; reflexivity]|]).
  apply Forall_nil.
Defined.

Lemma GetSelections_range_panics (lines : list string) :
  Exists (fun line => String.index 0 " " line = None) lines ->
  GetSelections_range lines = Panic.
Proof.
  induction 1 as [line rest Hline|line rest _ IH]; cbn [GetSelections_range].
  - now rewrite Hline.
  - rewrite IH. now destruct (String.index 0 " " line).
Qed.

(** A line without a space makes [GetSelections] panic: the index of the
    space is -1 and the slice expression is out of range.  The empty
    output is such a case, its single line being the empty one. *)
Theorem GetSelections_panics_without_space (trimmed : string) :
  Exists (fun line => String.index 0 " " line = None)
    (bytes_Split_newline trimmed "") ->
  GetSelections trimmed = Panic.
Proof. apply GetSelections_range_panics. Qed.

Lemma GetSelections_panics_without_space_witness : GetSelections "" = Panic.
Proof.
  apply GetSelections_panics_without_space. apply Exists_cons_hd. reflexivity.
Defined.
